(** * A persistent bit-partitioned vector trie (vector.py)

    Shallow embedding of [Node] and [Vector] over an explicit store of
    nodes.  Python nodes are mutable objects that several vectors may
    reach, so a node is an address into a store and every operation
    threads the store; an exception keeps the store it was raised in. *)

From Stdlib Require Import ZArith Lia.
From stdpp Require Import base numbers list option gmap.

Local Open Scope Z_scope.

(** ** Constants *)

Definition BITS : Z := 2.
Definition WIDTH : Z := Z.shiftl 1 BITS.
Definition MASK : Z := WIDTH - 1.

(** Modelled from the spec: [utils.is_power_of] is imported by vector.py
    but its module is not part of the sources.  The spec speaks of a size
    that is "an exact power of WIDTH" with the exponent k >= 1 (the root
    grows at WIDTH, WIDTH^2, ...), so 0 and 1 are not powers here: the
    constructor appends at the sizes 0 and 1, and a root that grew there
    would leave no vector readable, the one of the module's main block
    included. *)
Definition is_power_of (n b : Z) : bool :=
  (1 <? n) && (b ^ (Z.log2 n / Z.log2 b) =? n).

(** ** Store, nodes and slots *)

Abbreviation addr := nat.

(** What a slot of [Node.children] may hold: Python's [None], an element
    (an object without [children] or [copy] attributes), or a reference to
    a node. *)
Inductive slot (T : Type) : Type :=
| SNone : slot T
| SVal : T -> slot T
| SRef : addr -> slot T.
Arguments SNone {T}.
Arguments SVal {T} _.
Arguments SRef {T} _.

Abbreviation node T := (list (slot T)).
Abbreviation heap T := (list (list (slot T))).

Inductive error : Type :=
| AttributeError   (* attribute access on None or on an element *)
| ValueError       (* math.log of a negative number *)
| IndexError       (* list index out of range *)
| Dangling.        (* an address outside the store: never a Python state *)

(** A computation reads and writes the store and either returns or
    raises; the store survives a raise. *)
Definition M (T A : Type) : Type := heap T -> (error + A) * heap T.

Definition ret {T A} (a : A) : M T A := fun h => (inr a, h).
Definition raise {T A} (e : error) : M T A := fun h => (inl e, h).
Definition bind {T A B} (m : M T A) (k : A -> M T B) : M T B :=
  fun h => match m h with
           | (inr a, h') => k a h'
           | (inl e, h') => (inl e, h')
           end.

Notation "x <- m ;; k" := (bind m (fun x => k))
  (at level 100, m at next level, right associativity).
Notation "m ;;; k" := (bind m (fun _ => k))
  (at level 100, right associativity).

Section Model.
Context {T : Type}.

#[local] Abbreviation node := (list (slot T)).
#[local] Abbreviation heap := (list (list (slot T))).
#[local] Abbreviation slot := (slot T).

(** [Node.__init__]: pads the given children with [None] up to WIDTH. *)
Definition mk_node (children : list slot) : node :=
  children ++ replicate (Z.to_nat WIDTH - length children)%nat SNone.

(** Allocation of a node object: a fresh address at the end of the store. *)
Definition new_node (children : list slot) : M T addr :=
  fun h => (inr (length h), h ++ [mk_node children]).

(** [x.children] for an arbitrary object [x]. *)
Definition children (x : slot) : M T node :=
  fun h => match x with
           | SRef a => match h !! a with
                       | Some n => (inr n, h)
                       | None => (inl Dangling, h)
                       end
           | _ => (inl AttributeError, h)
           end.

(** [x.children[ix]] *)
Definition get_child (x : slot) (ix : nat) : M T slot :=
  cs <- children x ;;
  match cs !! ix with
  | Some s => ret s
  | None => raise IndexError
  end.

(** [x.children[ix] = s] *)
Definition set_child (x : slot) (ix : nat) (s : slot) : M T unit :=
  cs <- children x ;;
  if decide (ix < length cs)%nat then
    match x with
    | SRef a => fun h => (inr tt, <[a := <[ix := s]> cs]> h)
    | _ => raise AttributeError
    end
  else raise IndexError.

(** [Node.copy]: [x.copy()] for an arbitrary object [x]. *)
Definition copy_node (x : slot) : M T slot :=
  cs <- children x ;;
  a <- new_node cs ;;
  ret (SRef a).

(** ** Vector *)

Record Vector : Type := mkVector {
  root : slot;
  size : Z;
  mutation : bool;
  leaf : option slot
}.

(** [Vector.depth]: floor(log_WIDTH(size)), computed on integers; the
    rounding of the floating-point [math.log] is not modelled.  The
    logarithm of a negative size raises. *)
Definition depth (v : Vector) : M T Z :=
  if size v =? 0 then ret 0
  else if size v <? 0 then raise ValueError
  else ret (Z.log2 (size v) / Z.log2 WIDTH).

(** [Vector.mutate] *)
Definition mutate (v : Vector) : Vector :=
  mkVector (root v) (size v) (negb (mutation v)) (leaf v).

(** [range(depth, 0, -1)] *)
Definition levels (d : Z) : list Z :=
  map (fun i => d - Z.of_nat i) (seq 0 (Z.to_nat d)).

Definition slot_ix (key level : Z) : nat :=
  Z.to_nat (Z.land (Z.shiftr key (level * BITS)) MASK).

Fixpoint reduce_levels {S : Type} (key : Z) (reducer : S -> Z -> nat -> M T S)
    (init : S) (ls : list Z) : M T S :=
  match ls with
  | [] => ret init
  | level :: ls' =>
      init' <- reducer init level (slot_ix key level) ;;
      reduce_levels key reducer init' ls'
  end.

(** [Vector.reduce_node] *)
Definition reduce_node {S : Type} (v : Vector) (key : Z)
    (reducer : S -> Z -> nat -> M T S) (init : S) (dep : option Z) : M T S :=
  d <- match dep with Some d => ret d | None => depth v end ;;
  reduce_levels key reducer init (levels d).

Definition leaf_index (key : Z) : nat := Z.to_nat (Z.land key MASK).

(** [Vector.at]: returns the element and the vector with its leaf cache
    updated. *)
Definition at_reducer (nd : slot) (level : Z) (ix : nat) : M T slot :=
  get_child nd ix.

Definition at_ (v : Vector) (key : Z) : M T (slot * Vector) :=
  let leaf_ix := leaf_index key in
  lf <- reduce_node v key at_reducer (root v) None ;;
  val <- get_child lf leaf_ix ;;
  ret (val, mkVector (root v) (size v) (mutation v) (Some lf)).

(** [Vector.__create] applied to the fields of a vector under
    construction: [Vector([])] allocates a root that is then replaced. *)
Definition create (rt : slot) (sz : Z) : M T Vector :=
  _ <- new_node [] ;;
  ret (mkVector rt sz false None).

(** [Vector.append] *)
Definition append_reducer (mut : bool) (nd : slot) (level : Z) (ix : nat)
    : M T slot :=
  c <- get_child nd ix ;;
  match c with
  | SNone =>
      a <- new_node [] ;;
      set_child nd ix (SRef a) ;;;
      get_child nd ix
  | _ =>
      c' <- (if mut then ret c else copy_node c) ;;
      set_child nd ix c' ;;;
      get_child nd ix
  end.

Definition append (v : Vector) (val : slot) : M T Vector :=
  rt <- (if mutation v then ret (root v)
         else cs <- children (root v) ;; a <- new_node cs ;; ret (SRef a)) ;;
  let sz := size v + 1 in
  let key := size v in
  let leaf_ix := leaf_index key in
  rt <- (if is_power_of (size v) WIDTH
         then a <- new_node [rt] ;; ret (SRef a) else ret rt) ;;
  lf <- reduce_node v key (append_reducer (mutation v)) rt None ;;
  set_child lf leaf_ix val ;;;
  if mutation v then ret (mkVector rt sz (mutation v) (leaf v))
  else create rt sz.

(** [Vector.pop] *)
Definition pop_reducer (mut : bool) (leaf_ix : nat) (nodes : slot * slot)
    (level : Z) (ix : nat) : M T (slot * slot) :=
  let nd := nodes.2 in
  c <- get_child nd ix ;;
  c' <- (if mut then ret c else copy_node c) ;;
  set_child nd ix c' ;;;
  if (level =? 1) && (Nat.eqb leaf_ix 0) then
    set_child nd ix SNone ;;;
    ret (nd, SNone)
  else
    c'' <- get_child nd ix ;;
    ret (nd, c'').

Definition is_none (x : slot) : bool :=
  match x with SNone => true | _ => false end.

Definition pop (v : Vector) : M T Vector :=
  rt <- (if mutation v then ret (root v)
         else cs <- children (root v) ;; a <- new_node cs ;; ret (SRef a)) ;;
  let sz := size v - 1 in
  let key := size v - 1 in
  let leaf_ix := leaf_index key in
  nodes <- reduce_node v key (pop_reducer (mutation v) leaf_ix) (rt, rt) None ;;
  let prev_leaf := nodes.1 in
  let lf := nodes.2 in
  (if is_none lf then ret tt else set_child lf leaf_ix SNone) ;;;
  prev_leaf <- (if is_power_of (size v) WIDTH
                then get_child prev_leaf 0 else ret prev_leaf) ;;
  let rt := if size v =? WIDTH then prev_leaf else rt in
  if mutation v then ret (mkVector rt sz (mutation v) (leaf v))
  else create rt sz.

(** [Vector.copy] *)
Definition copy (v : Vector) : M T Vector :=
  out <- append v SNone ;;
  pop out.

(** [range(start, stop)] *)
Definition range (start stop : Z) : list Z :=
  map (fun i => start + Z.of_nat i) (seq 0 (Z.to_nat (stop - start))).

(** The loop [for val in vals: self.append(val)] on a transient vector,
    where [append] returns [self]. *)
Fixpoint append_all (v : Vector) (vals : list slot) : M T Vector :=
  match vals with
  | [] => ret v
  | val :: vals' => v' <- append v val ;; append_all v' vals'
  end.

(** [Vector.__init__] *)
Definition Vector_init (vals : list slot) : M T Vector :=
  a <- new_node [] ;;
  let self := mkVector (SRef a) 0 false None in
  let self := mutate self in
  self <- append_all self vals ;;
  ret (mutate self).

(** The loop [for i in ...: out_list.append(self.at(i))]. *)
Fixpoint read_all (v : Vector) (keys : list Z) : M T (list slot * Vector) :=
  match keys with
  | [] => ret ([], v)
  | i :: keys' =>
      r <- at_ v i ;;
      rs <- read_all r.2 keys' ;;
      ret (r.1 :: rs.1, rs.2)
  end.

(** [Vector.splice]; the second component is the receiver, whose leaf
    cache the reads have updated. *)
Definition splice (v : Vector) (start : Z) (vals : list slot)
    : M T (Vector * Vector) :=
  r1 <- read_all v (range 0 start) ;;
  r2 <- read_all r1.2 (range start (size v)) ;;
  out <- Vector_init (r1.1 ++ vals ++ r2.1) ;;
  ret (out, r2.2).

(** [Vector.slice] *)
Definition slice (v : Vector) (start stop : option Z) : M T (Vector * Vector) :=
  match start with
  | None => out <- copy v ;; ret (out, v)
  | Some start =>
      let stop := match stop with
                  | None => size v + 1
                  | Some e => if e <? 0 then e + size v else e
                  end in
      r <- read_all v (range start stop) ;;
      out <- Vector_init r.1 ;;
      ret (out, r.2)
  end.

(** [Vector.for_each]: the callback is a function of an accumulator (the
    state it closes over), the current value and the current index. *)
Fixpoint for_each_loop {S : Type} (func : S -> slot -> Z -> S) (acc : S)
    (v : Vector) (keys : list Z) : M T (S * Vector) :=
  match keys with
  | [] => ret (acc, v)
  | i :: keys' =>
      let leaf_ix := leaf_index i in
      match (if Nat.eqb leaf_ix 0 then None else leaf v) with
      | None =>
          r <- at_ v i ;;
          for_each_loop func (func acc r.1 i) r.2 keys'
      | Some lf =>
          curr_val <- get_child lf leaf_ix ;;
          for_each_loop func (func acc curr_val i) v keys'
      end
  end.

Definition for_each {S : Type} (func : S -> slot -> Z -> S) (acc : S)
    (v : Vector) (start : Z) (stop : option Z) : M T (S * Vector) :=
  let v := mkVector (root v) (size v) (mutation v) None in
  let stop := match stop with
              | None => size v
              | Some e => if e <? 0 then e + size v else e
              end in
  for_each_loop func acc v (range start stop).

(** [Vector.reduce]: [init = None] is the omitted initial value, and
    [inj] is the cast of the first element to the accumulator type. *)
Definition reduce {S : Type} (func : S -> slot -> S) (inj : slot -> S)
    (v : Vector) (init : option S) : M T (S * Vector) :=
  match init with
  | None =>
      r <- at_ v 0 ;;
      for_each (fun acc x _ => func acc x) (inj r.1) r.2 1 None
  | Some a =>
      for_each (fun acc x _ => func acc x) a v 0 None
  end.

(** [Vector.concat]; the argument vectors are objects distinct from the
    receiver, and the reads only touch their leaf caches. *)
Fixpoint concat_one (base sub : Vector) (keys : list Z) : M T (Vector * Vector) :=
  match keys with
  | [] => ret (base, sub)
  | j :: keys' =>
      r <- at_ sub j ;;
      base' <- append base r.1 ;;
      concat_one base' r.2 keys'
  end.

Fixpoint concat_all (base : Vector) (lists : list Vector) : M T Vector :=
  match lists with
  | [] => ret base
  | sub :: lists' =>
      r <- concat_one base sub (range 0 (size sub)) ;;
      concat_all r.1 lists'
  end.

Definition set_mutation (v : Vector) (m : bool) : Vector :=
  mkVector (root v) (size v) m (leaf v).

Definition concat (v : Vector) (args : list Vector) : M T Vector :=
  base <- (if mutation v then ret v else copy v) ;;
  let m := mutation v in
  base <- concat_all (set_mutation base true) args ;;
  ret (set_mutation base m).

End Model.

(** ** The concrete scenarios of the module *)

Definition empty_heap : heap Z := [].
Definition of_list (l : list Z) : list (slot Z) := map SVal l.

(** ** Predicates of the specification *)

Section Predicates.
Context {T : Type}.
Implicit Types (h : heap T) (s x : slot T) (l : list (slot T)) (cs : node T)
  (pos : gmap addr (Z * Z)) (v w : @Vector T).

(** [wp m h Q]: running [m] in [h] ends (returning or raising) in an
    outcome and a store that satisfy [Q]. *)
Definition wp {A} (m : M T A) (h : heap T)
    (Q : error + A -> heap T -> Prop) : Prop :=
  Q (m h).1 (m h).2.

(** [h] still holds every node of [h0] at its address, unchanged. *)
Definition frame (h0 h : heap T) : Prop := h0 `prefix_of` h.

(** A reference to a node allocated after the store was [h0]. *)
Definition fresh (h0 : heap T) (x : slot T) : Prop :=
  exists a, x = SRef a /\ (length h0 <= a)%nat.

(** The length of a list as a size. *)
Definition len l : Z := Z.of_nat (length l).

(** The representation invariant of a vector built by appends labels
    every node of the trie with its position [(k, i)]: its height [k]
    above the leaves and its index [i] among the nodes of that height, so
    that it covers the elements from [i * 4^(k+1)] on and its child [j] is
    the node [(k - 1, 4 * i + j)].  Labels are injective, which is what
    makes the trie a tree: a write to one labelled node leaves the others
    alone. *)

(** What slot [s], the child at position [p] of a node of height [k],
    must hold.  A missing subtree is allowed where no element lives yet;
    during the descent of [append] the subtrees on the path of the new
    index, at heights [<= lev], may still be missing. *)
Definition slot_ok pos l (lev k p : Z) s : Prop :=
  if decide (k = 0) then s = default SNone (l !! Z.to_nat p)
  else (s = SNone /\ (len l < p * 4 ^ k \/ (len l = p * 4 ^ k /\ k <= lev)))
       \/ (exists b, s = SRef b /\ pos !! b = Some (k - 1, p)).

(** [Inv lo h pos rt K l lev]: in the store [h] the nodes labelled by
    [pos] form the trie of height [K] and root [rt] that holds [l]; they
    all live at or after address [lo]. *)
Record Inv (lo : nat) h pos (rt : addr) (K : Z) l (lev : Z) : Prop := {
  inv_root : pos !! rt = Some (K, 0);
  inv_inj : forall a b q, pos !! a = Some q -> pos !! b = Some q -> a = b;
  inv_lo : forall a q, pos !! a = Some q -> (lo <= a)%nat;
  inv_node : forall a k i, pos !! a = Some (k, i) ->
    0 <= k <= K /\ 0 <= i /\ (k = K -> i = 0) /\
    exists cs, h !! a = Some cs /\ length cs = 4%nat /\
      forall (j : nat) s, cs !! j = Some s ->
        slot_ok pos l lev k (4 * i + Z.of_nat j) s;
  inv_parent : forall b k i, pos !! b = Some (k, i) -> k < K ->
    exists a cs, pos !! a = Some (k + 1, i / 4) /\ h !! a = Some cs /\
      cs !! Z.to_nat (i mod 4) = Some (SRef b)
}.

(** The heights a trie built by appends has for its size. *)
Definition hgt (K n : Z) : Prop :=
  0 <= K /\ n <= 4 ^ (K + 1) /\ (K = 0 \/ 4 ^ K < n).

(** The two stores hold the same nodes below address [lo]. *)
Definition agree (lo : nat) h h' : Prop :=
  (forall a, (a < lo)%nat -> h' !! a = h !! a) /\ (length h <= length h')%nat.

(** [v] is a trie of height [K] holding the list [l], all of whose nodes
    were allocated at or after address [lo]. *)
Definition Repr (lo : nat) h v (K : Z) l : Prop :=
  exists pos rt, Inv lo h pos rt K l K /\ root v = SRef rt /\
                 size v = len l /\ (lo <= length h)%nat.

(** An element proper: [None] or a value, not a node. *)
Definition is_elem s : Prop :=
  match s with SRef _ => False | _ => True end.

(** The outcome of [at] without the receiver. *)
Definition at_result v (key : Z) h : error + slot T :=
  match (at_ v key h).1 with
  | inr r => inr r.1
  | inl e => inl e
  end.

(** [n] appends to the empty vector, in transient mode ([mut = true],
    as the constructor does) or in persistent mode. *)
Definition build (mut : bool) (vals : list (slot T)) : M T Vector :=
  v <- Vector_init [] ;;
  append_all (if mut then mutate v else v) vals.

(** An element as a slot: [None] or a value. *)
Definition elem (o : option T) : slot T :=
  match o with Some x => SVal x | None => SNone end.

(** Two vector objects with the same trie: they differ in the leaf cache
    at most. *)
Definition same_trie v w : Prop :=
  root w = root v /\ size w = size v /\ mutation w = mutation v.

(** [copied h0 h' cs cs' key ls]: the node [cs'] of the store [h'] is a
    copy of the node [cs] made on the way to [key] through the levels
    [ls].  Every slot of [cs] off the path is in [cs'] unchanged, with the
    identical reference; the slot on the path refers to a node allocated
    after [h0], which is in turn such a copy of the child it replaces. *)
Fixpoint copied (h0 h' : heap T) (cs cs' : node T) (key : Z) (ls : list Z)
    : Prop :=
  match ls with
  | [] => forall j s, j <> leaf_index key -> cs !! j = Some s -> cs' !! j = Some s
  | level :: ls' =>
      (forall j s, j <> slot_ix key level -> cs !! j = Some s -> cs' !! j = Some s) /\
      exists b', cs' !! slot_ix key level = Some (SRef b') /\
                 (length h0 <= b')%nat /\
                 forall a ca, cs !! slot_ix key level = Some (SRef a) ->
                              h0 !! a = Some ca ->
                   exists ca', h' !! b' = Some ca' /\ copied h0 h' ca ca' key ls'
  end.

(** How a labelling and its store change while the index [n] is
    appended or popped: the store grows; a labelled node keeps its label
    or is new, and a new label is not to the right of [n]; and a node
    that existed is written only if it is labelled on the path of [n]. *)
Definition evolves (n : Z) pos h pos' h' : Prop :=
  (length h <= length h')%nat /\
  (forall b k i, pos' !! b = Some (k, i) ->
     pos !! b = Some (k, i) \/ ((length h <= b)%nat /\ i * 4 ^ (k + 1) <= n)) /\
  (forall a, (a < length h)%nat ->
     h' !! a = h !! a \/ exists k, pos !! a = Some (k, n / 4 ^ (k + 1))).

(** No labelled node lies to the right of the index [n]. *)
Definition no_right pos (n : Z) : Prop :=
  forall a k i, pos !! a = Some (k, i) -> i * 4 ^ (k + 1) <= n.

(** The labelled nodes on the path of the index [n] were allocated at
    or after address [lo]. *)
Definition path_fresh (lo : nat) pos (n : Z) : Prop :=
  forall a k, pos !! a = Some (k, n / 4 ^ (k + 1)) -> (lo <= a)%nat.

(** Every node of the store has exactly WIDTH slots. *)
Definition full_nodes h : Prop :=
  Forall (fun cs => length cs = Z.to_nat WIDTH) h.

(** An outcome that is not an [IndexError], in a store of full nodes;
    a returned value satisfies [P]. *)
Definition bounded {A} (P : A -> Prop) : error + A -> heap T -> Prop :=
  fun r h' => full_nodes h' /\
              match r with inr a => P a | inl e => e <> IndexError end.

(** Running [m] in [h] keeps the nodes full and does not raise
    [IndexError]. *)
Definition in_bounds {A} (m : M T A) h : Prop :=
  full_nodes (m h).2 /\ (m h).1 <> inl IndexError.

End Predicates.

(** Running a computation in the empty store, for its outcome. *)
Definition run {A} (m : M Z A) : error + A := (m empty_heap).1.

Definition sum_slot (acc : Z) (s : slot Z) : Z :=
  match s with SVal y => acc + y | _ => acc end.

Definition slot_value (s : slot Z) : Z :=
  match s with SVal y => y | _ => 0 end.

(** The store and the vector of [Vector([0, 1, 2, 3, 4, 5])]. *)
Definition store6 : heap Z :=
  Eval vm_compute in (Vector_init (of_list [0; 1; 2; 3; 4; 5]) empty_heap).2.

Definition vector6 : @Vector Z :=
  {| root := SRef 1%nat; size := 6; mutation := false; leaf := None |}.

(** ** Reasoning about store computations *)

Section Logic.
Context {T : Type}.
Implicit Types (h : heap T) (x s : slot T) (n : node T).

Lemma wp_ret {A} (a : A) h Q : Q (inr a) h -> wp (ret a) h Q.
Proof. done. Qed.

Lemma wp_raise {A} e h (Q : error + A -> heap T -> Prop) :
  Q (inl e) h -> wp (raise e) h Q.
Proof. done. Qed.

Lemma wp_bind {A B} (m : M T A) (k : A -> M T B) h Q :
  wp m h (fun r h' => match r with
                      | inr a => wp (k a) h' Q
                      | inl e => Q (inl e) h'
                      end) ->
  wp (bind m k) h Q.
Proof. unfold wp, bind. by destruct (m h) as [[e|a] h']. Qed.

Lemma wp_mono {A} (m : M T A) h (Q Q' : error + A -> heap T -> Prop) :
  wp m h Q -> (forall r h', Q r h' -> Q' r h') -> wp m h Q'.
Proof. unfold wp. auto. Qed.

Lemma wp_if {A} (b : bool) (m1 m2 : M T A) h Q :
  (b = true -> wp m1 h Q) -> (b = false -> wp m2 h Q) ->
  wp (if b then m1 else m2) h Q.
Proof. destruct b; auto. Qed.

Lemma wp_children x h (Q : error + node T -> heap T -> Prop) :
  (forall a n, x = SRef a -> h !! a = Some n -> Q (inr n) h) ->
  (forall e, Q (inl e) h) ->
  wp (children x) h Q.
Proof.
  intros Hok Herr. unfold wp, children.
  destruct x as [| |a]; simpl; auto.
  destruct (h !! a) eqn:E; simpl; eauto.
Qed.

Lemma wp_get_child x ix h (Q : error + slot T -> heap T -> Prop) :
  (forall a n s, x = SRef a -> h !! a = Some n -> n !! ix = Some s ->
                 Q (inr s) h) ->
  (forall e, Q (inl e) h) ->
  wp (get_child x ix) h Q.
Proof.
  intros Hok Herr. apply wp_bind, wp_children; [|done].
  intros a n -> Hn. destruct (n !! ix) eqn:E; [apply wp_ret|apply wp_raise]; eauto.
Qed.

Lemma wp_set_child x ix s h (Q : error + unit -> heap T -> Prop) :
  (forall a n, x = SRef a -> h !! a = Some n -> (ix < length n)%nat ->
               Q (inr tt) (<[a := <[ix := s]> n]> h)) ->
  (forall e, Q (inl e) h) ->
  wp (set_child x ix s) h Q.
Proof.
  intros Hok Herr. apply wp_bind, wp_children; [|done].
  intros a n -> Hn. destruct (decide _); [|by apply wp_raise].
  unfold wp; simpl. eauto.
Qed.

Lemma wp_new_node cs h (Q : error + addr -> heap T -> Prop) :
  Q (inr (length h)) (h ++ [mk_node cs]) -> wp (new_node cs) h Q.
Proof. done. Qed.

Lemma wp_copy_node x h (Q : error + slot T -> heap T -> Prop) :
  (forall a n, x = SRef a -> h !! a = Some n ->
               Q (inr (SRef (length h))) (h ++ [mk_node n])) ->
  (forall e, Q (inl e) h) ->
  wp (copy_node x) h Q.
Proof.
  intros Hok Herr. apply wp_bind, wp_children; [|done].
  intros a n -> Hn. apply wp_bind, wp_new_node, wp_ret. eauto.
Qed.

Lemma wp_depth (v : @Vector T) h (Q : error + Z -> heap T -> Prop) :
  (0 <= size v -> Q (inr (if size v =? 0 then 0
                          else Z.log2 (size v) / Z.log2 WIDTH)) h) ->
  (size v < 0 -> Q (inl ValueError) h) ->
  wp (depth v) h Q.
Proof.
  intros Hok Herr. unfold depth.
  destruct (Z.eqb_spec (size v) 0) as [E|E]; [apply wp_ret, Hok; lia|].
  destruct (Z.ltb_spec (size v) 0); [apply wp_raise|apply wp_ret]; auto with lia.
Qed.

(** Invariant rule for the level loop of [reduce_node]. *)
Lemma wp_reduce_levels {S} (I : S -> heap T -> Prop) (E : heap T -> Prop)
    key (reducer : S -> Z -> nat -> M T S) ls :
  (forall st level ix h, I st h ->
     wp (reducer st level ix) h
        (fun r h' => match r with inr st' => I st' h' | inl _ => E h' end)) ->
  forall init h, I init h ->
  wp (reduce_levels key reducer init ls) h
     (fun r h' => match r with inr st' => I st' h' | inl _ => E h' end).
Proof.
  intros Hstep. induction ls as [|level ls IH]; intros init h HI; simpl.
  - by apply wp_ret.
  - apply wp_bind. eapply wp_mono; [by apply Hstep|].
    intros [e|st'] h' H; [done|]. by apply IH.
Qed.

Lemma wp_reduce_node {S} (I : S -> heap T -> Prop) (E : heap T -> Prop)
    (v : @Vector T) key (reducer : S -> Z -> nat -> M T S) :
  (forall st level ix h, I st h ->
     wp (reducer st level ix) h
        (fun r h' => match r with inr st' => I st' h' | inl _ => E h' end)) ->
  forall init h, I init h -> E h ->
  wp (reduce_node v key reducer init None) h
     (fun r h' => match r with inr st' => I st' h' | inl _ => E h' end).
Proof.
  intros Hstep init h HI HE. apply wp_bind, wp_depth; [|done].
  intros _. by apply wp_reduce_levels.
Qed.

End Logic.

(** ** Frame: what a persistent operation leaves alone *)

Section Frame.
Context {T : Type}.
Implicit Types (h : heap T) (x s : slot T) (n : node T).

Lemma frame_refl h : frame h h.
Proof. done. Qed.

Lemma frame_alloc h0 h n : frame h0 h -> frame h0 (h ++ [n]).
Proof. intros. by apply prefix_app_r. Qed.

Lemma frame_write h0 h a n :
  frame h0 h -> (length h0 <= a)%nat -> frame h0 (<[a := n]> h).
Proof.
  intros [k ->] Ha. exists (<[(a - length h0)%nat := n]> k).
  by rewrite insert_app_r_alt.
Qed.

Lemma frame_length h0 h : frame h0 h -> (length h0 <= length h)%nat.
Proof. apply prefix_length. Qed.

Lemma frame_lookup h0 h a n : frame h0 h -> h0 !! a = Some n -> h !! a = Some n.
Proof. intros. by eapply prefix_lookup_Some. Qed.

Lemma frame_trans h0 h1 h2 : frame h0 h1 -> frame h1 h2 -> frame h0 h2.
Proof. unfold frame. by etrans. Qed.

Lemma fresh_alloc h0 h : frame h0 h -> fresh h0 (SRef (length h)).
Proof. intros H%frame_length. eexists; eauto. Qed.

End Frame.

Section PersistentFrame.
Context {T : Type}.
Implicit Types (h : heap T) (x s : slot T) (n : node T) (v w : @Vector T).

Lemma wp_set_get x ix s h (Q : error + slot T -> heap T -> Prop) :
  (forall a n, x = SRef a -> h !! a = Some n -> (ix < length n)%nat ->
               Q (inr s) (<[a := <[ix := s]> n]> h)) ->
  (forall e h', h' = h \/ (exists a n, x = SRef a /\ h' = <[a := n]> h) ->
                Q (inl e) h') ->
  wp (set_child x ix s ;;; get_child x ix) h Q.
Proof.
  intros Hok Herr. apply wp_bind, wp_set_child; [|by eauto].
  intros a n -> Hn Hix.
  assert (Ha : (a < length h)%nat) by by eapply lookup_lt_Some.
  unfold wp, get_child, bind, children; simpl.
  rewrite list_lookup_insert_eq by done. simpl.
  rewrite list_lookup_insert_eq by done. simpl. by apply Hok.
Qed.

(** The root that [append] and [pop] start from in persistent mode. *)
Lemma wp_root_copy v h (Q : error + slot T -> heap T -> Prop) :
  (forall a n, root v = SRef a -> h !! a = Some n ->
               Q (inr (SRef (length h))) (h ++ [mk_node n])) ->
  (forall e, Q (inl e) h) ->
  wp (cs <- children (root v) ;; a <- new_node cs ;; ret (SRef a)) h Q.
Proof. apply wp_copy_node. Qed.

Lemma append_reducer_frame h0 nd level ix h :
  frame h0 h /\ fresh h0 nd ->
  wp (append_reducer false nd level ix) h
     (fun r h' => match r with
                  | inr nd' => frame h0 h' /\ fresh h0 nd'
                  | inl _ => frame h0 h'
                  end).
Proof.
  intros [Hf (a & -> & Ha)]. unfold append_reducer.
  apply wp_bind, wp_get_child; [|done].
  intros ? n c [= <-] Hn Hc.
  assert (forall c', c' = c -> c <> SNone ->
    wp (c'0 <- copy_node c';; set_child (SRef a) ix c'0;;; get_child (SRef a) ix) h
      (fun r h' => match r with
                   | inr nd' => frame h0 h' /\ fresh h0 nd'
                   | inl _ => frame h0 h'
                   end)) as Hcopy.
  { intros c' -> _. apply wp_bind, wp_copy_node; [|done].
    intros b m -> Hm. apply wp_set_get.
    - intros ? ? [= <-] _ _. split.
      + by apply frame_write; [apply frame_alloc|].
      + by apply fresh_alloc.
    - intros e h' [->|(? & ? & [= <-] & ->)].
      + by apply frame_alloc.
      + by apply frame_write; [apply frame_alloc|]. }
  destruct c as [|t|b]; [|by apply Hcopy..].
  apply wp_bind, wp_new_node, wp_set_get.
  - intros ? ? [= <-] _ _. split.
    + by apply frame_write; [apply frame_alloc|].
    + by apply fresh_alloc.
  - intros e h' [->|(? & ? & [= <-] & ->)].
    + by apply frame_alloc.
    + by apply frame_write; [apply frame_alloc|].
Qed.

Lemma wp_create rt sz h (Q : error + @Vector T -> heap T -> Prop) :
  Q (inr (mkVector rt sz false None)) (h ++ [mk_node []]) ->
  wp (create rt sz) h Q.
Proof. done. Qed.

(** In persistent mode [append] writes fresh nodes only, whether it
    returns or raises, and the vector it returns has a fresh root. *)
Lemma append_frame v val h :
  mutation v = false ->
  wp (append v val) h
     (fun r h' => frame h h' /\
        match r with
        | inr w => fresh h (root w) /\ size w = size v + 1 /\ mutation w = false
        | inl _ => True
        end).
Proof.
  intros Hmut. unfold append. rewrite Hmut.
  apply wp_bind, wp_root_copy; [|done].
  intros a n Hr Hn. apply wp_bind.
  set (h1 := h ++ [mk_node n]).
  assert (Hf1 : frame h h1) by by apply frame_alloc.
  assert (forall rt h2, frame h h2 -> fresh h rt ->
    wp (lf <- reduce_node v (size v) (append_reducer false) rt None;;
        set_child lf (leaf_index (size v)) val;;; create rt (size v + 1)) h2
      (fun r h' => frame h h' /\
        match r with
        | inr w => fresh h (root w) /\ size w = size v + 1 /\ mutation w = false
        | inl _ => True
        end)) as Hrest.
  { intros rt h2 Hf2 Hrt. apply wp_bind.
    eapply wp_mono.
    { apply (wp_reduce_node (fun st h' => frame h h' /\ fresh h st)
                            (fun h' => frame h h')); [|done..].
      intros. by apply append_reducer_frame. }
    intros [e|lf] h3; [done|]. intros [Hf3 (b & -> & Hb)].
    apply wp_bind, wp_set_child; [|done].
    intros ? m [= <-] Hm Hlt. apply wp_create. split; [|done].
    by apply frame_alloc, frame_write. }
  apply wp_if; intros _.
  - apply wp_bind, wp_new_node, wp_ret. apply Hrest.
    + by apply frame_alloc.
    + by apply fresh_alloc.
  - apply wp_ret, Hrest; [done|]. by apply fresh_alloc.
Qed.

Lemma pop_reducer_frame h0 leaf_ix nodes level ix h :
  frame h0 h /\ (nodes.2 = SNone \/ fresh h0 nodes.2) ->
  wp (pop_reducer false leaf_ix nodes level ix) h
     (fun r h' => match r with
                  | inr nodes' =>
                      frame h0 h' /\ (nodes'.2 = SNone \/ fresh h0 nodes'.2)
                  | inl _ => frame h0 h'
                  end).
Proof.
  destruct nodes as [prev nd]; simpl. intros [Hf Hnd]. unfold pop_reducer; simpl.
  apply wp_bind, wp_get_child; [|done].
  intros a n c -> Hn Hc. destruct Hnd as [?|(? & [= <-] & Ha)]; [done|].
  apply wp_bind, wp_copy_node; [|done].
  intros b m -> Hm. apply wp_bind, wp_set_child; [|by intros; apply frame_alloc].
  intros ? n' [= <-] Hn' Hlt.
  set (h1 := <[a:=<[ix:=SRef (length h)]> n']> (h ++ [mk_node m])).
  assert (Hf1 : frame h0 h1) by by apply frame_write; [apply frame_alloc|].
  destruct (_ && _).
  - apply wp_bind, wp_set_child; [|done].
    intros ? n'' [= <-] _ _. apply wp_ret. split; [|by left].
    by apply frame_write.
  - apply wp_bind, wp_get_child; [|done].
    intros ? n'' c'' [= <-] Hn'' Hc''. apply wp_ret. split; [done|right].
    unfold h1 in Hn''. rewrite list_lookup_insert_eq in Hn''.
    + injection Hn'' as <-. rewrite list_lookup_insert_eq in Hc'' by done.
      injection Hc'' as <-. by apply fresh_alloc.
    + rewrite length_app. apply lookup_lt_Some in Hn. lia.
Qed.

(** In persistent mode [pop] writes fresh nodes only, whether it returns
    or raises. *)
Lemma pop_frame v h :
  mutation v = false ->
  wp (pop v) h
     (fun r h' => frame h h' /\
        match r with
        | inr w => size w = size v - 1 /\ mutation w = false
        | inl _ => True
        end).
Proof.
  intros Hmut. unfold pop. rewrite Hmut.
  apply wp_bind, wp_root_copy; [|done].
  intros a n Hr Hn. apply wp_bind.
  eapply wp_mono.
  { apply (wp_reduce_node
             (fun st h' => frame h h' /\ (st.2 = SNone \/ fresh h st.2))
             (fun h' => frame h h')).
    - intros. by apply pop_reducer_frame.
    - split; [by apply frame_alloc|right; by apply fresh_alloc].
    - by apply frame_alloc. }
  intros [e|[prev lf]] h1; [done|]. simpl. intros [Hf1 Hlf].
  apply wp_bind. eapply (wp_mono _ _ (fun r h' => frame h h')).
  { destruct Hlf as [->|(b & -> & Hb)]; simpl; [by apply wp_ret|].
    apply wp_set_child; [|done]. intros ? m [= <-] _ _. by apply frame_write. }
  intros [e|[]] h2 Hf2; [done|].
  apply wp_bind. eapply (wp_mono _ _ (fun r h' => frame h h')).
  { apply wp_if; intros _; [|by apply wp_ret].
    by apply wp_get_child. }
  intros [e|prev'] h3 Hf3; [done|].
  apply wp_create. split; [|done]. by apply frame_alloc.
Qed.

(** [copy] is [append] then [pop], both in persistent mode. *)
Lemma copy_frame v h :
  mutation v = false ->
  wp (copy v) h
     (fun r h' => frame h h' /\
        match r with
        | inr w => size w = size v /\ mutation w = false
        | inl _ => True
        end).
Proof.
  intros Hmut. unfold copy. apply wp_bind.
  eapply wp_mono; [by apply (append_frame v SNone)|].
  intros [e|out] h1; [tauto|]. intros (Hf1 & _ & Hsz & Hm).
  eapply wp_mono; [by apply pop_frame|].
  intros r h2 [Hf2 Hr]. split; [by eapply frame_trans|].
  destruct r as [e|w]; [done|]. destruct Hr as [-> ->]. auto with lia.
Qed.

End PersistentFrame.

(** ** Equations for running the primitives *)

Section Run.
Context {T : Type}.
Implicit Types (h : heap T) (x s : slot T) (n : node T) (v w : @Vector T).

Lemma bind_inr {A B} (m : M T A) (k : A -> M T B) h a h' :
  m h = (inr a, h') -> bind m k h = k a h'.
Proof. unfold bind. by intros ->. Qed.

Lemma bind_inl {A B} (m : M T A) (k : A -> M T B) h e h' :
  m h = (inl e, h') -> bind m k h = (inl e, h').
Proof. unfold bind. by intros ->. Qed.

Lemma children_eq h a n :
  h !! a = Some n -> children (SRef a) h = (inr n, h).
Proof. unfold children. by intros ->. Qed.

Lemma get_child_eq h a n ix s :
  h !! a = Some n -> n !! ix = Some s -> get_child (SRef a) ix h = (inr s, h).
Proof.
  intros Hn Hs. unfold get_child. erewrite bind_inr by by apply children_eq.
  by rewrite Hs.
Qed.

Lemma set_child_eq h a n ix s :
  h !! a = Some n -> (ix < length n)%nat ->
  set_child (SRef a) ix s h = (inr tt, <[a := <[ix := s]> n]> h).
Proof.
  intros Hn Hix. unfold set_child. erewrite bind_inr by by apply children_eq.
  by rewrite decide_True.
Qed.

Lemma copy_node_eq h a n :
  h !! a = Some n ->
  copy_node (SRef a) h = (inr (SRef (length h)), h ++ [mk_node n]).
Proof.
  intros Hn. unfold copy_node. by erewrite bind_inr by by apply children_eq.
Qed.

Lemma mk_node_length cs : (length cs <= 4)%nat -> length (@mk_node T cs) = 4%nat.
Proof.
  intros. unfold mk_node. rewrite length_app, length_replicate.
  change (Z.to_nat WIDTH) with 4%nat. lia.
Qed.

Lemma mk_node_full cs : (4 <= length cs)%nat -> @mk_node T cs = cs.
Proof.
  intros. unfold mk_node. change (Z.to_nat WIDTH) with 4%nat.
  replace (4 - length cs)%nat with 0%nat by lia. by rewrite app_nil_r.
Qed.

End Run.

(** ** Arithmetic of the index decomposition *)

Section Digits.

Lemma WIDTH_eq : WIDTH = 4.
Proof. reflexivity. Qed.

Lemma pow4_pos k : 0 <= k -> 0 < 4 ^ k.
Proof. intros. by apply Z.pow_pos_nonneg. Qed.

Lemma pow4_succ k : 0 <= k -> 4 ^ (k + 1) = 4 * 4 ^ k.
Proof. intros. rewrite Z.pow_add_r by lia. lia. Qed.

Lemma shiftr_level key level :
  0 <= level -> Z.shiftr key (level * BITS) = key / 4 ^ level.
Proof.
  intros. rewrite Z.shiftr_div_pow2 by (unfold BITS; lia).
  unfold BITS. by rewrite (Z.mul_comm level 2), Z.pow_mul_r by lia.
Qed.

Lemma land_mask x : Z.land x MASK = x mod 4.
Proof. change MASK with (Z.ones 2). by rewrite Z.land_ones. Qed.

Lemma slot_ix_eq key level :
  0 <= level -> slot_ix key level = Z.to_nat ((key / 4 ^ level) mod 4).
Proof. intros. unfold slot_ix. by rewrite shiftr_level, land_mask. Qed.

Lemma leaf_index_eq key : leaf_index key = Z.to_nat (key mod 4).
Proof. unfold leaf_index. by rewrite land_mask. Qed.

Lemma digit_step key level :
  0 <= level ->
  4 * (key / 4 ^ (level + 1)) + (key / 4 ^ level) mod 4 = key / 4 ^ level.
Proof.
  intros. rewrite pow4_succ by done.
  rewrite (Z.mul_comm 4 (4 ^ level)), <- Z.div_div by (try apply pow4_pos; lia).
  symmetry. apply Z.div_mod. lia.
Qed.

Lemma levels_0 : levels 0 = [].
Proof. reflexivity. Qed.

Lemma levels_succ d : 0 <= d -> levels (d + 1) = (d + 1) :: levels d.
Proof.
  intros. unfold levels. rewrite Z2Nat.inj_add by lia.
  change (Z.to_nat 1) with 1%nat. rewrite Nat.add_1_r. simpl.
  f_equal; [lia|]. rewrite <- seq_shift, map_map.
  apply map_ext. intros. lia.
Qed.

Lemma levels_nonpos d : d <= 0 -> levels d = [].
Proof. intros. unfold levels. by replace (Z.to_nat d) with 0%nat by lia. Qed.

(** floor(log_4 n) from the bounds it is characterised by. *)
Lemma log4_unique n k :
  0 <= k -> 4 ^ k <= n < 4 ^ (k + 1) -> Z.log2 n / Z.log2 WIDTH = k.
Proof.
  intros Hk [Hlo Hhi]. change (Z.log2 WIDTH) with 2.
  assert (0 < n) by (pose proof (pow4_pos k Hk); lia).
  assert (E : forall j, 0 <= j -> 4 ^ j = 2 ^ (2 * j)).
  { intros. by rewrite Z.pow_mul_r by lia. }
  rewrite E in Hlo, Hhi by lia.
  assert (2 * k <= Z.log2 n).
  { rewrite <- (Z.log2_pow2 (2 * k)) by lia. by apply Z.log2_le_mono. }
  assert (Z.log2 n < 2 * (k + 1)) by by apply Z.log2_lt_pow2.
  symmetry. apply (Z.div_unique _ _ _ (Z.log2 n - 2 * k)); lia.
Qed.

Lemma is_power_of_true n :
  is_power_of n WIDTH = true <->
  exists k, 1 <= k /\ n = 4 ^ k.
Proof.
  unfold is_power_of. rewrite andb_true_iff, Z.ltb_lt, Z.eqb_eq. split.
  - intros [Hn E]. exists (Z.log2 n / Z.log2 WIDTH). split; [|symmetry; exact E].
    change (Z.log2 WIDTH) with 2 in *.
    destruct (Z.eq_dec (Z.log2 n / 2) 0) as [E0|]; [rewrite E0 in E; simpl in E; lia|].
    pose proof (Z.log2_nonneg n). pose proof (Z.div_pos (Z.log2 n) 2). lia.
  - intros (k & Hk & ->).
    assert (4 <= 4 ^ k).
    { replace k with ((k - 1) + 1) by lia. rewrite pow4_succ by lia.
      pose proof (pow4_pos (k - 1)). lia. }
    split; [lia|]. rewrite (log4_unique _ k); [done|lia|].
    split; [lia|]. rewrite pow4_succ by lia. lia.
Qed.

Lemma is_power_of_false n :
  is_power_of n WIDTH = false <-> forall k, 1 <= k -> n <> 4 ^ k.
Proof.
  rewrite <- not_true_iff_false, is_power_of_true. split.
  - intros H k Hk ->. apply H. eauto.
  - intros H (k & Hk & ->). by eapply H.
Qed.

End Digits.

(** ** The representation invariant of a vector built by appends *)

Section Invariant.
Context {T : Type}.
Implicit Types (h : heap T) (s : slot T) (l : list (slot T))
  (pos : gmap addr (Z * Z)).

Lemma slot_ok_mono pos l lev lev' k p s :
  lev <= lev' -> slot_ok pos l lev k p s -> slot_ok pos l lev' k p s.
Proof.
  unfold slot_ok. intros Hle. destruct (decide _); [done|].
  intros [[-> [?|[? ?]]]|?]; [left..|right]; auto with lia.
Qed.

Lemma Inv_mono lo h pos rt K l lev lev' :
  lev <= lev' -> Inv lo h pos rt K l lev -> Inv lo h pos rt K l lev'.
Proof.
  intros Hle [H1 H2 H3 H4 H5]. split; try done.
  intros a k i Ha. destruct (H4 a k i Ha) as (? & ? & ? & cs & ? & ? & Hs).
  do 3 (split; [done|]). exists cs. do 2 (split; [done|]).
  intros. eapply slot_ok_mono; eauto.
Qed.

Lemma agree_refl lo h : agree lo h h.
Proof. done. Qed.

Lemma agree_trans lo h1 h2 h3 : agree lo h1 h2 -> agree lo h2 h3 -> agree lo h1 h3.
Proof.
  intros [E1 ?] [E2 ?]. split; [|lia]. intros a Ha. by rewrite E2, E1.
Qed.

Lemma agree_alloc lo h (n : node T) : (lo <= length h)%nat -> agree lo h (h ++ [n]).
Proof.
  split; [|rewrite length_app; lia].
  intros a Ha. apply lookup_app_l. lia.
Qed.

Lemma agree_write lo h a (n : node T) : (lo <= a)%nat -> agree lo h (<[a := n]> h).
Proof.
  split; [|by rewrite length_insert].
  intros b Hb. apply list_lookup_insert_ne. lia.
Qed.

Lemma agree_frame h0 h : agree (length h0) h0 h -> frame h0 h.
Proof.
  intros [E Hlen]. exists (drop (length h0) h).
  rewrite <- (take_drop (length h0) h) at 1. f_equal.
  apply list_eq. intros a. destruct (decide (a < length h0)%nat).
  - by rewrite lookup_take_lt, E.
  - rewrite lookup_take_ge, lookup_ge_None_2; [done|lia..].
Qed.

End Invariant.

Section Install.
Context {T : Type}.
Implicit Types (h : heap T) (s : slot T) (l : list (slot T))
  (pos : gmap addr (Z * Z)).

Lemma div_bounds n k : 0 <= k -> n / 4 ^ k * 4 ^ k <= n < (n / 4 ^ k + 1) * 4 ^ k.
Proof.
  intros. pose proof (pow4_pos k ltac:(done)).
  pose proof (Z.mul_div_le n (4 ^ k) ltac:(lia)).
  pose proof (Z.mul_succ_div_gt n (4 ^ k) ltac:(lia)). lia.
Qed.

Lemma div_pow_eq n k p : 0 <= k -> n = p * 4 ^ k -> n / 4 ^ k = p.
Proof.
  intros ? ->. pose proof (pow4_pos k ltac:(done)). by rewrite Z.div_mul by lia.
Qed.

Lemma Inv_lt lo h pos rt K l lev a q :
  Inv lo h pos rt K l lev -> pos !! a = Some q -> (a < length h)%nat.
Proof.
  intros HI Ha. destruct q as [k i].
  destruct (inv_node _ _ _ _ _ _ _ HI a k i Ha) as (_ & _ & _ & cs & Hcs & _).
  by eapply lookup_lt_Some.
Qed.

Lemma Inv_child lo h pos rt K l lev a k i cs j :
  Inv lo h pos rt K l lev -> pos !! a = Some (k, i) -> h !! a = Some cs ->
  (j < 4)%nat ->
  exists s, cs !! j = Some s /\ slot_ok pos l lev k (4 * i + Z.of_nat j) s.
Proof.
  intros HI Ha Hcs Hj.
  destruct (inv_node _ _ _ _ _ _ _ HI a k i Ha) as (_ & _ & _ & cs' & Hcs' & Hlen & Hs).
  assert (cs' = cs) as -> by congruence.
  destruct (lookup_lt_is_Some_2 cs j) as [s Hs']; [lia|]. eauto.
Qed.

End Install.
Section Install2.
Context {T : Type}.
Implicit Types (h : heap T) (s : slot T) (l : list (slot T))
  (pos : gmap addr (Z * Z)).

Lemma slot_ok_weaken pos l lev lev' k p s :
  k <= lev' -> slot_ok pos l lev k p s -> slot_ok pos l lev' k p s.
Proof.
  unfold slot_ok. intros Hle. destruct (decide _); [done|].
  intros [[-> [?|[? ?]]]|?]; [left..|right]; auto with lia.
Qed.

Lemma slot_ok_relabel pos pos' l lev k p s :
  slot_ok pos l lev k p s ->
  (forall b, s = SRef b -> pos !! b = Some (k - 1, p) -> pos' !! b = Some (k - 1, p)) ->
  slot_ok pos' l lev k p s.
Proof.
  unfold slot_ok. destruct (decide _); [done|].
  intros [?|(b & -> & Hb)] Hre; [by left|right]. eauto.
Qed.

Lemma slot_ok_empty pos l lev k p :
  0 <= k -> 0 <= p -> len l <= p * 4 ^ k -> k <= lev ->
  slot_ok pos l lev k p (@SNone T).
Proof.
  intros Hk Hp Hn Hlev. unfold slot_ok. destruct (decide (k = 0)) as [->|].
  - rewrite lookup_ge_None_2; [done|]. unfold len in Hn. lia.
  - left. split; [done|]. lia.
Qed.

End Install2.

Section Install3.
Context {T : Type}.
Implicit Types (h : heap T) (s : slot T) (l : list (slot T))
  (pos : gmap addr (Z * Z)).

(** One step of the descent that installs a node at a fresh address as
    the child on the path of the next index: an empty node where the slot
    was [None], or the copy of the child [old] that the slot referred to. *)
Lemma Inv_install lo h pos rt K l level a i cs old csb :
  let p := len l / 4 ^ level in
  let ix := Z.to_nat (p mod 4) in
  Inv lo h pos rt K l level ->
  1 <= level ->
  pos !! a = Some (level, i) -> h !! a = Some cs ->
  i = len l / 4 ^ (level + 1) ->
  (lo <= length h)%nat ->
  (cs !! ix = Some SNone /\ old = length h /\ csb = replicate 4 SNone) \/
  (cs !! ix = Some (SRef old) /\ h !! old = Some csb) ->
  Inv lo (<[a := <[ix := SRef (length h)]> cs]> (h ++ [csb]))
         (<[length h := (level - 1, p)]> (delete old pos)) rt K l (level - 1).
Proof.
  intros p ix HI Hlev Ha Hcs Hi Hlo Hcase.
  set (nb := length h).
  destruct (inv_node _ _ _ _ _ _ _ HI a level i Ha)
    as (HlevK & Hi0 & _ & cs0 & Hcs0 & Hlen & Hslots).
  assert (cs0 = cs) as -> by congruence.
  assert (Hn0 : 0 <= len l) by (unfold len; lia).
  pose proof (digit_step (len l) level ltac:(lia)) as Hp. rewrite <- Hi in Hp.
  fold p in Hp.
  assert (Hr : 0 <= p mod 4 < 4) by (apply Z.mod_pos_bound; lia).
  pose proof (div_bounds (len l) level ltac:(lia)) as Hb. fold p in Hb.
  pose proof (pow4_pos level ltac:(lia)) as Hpw.
  assert (Hp0 : 0 <= p) by (apply Z.div_pos; lia).
  assert (Hix : (ix < 4)%nat) by (unfold ix; lia).
  assert (Hpix : 4 * i + Z.of_nat ix = p) by (unfold ix; lia).
  assert (Hlt : forall b q, pos !! b = Some q -> (b < nb)%nat).
  { intros. by eapply Inv_lt. }
  assert (Hanb : a <> nb) by (apply Hlt in Ha; lia).
  assert (Hpw' : 4 ^ level = 4 * 4 ^ (level - 1)).
  { replace level with ((level - 1) + 1) at 1 by lia. apply pow4_succ. lia. }
  (* what the slot on the path held *)
  destruct (Inv_child _ _ _ _ _ _ _ a level i cs ix HI Ha Hcs Hix) as (s0 & Hs0 & Hok0).
  rewrite Hpix in Hok0.
  (* no other node carries the label of the installed one *)
  assert (Hfree : forall b, b <> old -> pos !! b <> Some (level - 1, p)).
  { intros b Hne Hb'.
    destruct (inv_parent _ _ _ _ _ _ _ HI b (level - 1) p Hb' ltac:(lia))
      as (a' & cs' & Ha' & Hcs' & Hsb).
    replace (level - 1 + 1) with level in Ha' by lia.
    replace (p / 4) with i in Ha' by (apply (Z.div_unique _ _ _ (p mod 4)); lia).
    assert (a' = a) as -> by (eapply inv_inj; eauto).
    assert (cs' = cs) as -> by congruence. fold ix in Hsb.
    destruct Hcase as [[E _]|[E _]]; congruence. }
  assert (Hold : old = nb \/ (pos !! old = Some (level - 1, p) /\ h !! old = Some csb)).
  { destruct Hcase as [(_ & -> & _)|[E Hcsb]]; [by left|right].
    split; [|done]. rewrite E in Hs0. injection Hs0 as <-.
    unfold slot_ok in Hok0. rewrite decide_False in Hok0 by lia.
    destruct Hok0 as [[? _]|(b & [= <-] & ?)]; done. }
  assert (Hcsb : length csb = 4%nat /\ forall (j : nat) s, csb !! j = Some s ->
            slot_ok pos l (level - 1) (level - 1) (4 * p + Z.of_nat j) s).
  { destruct Hcase as [(E & _ & ->)|[E Hcsb]].
    - split; [done|]. intros j s [-> Hj]%lookup_replicate.
      rewrite E in Hs0. injection Hs0 as <-.
      unfold slot_ok in Hok0. rewrite decide_False in Hok0 by lia.
      destruct Hok0 as [[_ Hn]|(b & ? & _)]; [|done].
      apply slot_ok_empty; [lia..| |lia]. nia.
    - destruct Hold as [->|[Ho _]]; [apply lookup_lt_Some in Hcsb; unfold nb in *; lia|].
      destruct (inv_node _ _ _ _ _ _ _ HI old _ _ Ho) as (_ & _ & _ & c & Hc & Hl & Hs).
      assert (c = csb) as -> by (clear -Hc Hcsb; congruence). split; [done|].
      intros j s Hj. eapply slot_ok_weaken; [|by eapply Hs]. lia. }
  destruct Hcsb as [Hcsblen Hcsbok].
  assert (Hlab : forall b q, (<[nb := (level - 1, p)]> (delete old pos)) !! b = Some q <->
            (b = nb /\ q = (level - 1, p)) \/ (b <> nb /\ b <> old /\ pos !! b = Some q)).
  { intros b q. rewrite lookup_insert_Some, lookup_delete_Some. naive_solver. }
  assert (Hkeep : forall b q, pos !! b = Some q -> b <> old ->
            (<[nb := (level - 1, p)]> (delete old pos)) !! b = Some q).
  { intros b q Hb' Hne. apply Hlab. right. split; [|done]. apply Hlt in Hb'. lia. }
  assert (Hh_other : forall b, b <> a -> (b < nb)%nat ->
            (<[a := <[ix := SRef nb]> cs]> (h ++ [csb])) !! b = h !! b).
  { intros b Hne Hb'. rewrite list_lookup_insert_ne by done. by apply lookup_app_l. }
  assert (Hh_a : (<[a := <[ix := SRef nb]> cs]> (h ++ [csb])) !! a
                 = Some (<[ix := SRef nb]> cs)).
  { apply list_lookup_insert_eq. rewrite length_app. apply Hlt in Ha. lia. }
  assert (Hh_nb : (<[a := <[ix := SRef nb]> cs]> (h ++ [csb])) !! nb = Some csb).
  { rewrite list_lookup_insert_ne by done. by apply list_lookup_middle. }
  split.
  - (* root *)
    apply Hkeep; [by apply HI|]. intros ->.
    destruct Hold as [->|[Ho _]].
    + pose proof (Hlt _ _ (inv_root _ _ _ _ _ _ _ HI)). lia.
    + pose proof (inv_root _ _ _ _ _ _ _ HI). assert (K = level - 1) by congruence. lia.
  - (* injective *)
    intros a1 a2 q [[-> ->]|(? & ? & H1)]%Hlab [[-> E]|(? & ? & H2)]%Hlab; try done.
    + by destruct (Hfree a2).
    + subst q. by destruct (Hfree a1).
    + eapply inv_inj; eauto.
  - (* fresh range *)
    intros a1 q [[-> ->]|(? & ? & H1)]%Hlab; [done|]. eapply inv_lo; eauto.
  - (* nodes *)
    intros a1 k i1 [[-> [= -> ->]]|(Hne1 & Hne2 & H1)]%Hlab.
    + split; [lia|]. split; [done|]. split; [lia|].
      exists csb. split; [done|]. split; [done|].
      intros j s Hj. eapply slot_ok_relabel; [by apply Hcsbok|].
      intros b -> Hb'. apply Hkeep; [done|]. intros ->.
      destruct Hold as [->|[Ho _]]; [apply Hlt in Hb'; lia|].
      assert (level - 1 - 1 = level - 1) by congruence. lia.
    + destruct (inv_node _ _ _ _ _ _ _ HI a1 k i1 H1)
        as (Hk & Hi1 & Htop & c & Hc & Hl & Hs).
      do 3 (split; [done|]).
      destruct (decide (a1 = a)) as [->|Hne].
      * assert (k = level /\ i1 = i) as [-> ->] by (split; congruence).
        assert (c = cs) as -> by congruence.
        exists (<[ix := SRef nb]> cs). split; [done|].
        split; [by rewrite length_insert|].
        intros j s Hj. destruct (decide (j = ix)) as [->|Hjne].
        -- rewrite list_lookup_insert_eq in Hj by lia. injection Hj as <-.
           unfold slot_ok. rewrite decide_False by lia. right.
           exists nb. split; [done|]. rewrite Hpix. apply Hlab. by left.
        -- rewrite list_lookup_insert_ne in Hj by done.
           assert (Hj4 : (j < 4)%nat) by (apply lookup_lt_Some in Hj; lia).
           pose proof (Hs j s Hj) as Hok. unfold slot_ok in *.
           rewrite decide_False in * by lia.
           destruct Hok as [[-> [?|[E _]]]|(b & -> & Hb')].
           ++ left. auto.
           ++ exfalso. apply div_pow_eq in E; [|lia]. fold p in E. lia.
           ++ right. exists b. split; [done|]. apply Hkeep; [done|].
              intros ->. destruct Hold as [->|[Ho _]]; [apply Hlt in Hb'; lia|].
              assert (4 * i + Z.of_nat j = p) by congruence. lia.
      * exists c. split; [by rewrite Hh_other by eauto|]. split; [done|].
        intros j s Hj. pose proof (Hs j s Hj) as Hok.
        assert (Hj4 : (j < 4)%nat) by (apply lookup_lt_Some in Hj; lia).
        assert (Hnot : k = level -> 4 * i1 + Z.of_nat j <> p).
        { intros -> E. apply Hne. eapply inv_inj; eauto.
          replace i1 with i by lia. done. }
        unfold slot_ok in *. destruct (decide (k = 0)); [done|].
        destruct Hok as [[-> [?|[E ?]]]|(b & -> & Hb')].
        -- left. auto.
        -- left. split; [done|]. right. split; [done|].
           destruct (decide (k = level)) as [->|]; [|lia].
           exfalso. apply div_pow_eq in E; [|lia]. fold p in E. by eapply Hnot.
        -- right. exists b. split; [done|]. apply Hkeep; [done|].
           intros ->. destruct Hold as [->|[Ho _]]; [apply Hlt in Hb'; lia|].
           assert (k - 1 = level - 1 /\ 4 * i1 + Z.of_nat j = p) as [? ?]
             by (split; congruence).
           apply Hnot; [lia|done].
  - (* parents *)
    intros b k i1 [[-> [= -> ->]]|(Hne1 & Hne2 & H1)]%Hlab Hk.
    + exists a, (<[ix := SRef nb]> cs).
      replace (level - 1 + 1) with level by lia.
      replace (p / 4) with i by (apply (Z.div_unique _ _ _ (p mod 4)); lia).
      split; [|split; [done|]].
      * apply Hkeep; [done|]. intros ->.
        destruct Hold as [->|[Ho _]]; [done|].
        assert (level = level - 1) by congruence. lia.
      * fold ix. apply list_lookup_insert_eq. lia.
    + destruct (inv_parent _ _ _ _ _ _ _ HI b k i1 H1 Hk) as (a' & c & Ha' & Hc & Hcb).
      destruct (decide (a' = old)) as [->|Hao].
      * destruct Hold as [->|[Ho Hocs]]; [apply Hlt in Ha'; lia|].
        exists nb, csb. assert (c = csb) as -> by congruence.
        split; [|done]. apply Hlab. left. split; [done|]. congruence.
      * destruct (decide (a' = a)) as [->|Hna].
        -- assert (c = cs) as -> by congruence.
           exists a, (<[ix := SRef nb]> cs). split; [by apply Hkeep|]. split; [done|].
           rewrite list_lookup_insert_ne; [done|]. intros E. rewrite <- E in Hcb.
           destruct Hcase as [[E' _]|[E' _]]; congruence.
        -- exists a', c. split; [by apply Hkeep|]. split; [|done].
           rewrite Hh_other; eauto.
Qed.

End Install3.

Section Steps.
Context {T : Type}.
Implicit Types (h : heap T) (s : slot T) (l : list (slot T))
  (pos : gmap addr (Z * Z)).

(** The empty vector: a single empty leaf. *)
Lemma Inv_empty h :
  Inv (length h) (h ++ [replicate 4 (@SNone T)]) {[length h := (0, 0)]}
      (length h) 0 [] 0.
Proof.
  split.
  - by rewrite lookup_singleton_eq.
  - intros a b q [-> _]%lookup_singleton_Some [-> _]%lookup_singleton_Some. done.
  - intros a q [-> _]%lookup_singleton_Some. done.
  - intros a k i [E [= <- <-]]%lookup_singleton_Some. subst a.
    do 3 (split; [lia|]). exists (replicate 4 SNone).
    split; [by apply list_lookup_middle|]. split; [done|].
    intros j s [-> _]%lookup_replicate. unfold slot_ok. simpl.
    by rewrite ?lookup_nil.
  - intros b k i [-> [= <- <-]]%lookup_singleton_Some. lia.
Qed.

(** One step of the descent in transient mode through an existing child:
    the store is not changed. *)
Lemma Inv_descend lo h pos rt K l level a i cs b :
  let p := len l / 4 ^ level in
  Inv lo h pos rt K l level ->
  1 <= level ->
  pos !! a = Some (level, i) -> h !! a = Some cs ->
  i = len l / 4 ^ (level + 1) ->
  cs !! Z.to_nat (p mod 4) = Some (SRef b) ->
  Inv lo h pos rt K l (level - 1) /\ pos !! b = Some (level - 1, p).
Proof.
  intros p HI Hlev Ha Hcs Hi Hb.
  pose proof (digit_step (len l) level ltac:(lia)) as Hp. rewrite <- Hi in Hp.
  fold p in Hp.
  assert (Hr : 0 <= p mod 4 < 4) by (apply Z.mod_pos_bound; lia).
  assert (Hix : (Z.to_nat (p mod 4) < 4)%nat) by lia.
  destruct (Inv_child _ _ _ _ _ _ _ a level i cs _ HI Ha Hcs Hix) as (s0 & Hs0 & Hok0).
  rewrite Hb in Hs0. injection Hs0 as <-.
  replace (4 * i + Z.of_nat (Z.to_nat (p mod 4))) with p in Hok0 by lia.
  assert (Hbp : pos !! b = Some (level - 1, p)).
  { unfold slot_ok in Hok0. rewrite decide_False in Hok0 by lia.
    destruct Hok0 as [[? _]|(b' & [= <-] & ?)]; done. }
  split; [|done]. destruct HI as [H1 H2 H3 H4 H5]. split; try done.
  intros a1 k i1 Ha1.
  destruct (H4 a1 k i1 Ha1) as (Hk & Hi1 & Htop & c & Hc & Hl & Hs).
  do 3 (split; [done|]). exists c. do 2 (split; [done|]).
  intros j s Hj. pose proof (Hs j s Hj) as Hok.
  assert (Hj4 : (j < 4)%nat) by (apply lookup_lt_Some in Hj; lia).
  unfold slot_ok in *. destruct (decide (k = 0)); [done|].
  destruct Hok as [[-> [?|[E ?]]]|?]; [by left; auto| |by right].
  left. split; [done|]. right. split; [done|].
  destruct (decide (k = level)) as [->|]; [|lia]. exfalso.
  apply div_pow_eq in E; [|lia]. fold p in E.
  assert (i1 = i) as -> by lia.
  assert (a1 = a) as -> by (eapply H2; eauto).
  assert (c = cs) as -> by congruence.
  replace j with (Z.to_nat (p mod 4)) in Hj by lia. congruence.
Qed.

(** Writing the new element into the leaf at the end of the descent. *)
Lemma Inv_leaf_write lo h pos rt K l a cs val :
  Inv lo h pos rt K l 0 ->
  pos !! a = Some (0, len l / 4) -> h !! a = Some cs ->
  Inv lo (<[a := <[Z.to_nat (len l mod 4) := val]> cs]> h) pos rt K (l ++ [val]) K.
Proof.
  intros HI Ha Hcs.
  assert (Hn0 : 0 <= len l) by (unfold len; lia).
  assert (Hr : 0 <= len l mod 4 < 4) by (apply Z.mod_pos_bound; lia).
  pose proof (Z.div_mod (len l) 4 ltac:(lia)) as Hdm.
  assert (Hlen' : len (l ++ [val]) = len l + 1).
  { unfold len. rewrite length_app. simpl. lia. }
  assert (Hla : (a < length h)%nat) by by eapply lookup_lt_Some.
  destruct HI as [H1 H2 H3 H4 H5]. split; try done.
  - intros a1 k i1 Ha1.
    destruct (H4 a1 k i1 Ha1) as (Hk & Hi1 & Htop & c & Hc & Hl & Hs).
    do 3 (split; [done|]).
    assert (Hleaf : forall (j : nat) s, k = 0 -> (j < 4)%nat ->
              4 * i1 + Z.of_nat j <> len l ->
              s = default SNone (l !! Z.to_nat (4 * i1 + Z.of_nat j)) ->
              s = default SNone ((l ++ [val]) !! Z.to_nat (4 * i1 + Z.of_nat j))).
    { intros j s _ Hj Hne ->. f_equal.
      destruct (decide (4 * i1 + Z.of_nat j < len l)).
      - rewrite lookup_app_l; [done|]. unfold len in *. lia.
      - rewrite !lookup_ge_None_2; [done|rewrite length_app; simpl|];
          unfold len in *; lia. }
    destruct (decide (a1 = a)) as [->|Hne].
    + assert (k = 0 /\ i1 = len l / 4) as [-> ->] by (split; congruence).
      assert (c = cs) as -> by congruence.
      eexists. split; [by apply list_lookup_insert_eq|].
      split; [by rewrite length_insert|].
      intros j s Hj.
      assert (Hj4 : (j < 4)%nat).
      { apply lookup_lt_Some in Hj. rewrite length_insert in Hj. lia. }
      destruct (decide (j = Z.to_nat (len l mod 4))) as [->|Hjne].
      * rewrite list_lookup_insert_eq in Hj by lia. injection Hj as <-.
        unfold slot_ok. simpl.
        replace (Z.to_nat (4 * (len l / 4) + Z.of_nat (Z.to_nat (len l mod 4))))
          with (length l) by (unfold len in *; lia).
        by rewrite list_lookup_middle.
      * rewrite list_lookup_insert_ne in Hj by done.
        pose proof (Hs j s Hj) as Hok. unfold slot_ok in *. simpl in *.
        apply Hleaf; [done..| |done]. lia.
    + exists c. split; [by rewrite list_lookup_insert_ne|]. split; [done|].
      intros j s Hj. pose proof (Hs j s Hj) as Hok.
      assert (Hj4 : (j < 4)%nat) by (apply lookup_lt_Some in Hj; lia).
      unfold slot_ok in *. destruct (decide (k = 0)) as [->|].
      * apply Hleaf; [done..| |done]. intros E. apply Hne.
        eapply H2; [done|]. rewrite Ha. do 2 f_equal. lia.
      * rewrite Hlen'. destruct Hok as [[-> [?|[_ ?]]]|?]; [|lia|by right].
        left. split; [done|]. lia.
  - intros b k i1 Hb Hk.
    destruct (H5 b k i1 Hb Hk) as (a' & c & Ha' & Hc & Hcb).
    exists a', c. split; [done|]. split; [|done].
    rewrite list_lookup_insert_ne; [done|]. intros ->.
    assert (k + 1 = 0) by congruence.
    destruct (H4 b k i1 Hb) as (? & _). lia.
Qed.

End Steps.

Section RootSteps.
Context {T : Type}.
Implicit Types (h : heap T) (s : slot T) (l : list (slot T))
  (pos : gmap addr (Z * Z)).

(** Persistent mode starts from a copy of the root. *)
Lemma Inv_root_copy lo h pos rt K l lev cs :
  Inv lo h pos rt K l lev -> h !! rt = Some cs -> (lo <= length h)%nat ->
  Inv lo (h ++ [cs]) (<[length h := (K, 0)]> (delete rt pos)) (length h) K l lev.
Proof.
  intros HI Hcs Hlo. set (nb := length h).
  assert (Hlt : forall b q, pos !! b = Some q -> (b < nb)%nat).
  { intros. by eapply Inv_lt. }
  pose proof (inv_root _ _ _ _ _ _ _ HI) as Hrt.
  assert (Hlab : forall b q, (<[nb := (K, 0)]> (delete rt pos)) !! b = Some q <->
            (b = nb /\ q = (K, 0)) \/ (b <> nb /\ b <> rt /\ pos !! b = Some q)).
  { intros b q. rewrite lookup_insert_Some, lookup_delete_Some.
    split; [intros [[<- <-]|(? & ? & ?)]; auto|intros [[-> ->]|(? & ? & ?)]; auto]. }
  assert (Hkeep : forall b k i, pos !! b = Some (k, i) -> k < K ->
            (<[nb := (K, 0)]> (delete rt pos)) !! b = Some (k, i)).
  { intros b k i Hb Hk. apply Hlab. right. split; [apply Hlt in Hb; lia|].
    split; [|done]. intros ->. assert (k = K) by congruence. lia. }
  assert (Hh : forall b, (b < nb)%nat -> (h ++ [cs]) !! b = h !! b).
  { intros. by apply lookup_app_l. }
  assert (Hslots : forall a k i c, pos !! a = Some (k, i) -> h !! a = Some c ->
            forall (j : nat) s, c !! j = Some s ->
              slot_ok (<[nb := (K, 0)]> (delete rt pos)) l lev k (4 * i + Z.of_nat j) s).
  { intros a k i c Ha Hc j s Hj.
    destruct (inv_node _ _ _ _ _ _ _ HI a k i Ha) as (Hk & _ & _ & c' & Hc' & _ & Hs).
    assert (c' = c) as -> by congruence.
    eapply slot_ok_relabel; [by apply Hs|].
    intros b -> Hb. apply Hkeep; [done|lia]. }
  split.
  - apply Hlab. by left.
  - intros a1 a2 q [[-> ->]|(? & ? & H1)]%Hlab [[-> E]|(? & ? & H2)]%Hlab; try done.
    + exfalso. assert (a2 = rt) by (eapply inv_inj; eauto). done.
    + subst q. exfalso. assert (a1 = rt) by (eapply inv_inj; eauto). done.
    + eapply inv_inj; eauto.
  - intros a1 q [[-> ->]|(? & ? & H1)]%Hlab; [done|]. eapply inv_lo; eauto.
  - intros a1 k i1 [[-> [= -> ->]]|(Hne1 & Hne2 & H1)]%Hlab.
    + destruct (inv_node _ _ _ _ _ _ _ HI rt K 0 Hrt) as (Hk & Hi1 & Htop & c & Hc & Hl & Hs).
      assert (c = cs) as -> by congruence.
      do 3 (split; [done|]). exists cs. split; [by apply list_lookup_middle|].
      split; [done|]. by eapply Hslots.
    + destruct (inv_node _ _ _ _ _ _ _ HI a1 k i1 H1) as (Hk & Hi1 & Htop & c & Hc & Hl & Hs).
      do 3 (split; [done|]). exists c. split; [rewrite Hh; eauto|].
      split; [done|]. by eapply Hslots.
  - intros b k i1 [[-> [= -> ->]]|(Hne1 & Hne2 & H1)]%Hlab Hk; [lia|].
    destruct (inv_parent _ _ _ _ _ _ _ HI b k i1 H1 Hk) as (a' & c & Ha' & Hc & Hcb).
    destruct (decide (a' = rt)) as [->|Hne].
    + exists nb, cs. assert (c = cs) as -> by congruence.
      split; [|split; [by apply list_lookup_middle|done]].
      apply Hlab. left. split; [done|]. congruence.
    + exists a', c. split; [|split; [rewrite Hh; eauto|done]].
      apply Hlab. right. split; [apply Hlt in Ha'; lia|done].
Qed.

(** Root overflow: the root becomes child 0 of a new root. *)
Lemma Inv_wrap lo h pos rt K l :
  Inv lo h pos rt K l K -> len l = 4 ^ (K + 1) -> (lo <= length h)%nat ->
  Inv lo (h ++ [mk_node [SRef rt]]) (<[length h := (K + 1, 0)]> pos)
      (length h) (K + 1) l (K + 1).
Proof.
  intros HI Hn Hlo. set (nb := length h).
  assert (Hlt : forall b q, pos !! b = Some q -> (b < nb)%nat).
  { intros. by eapply Inv_lt. }
  pose proof (inv_root _ _ _ _ _ _ _ HI) as Hrt.
  assert (HK : 0 <= K).
  { destruct (inv_node _ _ _ _ _ _ _ HI rt K 0 Hrt) as (? & _). lia. }
  assert (Hfresh : pos !! nb = None).
  { destruct (pos !! nb) eqn:E; [|done]. apply Hlt in E. lia. }
  assert (Hkeep : forall b q, pos !! b = Some q ->
            (<[nb := (K + 1, 0)]> pos) !! b = Some q).
  { intros b q Hb. rewrite lookup_insert_ne; [done|]. apply Hlt in Hb. lia. }
  assert (Hh : forall b, (b < nb)%nat -> (h ++ [mk_node [SRef rt]]) !! b = h !! b).
  { intros. by apply lookup_app_l. }
  assert (Hlab : forall b q, (<[nb := (K + 1, 0)]> pos) !! b = Some q ->
            (b = nb /\ q = (K + 1, 0)) \/ (b <> nb /\ pos !! b = Some q)).
  { intros b q. rewrite lookup_insert_Some. intros [[<- <-]|[? ?]]; auto. }
  split.
  - by apply lookup_insert_eq.
  - intros a1 a2 q [[-> ->]|(? & H1)]%Hlab [[-> E]|(? & H2)]%Hlab; try done.
    + destruct (inv_node _ _ _ _ _ _ _ HI a2 _ _ H2) as (? & _). lia.
    + subst q. destruct (inv_node _ _ _ _ _ _ _ HI a1 _ _ H1) as (? & _). lia.
    + eapply inv_inj; eauto.
  - intros a1 q [[-> ->]|(? & H1)]%Hlab; [done|]. eapply inv_lo; eauto.
  - intros a1 k i1 [[-> [= -> ->]]|(Hne1 & H1)]%Hlab.
    + do 3 (split; [lia|]). exists (mk_node [SRef rt]).
      split; [by apply list_lookup_middle|]. split; [done|].
      intros j s Hj. unfold slot_ok. rewrite decide_False by lia.
      pose proof (pow4_pos (K + 1) ltac:(lia)).
      destruct j as [|j]; [|left].
      * right. exists rt. injection Hj as <-. split; [done|].
        replace (K + 1 - 1) with K by lia. by apply Hkeep.
      * assert (s = SNone) as ->.
        { do 3 (destruct j as [|j]; [by injection Hj|]). done. }
        split; [done|]. destruct j as [|j]; [right; split; lia|left; nia].
    + destruct (inv_node _ _ _ _ _ _ _ HI a1 k i1 H1) as (Hk & Hi1 & Htop & c & Hc & Hl & Hs).
      split; [lia|]. split; [done|]. split; [lia|].
      exists c. split; [rewrite Hh; eauto|]. split; [done|].
      intros j s Hj. eapply slot_ok_relabel.
      * eapply (slot_ok_mono _ _ K); [lia|by apply Hs].
      * intros b _ Hb. by apply Hkeep.
  - intros b k i1 [[-> [= -> ->]]|(Hne1 & H1)]%Hlab Hk; [lia|].
    destruct (inv_node _ _ _ _ _ _ _ HI b k i1 H1) as (Hk' & Hi1 & Htop & _).
    destruct (decide (k = K)) as [->|].
    + rewrite Htop in * by done.
      assert (b = rt) as -> by (eapply inv_inj; eauto).
      exists nb, (mk_node [SRef rt]).
      split; [by apply lookup_insert_eq|]. split; [by apply list_lookup_middle|done].
    + destruct (inv_parent _ _ _ _ _ _ _ HI b k i1 H1 ltac:(lia)) as (a' & c & Ha' & Hc & Hcb).
      exists a', c. split; [by apply Hkeep|]. split; [rewrite Hh; eauto|done].
Qed.

End RootSteps.

Section AppendStep.
Context {T : Type}.
Implicit Types (h : heap T) (s : slot T) (l : list (slot T))
  (pos : gmap addr (Z * Z)).

Lemma mk_node_nil : @mk_node T [] = replicate 4 SNone.
Proof. reflexivity. Qed.

Lemma set_get_eq h a cs ix s :
  h !! a = Some cs -> (ix < length cs)%nat ->
  (set_child (SRef a) ix s ;;; get_child (SRef a) ix) h
  = (inr s, <[a := <[ix := s]> cs]> h).
Proof.
  intros Hcs Hix. erewrite bind_inr by by apply set_child_eq.
  apply get_child_eq with (<[ix := s]> cs).
  - apply list_lookup_insert_eq. by eapply lookup_lt_Some.
  - by apply list_lookup_insert_eq.
Qed.

(** One level of the descent of [append], in either mode, on a
    well-formed trie: it returns the node on the path one level down. *)
Lemma append_reducer_inv mut lo h pos rt K l level a i :
  Inv lo h pos rt K l level ->
  1 <= level ->
  pos !! a = Some (level, i) ->
  i = len l / 4 ^ (level + 1) ->
  (lo <= length h)%nat ->
  exists b pos' h',
    append_reducer mut (SRef a) level (slot_ix (len l) level) h = (inr (SRef b), h') /\
    Inv lo h' pos' rt K l (level - 1) /\
    pos' !! b = Some (level - 1, len l / 4 ^ level) /\
    agree lo h h'.
Proof.
  intros HI Hlev Ha Hi Hlo.
  rewrite slot_ix_eq by lia. set (p := len l / 4 ^ level).
  set (ix := Z.to_nat (p mod 4)).
  destruct (inv_node _ _ _ _ _ _ _ HI a level i Ha)
    as (HlevK & Hi0 & _ & cs & Hcs & Hlen & _).
  assert (Hr : 0 <= p mod 4 < 4) by (apply Z.mod_pos_bound; lia).
  assert (Hix : (ix < 4)%nat) by (unfold ix; lia).
  assert (Hloa : (lo <= a)%nat) by (eapply inv_lo; eauto).
  assert (Hla : (a < length h)%nat) by by eapply lookup_lt_Some.
  pose proof (digit_step (len l) level ltac:(lia)) as Hp. rewrite <- Hi in Hp.
  fold p in Hp.
  destruct (Inv_child _ _ _ _ _ _ _ a level i cs ix HI Ha Hcs Hix) as (s0 & Hs0 & Hok0).
  replace (4 * i + Z.of_nat ix) with p in Hok0 by (unfold ix; lia).
  unfold append_reducer. erewrite bind_inr by by eapply get_child_eq.
  unfold slot_ok in Hok0. rewrite decide_False in Hok0 by lia.
  destruct Hok0 as [[-> _]|(b & -> & Hb)].
  - (* the slot is None: a new node *)
    erewrite bind_inr by reflexivity.
    assert (Hcs1 : (h ++ [mk_node []]) !! a = Some cs) by by rewrite lookup_app_l.
    rewrite (set_get_eq _ _ cs) by (done || lia).
    eexists (length h), _, _. split; [done|]. rewrite mk_node_nil.
    split; [|split; [by apply lookup_insert_eq|]].
    + eapply (Inv_install lo h pos rt K l level a i cs (length h)); eauto.
    + eapply agree_trans; [by apply agree_alloc|by apply agree_write].
  - (* the slot refers to the child on the path *)
    destruct (inv_node _ _ _ _ _ _ _ HI b _ _ Hb)
      as (_ & _ & _ & csb & Hcsb & Hlenb & _).
    destruct mut.
    + erewrite bind_inr by reflexivity.
      rewrite (set_get_eq _ _ cs) by (done || lia).
      rewrite (list_insert_id cs) by done. rewrite (list_insert_id h) by done.
      exists b, pos, h. split; [done|].
      destruct (Inv_descend lo h pos rt K l level a i cs b HI Hlev Ha Hcs Hi Hs0).
      done.
    + erewrite bind_inr by by apply copy_node_eq.
      rewrite mk_node_full by lia.
      assert (Hcs1 : (h ++ [csb]) !! a = Some cs) by by rewrite lookup_app_l.
      rewrite (set_get_eq _ _ cs) by (done || lia).
      eexists (length h), _, _. split; [done|].
      split; [|split; [by apply lookup_insert_eq|]].
      * eapply (Inv_install lo h pos rt K l level a i cs b); eauto.
      * eapply agree_trans; [by apply agree_alloc|by apply agree_write].
Qed.

End AppendStep.

Section AppendWalk.
Context {T : Type}.
Implicit Types (h : heap T) (s : slot T) (l : list (slot T))
  (pos : gmap addr (Z * Z)).

Lemma agree_length lo h h' : agree lo h h' -> (length h <= length h')%nat.
Proof. by intros [_ ?]. Qed.

(** The whole descent of [append] from a node of height [d] on the path
    of the new index ends in the leaf that will hold it. *)
Lemma append_walk mut lo rt K l d :
  0 <= d ->
  forall h pos a,
  Inv lo h pos rt K l d ->
  pos !! a = Some (d, len l / 4 ^ (d + 1)) ->
  (lo <= length h)%nat ->
  exists b pos' h',
    reduce_levels (len l) (append_reducer mut) (SRef a) (levels d) h
      = (inr (SRef b), h') /\
    Inv lo h' pos' rt K l 0 /\
    pos' !! b = Some (0, len l / 4) /\
    agree lo h h'.
Proof.
  intros Hd. pattern d. apply natlike_ind; [| |done]; clear d Hd.
  - intros h pos a HI Ha Hlo. exists a, pos, h. by rewrite levels_0.
  - intros d Hd IH h pos a HI Ha Hlo.
    replace (Z.succ d) with (d + 1) in * by lia.
    rewrite levels_succ by done. simpl.
    destruct (append_reducer_inv mut lo h pos rt K l (d + 1) a _ HI ltac:(lia) Ha eq_refl Hlo)
      as (b & pos1 & h1 & Hrun & HI1 & Hb & Hag).
    erewrite bind_inr by done.
    replace (d + 1 - 1) with d in * by lia.
    destruct (IH h1 pos1 b HI1 Hb) as (b' & pos2 & h2 & Hrun2 & HI2 & Hb' & Hag2).
    { apply agree_length in Hag. lia. }
    exists b', pos2, h2. split; [done|]. split; [done|]. split; [done|].
    by eapply agree_trans.
Qed.

(** Allocating a node nobody refers to. *)
Lemma Inv_alloc lo h pos rt K l lev (x : node T) :
  Inv lo h pos rt K l lev -> Inv lo (h ++ [x]) pos rt K l lev.
Proof.
  intros [H1 H2 H3 H4 H5]. split; try done.
  - intros a k i Ha. destruct (H4 a k i Ha) as (? & ? & ? & cs & Hcs & ?).
    do 3 (split; [done|]). exists cs. split; [|done].
    rewrite lookup_app_l; [done|]. by eapply lookup_lt_Some.
  - intros b k i Hb Hk. destruct (H5 b k i Hb Hk) as (a & cs & ? & Hcs & ?).
    exists a, cs. split; [done|]. split; [|done].
    rewrite lookup_app_l; [done|]. by eapply lookup_lt_Some.
Qed.

Lemma pow4_lt_inv a b : 0 <= a -> 0 <= b -> 4 ^ a < 4 ^ b -> a < b.
Proof. intros. apply (Z.pow_lt_mono_r_iff 4); lia. Qed.

Lemma pow4_le_inv a b : 0 <= a -> 0 <= b -> 4 ^ a <= 4 ^ b -> a <= b.
Proof. intros. apply (Z.pow_le_mono_r_iff 4); lia. Qed.

(** With the heights of [hgt], the root overflows exactly when the trie
    is full. *)
Lemma hgt_power K n :
  hgt K n -> is_power_of n WIDTH = true -> n = 4 ^ (K + 1).
Proof.
  intros (HK & Hhi & Hlo) (k & Hk & ->)%is_power_of_true.
  assert (k <= K + 1) by (apply pow4_le_inv; lia).
  assert (K < k).
  { destruct Hlo as [->|Hlo]; [lia|]. apply pow4_lt_inv; lia. }
  by replace k with (K + 1) by lia.
Qed.

Lemma hgt_not_power K n :
  hgt K n -> 0 <= n -> is_power_of n WIDTH = false -> n < 4 ^ (K + 1).
Proof.
  intros (HK & Hhi & Hlo) Hn Hp. rewrite is_power_of_false in Hp.
  specialize (Hp (K + 1) ltac:(lia)). lia.
Qed.

Lemma hgt_depth K n :
  hgt K n -> 0 < n -> n < 4 ^ (K + 1) -> Z.log2 n / Z.log2 WIDTH = K.
Proof.
  intros (HK & Hhi & Hlo) Hn Hlt. apply log4_unique; [done|].
  split; [|done]. destruct Hlo as [->|]; simpl; lia.
Qed.

End AppendWalk.

Section AppendInv.
Context {T : Type}.
Implicit Types (h : heap T) (s : slot T) (l : list (slot T))
  (pos : gmap addr (Z * Z)) (v w : @Vector T).

Lemma depth_eq v h d :
  0 <= size v -> (if size v =? 0 then 0 else Z.log2 (size v) / Z.log2 WIDTH) = d ->
  depth v h = (inr d, h).
Proof.
  intros Hs <-. unfold depth. destruct (Z.eqb_spec (size v) 0); [done|].
  destruct (Z.ltb_spec (size v) 0); [lia|done].
Qed.

Lemma start_root_Inv (mut : bool) lo h pos rt K l lev :
  Inv lo h pos rt K l lev -> (lo <= length h)%nat ->
  exists rt1 pos1 h1,
    (if mut then @ret T (slot T) (SRef rt)
     else cs <- children (SRef rt);; a <- new_node cs;; ret (SRef a)) h
      = (inr (SRef rt1), h1) /\
    Inv lo h1 pos1 rt1 K l lev /\ agree lo h h1.
Proof.
  intros HI Hlo. destruct mut.
  - exists rt, pos, h. done.
  - destruct (inv_node _ _ _ _ _ _ _ HI rt K 0 (inv_root _ _ _ _ _ _ _ HI))
      as (_ & _ & _ & cs & Hcs & Hlen & _).
    erewrite bind_inr by by apply children_eq.
    eexists (length h), _, _. split; [done|]. rewrite mk_node_full by lia.
    split; [by apply Inv_root_copy|by apply agree_alloc].
Qed.

Lemma overflow_Inv lo h pos rt K l :
  Inv lo h pos rt K l K -> hgt K (len l) -> (lo <= length h)%nat ->
  exists rt1 pos1 K1 h1,
    (if is_power_of (len l) WIDTH
     then a <- new_node [SRef rt];; ret (SRef a) else @ret T (slot T) (SRef rt)) h
      = (inr (SRef rt1), h1) /\
    Inv lo h1 pos1 rt1 K1 l K1 /\ agree lo h h1 /\
    hgt K1 (len l + 1) /\ len l < 4 ^ (K1 + 1) /\
    (if len l =? 0 then 0 else Z.log2 (len l) / Z.log2 WIDTH) = K1.
Proof.
  intros HI Hh Hlo.
  assert (Hn0 : 0 <= len l) by (unfold len; lia).
  pose proof Hh as (HK & Hhi & Hlow).
  pose proof (pow4_pos K HK). pose proof (pow4_succ K HK).
  pose proof (pow4_succ (K + 1) ltac:(lia)).
  destruct (is_power_of (len l) WIDTH) eqn:Hp.
  - pose proof (hgt_power _ _ Hh Hp) as Hn.
    eexists (length h), _, (K + 1), _. split; [done|].
    split; [by apply Inv_wrap|]. split; [by apply agree_alloc|].
    split; [repeat split; lia|]. split; [lia|].
    destruct (Z.eqb_spec (len l) 0); [lia|].
    apply log4_unique; lia.
  - pose proof (hgt_not_power _ _ Hh Hn0 Hp) as Hn.
    exists rt, pos, K, h. split; [done|]. split; [done|]. split; [done|].
    split; [repeat split; lia|]. split; [done|].
    destruct (Z.eqb_spec (len l) 0) as [E|]; [|apply hgt_depth; [done|lia..]].
    destruct Hlow; lia.
Qed.

(** [append] on a trie built by appends, in either mode: it returns, and
    the result is the trie of the extended list.  Nodes below [lo] are not
    written. *)
Lemma append_Repr lo h v K l val :
  Repr lo h v K l -> hgt K (len l) ->
  exists w K' h',
    append v val h = (inr w, h') /\
    Repr lo h' w K' (l ++ [val]) /\ hgt K' (len l + 1) /\
    mutation w = mutation v /\ agree lo h h'.
Proof.
  intros (pos & rt & HI & Hroot & Hsize & Hlo) Hh.
  assert (Hn0 : 0 <= len l) by (unfold len; lia).
  assert (Hlen' : len (l ++ [val]) = len l + 1).
  { unfold len. rewrite length_app. simpl. lia. }
  unfold append. rewrite Hroot, Hsize.
  destruct (start_root_Inv (mutation v) lo h pos rt K l K HI Hlo)
    as (rt1 & pos1 & h1 & Hrun1 & HI1 & Hag1).
  erewrite bind_inr by exact Hrun1.
  pose proof (agree_length _ _ _ Hag1).
  destruct (overflow_Inv lo h1 pos1 rt1 K l HI1 Hh ltac:(lia))
    as (rt2 & pos2 & K2 & h2 & Hrun2 & HI2 & Hag2 & Hh2 & Hlt2 & Hd2).
  erewrite bind_inr by exact Hrun2.
  pose proof (agree_length _ _ _ Hag2).
  pose proof Hh2 as (HK2 & _).
  destruct (append_walk (mutation v) lo rt2 K2 l K2 HK2 h2 pos2 rt2 HI2) as
    (b & pos3 & h3 & Hrun3 & HI3 & Hb & Hag3).
  { rewrite Z.div_small by lia. by apply HI2. }
  { lia. }
  assert (Hrn : reduce_node v (len l) (append_reducer (mutation v)) (SRef rt2) None h2
                = (inr (SRef b), h3)).
  { unfold reduce_node.
    erewrite bind_inr by (apply depth_eq; [lia|by rewrite Hsize]). done. }
  erewrite bind_inr by exact Hrn.
  pose proof (agree_length _ _ _ Hag3).
  destruct (inv_node _ _ _ _ _ _ _ HI3 b 0 _ Hb) as (_ & _ & _ & cs & Hcs & Hlen & _).
  assert (Hr : 0 <= len l mod 4 < 4) by (apply Z.mod_pos_bound; lia).
  rewrite leaf_index_eq.
  erewrite bind_inr by (apply set_child_eq; [done|lia]).
  pose proof (Inv_leaf_write lo h3 pos3 rt2 K2 l b cs val HI3 Hb Hcs) as HI4.
  assert (Hag4 : agree lo h (<[b:=<[Z.to_nat (len l mod 4):=val]> cs]> h3)).
  { eapply agree_trans; [by apply Hag1|]. eapply agree_trans; [by apply Hag2|].
    eapply agree_trans; [by apply Hag3|]. apply agree_write. eapply inv_lo; eauto. }
  destruct (mutation v) eqn:Hm.
  - eexists _, K2, _. split; [done|]. split; [|done].
    exists pos3, rt2. simpl. rewrite Hlen', length_insert.
    split; [done|]. split; [done|]. split; [done|lia].
  - eexists _, K2, _. split; [done|]. split; [|split; [done|split; [done|]]].
    + exists pos3, rt2. simpl. rewrite Hlen', length_app, length_insert.
      split; [by apply Inv_alloc|]. split; [done|]. split; [done|lia].
    + eapply agree_trans; [done|]. apply agree_alloc. rewrite length_insert. lia.
Qed.

End AppendInv.

Section Build.
Context {T : Type}.
Implicit Types (h : heap T) (s : slot T) (l : list (slot T))
  (pos : gmap addr (Z * Z)) (v w : @Vector T).

Lemma hgt_0 : hgt 0 0.
Proof. repeat split; simpl; lia. Qed.

Lemma len_app l s : len (l ++ [s]) = len l + 1.
Proof. unfold len. rewrite length_app. simpl. lia. Qed.

(** The appending loop of the constructor: every append returns. *)
Lemma append_all_Repr lo vals :
  forall h v K l,
  Repr lo h v K l -> hgt K (len l) ->
  exists w K' h',
    append_all v vals h = (inr w, h') /\
    Repr lo h' w K' (l ++ vals) /\ hgt K' (len (l ++ vals)) /\
    mutation w = mutation v /\ agree lo h h'.
Proof.
  induction vals as [|val vals IH]; intros h v K l HR Hh; simpl.
  - exists v, K, h. rewrite app_nil_r. done.
  - destruct (append_Repr lo h v K l val HR Hh) as (w & K1 & h1 & Hrun & HR1 & Hh1 & Hm1 & Hag1).
    erewrite bind_inr by exact Hrun. rewrite <- (len_app l val) in Hh1.
    destruct (IH h1 w K1 (l ++ [val]) HR1 Hh1) as (w2 & K2 & h2 & Hrun2 & HR2 & Hh2 & Hm2 & Hag2).
    rewrite <- app_assoc in HR2, Hh2. simpl in HR2, Hh2.
    exists w2, K2, h2. split; [done|]. split; [done|]. split; [done|].
    split; [congruence|by eapply agree_trans].
Qed.

(** The empty vector the constructor starts from. *)
Lemma empty_Repr h mut lf :
  Repr (length h) (h ++ [mk_node []]) (mkVector (SRef (length h)) 0 mut lf) 0 [].
Proof.
  exists {[length h := (0, 0)]}, (length h). split; [apply Inv_empty|].
  split; [done|]. split; [done|]. rewrite length_app. lia.
Qed.

(** The constructor returns on every list, in persistent mode, with the
    trie of the list; it leaves the nodes that existed alone. *)
Lemma Vector_init_Repr h vals :
  exists v K h',
    Vector_init vals h = (inr v, h') /\
    Repr (length h) h' v K vals /\ hgt K (len vals) /\
    mutation v = false /\ size v = len vals /\ frame h h'.
Proof.
  unfold Vector_init. erewrite bind_inr by reflexivity.
  destruct (append_all_Repr (length h) vals (h ++ [mk_node []])
              (mutate (mkVector (SRef (length h)) 0 false None)) 0 [])
    as (w & K & h' & Hrun & HR & Hh & Hm & Hag).
  { apply empty_Repr. }
  { apply hgt_0. }
  erewrite bind_inr by exact Hrun. simpl in *.
  exists (mutate w), K, h'. split; [done|].
  destruct HR as (pos & rt & HI & Hroot & Hsize & Hlo).
  split; [by exists pos, rt|]. split; [done|].
  split; [unfold mutate; simpl; by rewrite Hm|]. split; [done|].
  apply agree_frame. eapply agree_trans; [|done]. by apply agree_alloc.
Qed.

End Build.

Section Reading.
Context {T : Type}.
Implicit Types (h : heap T) (s : slot T) (l : list (slot T))
  (pos : gmap addr (Z * Z)) (v w : @Vector T).

(** The descent of [at] towards an index below the size meets the nodes
    on the path of the index. *)
Lemma at_walk lo rt K l lev key h pos d :
  0 <= d ->
  Inv lo h pos rt K l lev ->
  0 <= key < len l ->
  forall a,
  pos !! a = Some (d, key / 4 ^ (d + 1)) ->
  exists b,
    reduce_levels key at_reducer (SRef a) (levels d) h = (inr (SRef b), h) /\
    pos !! b = Some (0, key / 4).
Proof.
  intros Hd HI Hkey. pattern d. apply natlike_ind; [| |done]; clear d Hd.
  - intros a Ha. exists a. by rewrite levels_0.
  - intros d Hd IH a Ha. replace (Z.succ d) with (d + 1) in * by lia.
    rewrite levels_succ by done. simpl.
    rewrite slot_ix_eq by lia. set (p := key / 4 ^ (d + 1)).
    assert (Hr : 0 <= p mod 4 < 4) by (apply Z.mod_pos_bound; lia).
    destruct (inv_node _ _ _ _ _ _ _ HI a _ _ Ha) as (_ & _ & _ & cs & Hcs & Hlen & _).
    destruct (Inv_child _ _ _ _ _ _ _ a _ _ cs (Z.to_nat (p mod 4)) HI Ha Hcs ltac:(lia))
      as (s & Hs & Hok).
    pose proof (digit_step key (d + 1) ltac:(lia)) as Hp. fold p in Hp.
    replace (4 * (key / 4 ^ (d + 1 + 1)) + Z.of_nat (Z.to_nat (p mod 4))) with p in Hok by lia.
    pose proof (div_bounds key (d + 1) ltac:(lia)) as Hb. fold p in Hb.
    unfold slot_ok in Hok. rewrite decide_False in Hok by lia.
    destruct Hok as [[_ ?]|(b & -> & Hb')]; [lia|].
    unfold at_reducer at 1. erewrite bind_inr by by eapply get_child_eq.
    replace (d + 1 - 1) with d in Hb' by lia. by apply IH.
Qed.

(** [at] on a trie whose height is the depth its size gives: it returns
    the element at the index. *)
Lemma at_Repr lo h v K l key :
  Repr lo h v K l -> hgt K (len l) -> len l < 4 ^ (K + 1) ->
  0 <= key < len l ->
  exists s lf,
    at_ v key h = (inr (s, mkVector (root v) (size v) (mutation v) (Some lf)), h) /\
    l !! Z.to_nat key = Some s.
Proof.
  intros (pos & rt & HI & Hroot & Hsize & Hlo) Hh Hlt Hkey.
  pose proof Hh as (HK & _).
  destruct (at_walk lo rt K l K key h pos K HK HI Hkey rt) as (b & Hrun & Hb).
  { rewrite Z.div_small by lia. by apply HI. }
  destruct (inv_node _ _ _ _ _ _ _ HI b _ _ Hb) as (_ & _ & _ & cs & Hcs & Hlen & _).
  assert (Hr : 0 <= key mod 4 < 4) by (apply Z.mod_pos_bound; lia).
  destruct (Inv_child _ _ _ _ _ _ _ b _ _ cs (Z.to_nat (key mod 4)) HI Hb Hcs ltac:(lia))
    as (s & Hs & Hok).
  pose proof (Z.div_mod key 4 ltac:(lia)).
  replace (4 * (key / 4) + Z.of_nat (Z.to_nat (key mod 4))) with key in Hok by lia.
  unfold slot_ok in Hok. simpl in Hok.
  destruct (lookup_lt_is_Some_2 l (Z.to_nat key)) as [e He]; [unfold len in *; lia|].
  rewrite He in Hok. simpl in Hok. subst s.
  exists e, (SRef b). split; [|done].
  unfold at_, reduce_node. rewrite Hroot.
  assert (Hd : depth v h = (inr K, h)).
  { apply depth_eq; [lia|]. rewrite Hsize.
    destruct (Z.eqb_spec (len l) 0); [lia|]. apply hgt_depth; [done|lia..]. }
  erewrite (bind_inr (bind _ _)); [|by erewrite bind_inr by exact Hd].
  rewrite leaf_index_eq. by erewrite bind_inr by by eapply get_child_eq.
Qed.

End Reading.

Section ReadingShort.
Context {T : Type}.
Implicit Types (h : heap T) (s : slot T) (l : list (slot T))
  (pos : gmap addr (Z * Z)) (v w : @Vector T).

Lemma children_elem s h : is_elem s -> children s h = (inl AttributeError, h).
Proof. by destruct s. Qed.

(** When the size is an exact power of WIDTH reached by appending, the
    depth is one more than the height of the trie: the descent of [at]
    takes one step too many and ends on an element instead of a leaf. *)
Lemma at_walk_short lo rt K l lev key h pos d :
  0 <= d ->
  Inv lo h pos rt K l lev ->
  0 <= key < len l ->
  forall a,
  pos !! a = Some (d, key / 4 ^ (d + 2)) ->
  exists e,
    reduce_levels key at_reducer (SRef a) (levels (d + 1)) h = (inr e, h) /\
    l !! Z.to_nat (key / 4) = Some e.
Proof.
  intros Hd HI Hkey. pattern d. apply natlike_ind; [| |done]; clear d Hd.
  - intros a Ha. rewrite levels_succ, levels_0 by done. simpl in *.
    rewrite slot_ix_eq by lia. change (4 ^ 1) with 4. change (4 ^ 2) with 16 in Ha.
    set (p := key / 4).
    assert (Hr : 0 <= p mod 4 < 4) by (apply Z.mod_pos_bound; lia).
    destruct (inv_node _ _ _ _ _ _ _ HI a _ _ Ha) as (_ & _ & _ & cs & Hcs & Hlen & _).
    destruct (Inv_child _ _ _ _ _ _ _ a _ _ cs (Z.to_nat (p mod 4)) HI Ha Hcs ltac:(lia))
      as (s & Hs & Hok).
    assert (key / 16 = p / 4) as Hp16.
    { unfold p. rewrite Z.div_div by lia. done. }
    pose proof (Z.div_mod p 4 ltac:(lia)).
    change (4 ^ (0 + 2)) with 16 in Hok.
    replace (4 * (key / 16) + Z.of_nat (Z.to_nat (p mod 4))) with p in Hok by lia.
    unfold slot_ok in Hok. simpl in Hok.
    assert (0 <= p <= key).
    { unfold p. split; [apply Z.div_pos; lia|]. apply Z.div_le_upper_bound; lia. }
    destruct (lookup_lt_is_Some_2 l (Z.to_nat p)) as [e He]; [unfold len in *; lia|].
    rewrite He in Hok. simpl in Hok. subst s.
    exists e. split; [|done]. unfold at_reducer.
    by erewrite bind_inr by by eapply get_child_eq.
  - intros d Hd IH a Ha. replace (Z.succ d) with (d + 1) in * by lia.
    rewrite levels_succ by lia. simpl.
    rewrite slot_ix_eq by lia.
    replace (d + 1 + 1) with (d + 2) in * by lia.
    set (p := key / 4 ^ (d + 2)).
    assert (Hr : 0 <= p mod 4 < 4) by (apply Z.mod_pos_bound; lia).
    destruct (inv_node _ _ _ _ _ _ _ HI a _ _ Ha) as (_ & _ & _ & cs & Hcs & Hlen & _).
    destruct (Inv_child _ _ _ _ _ _ _ a _ _ cs (Z.to_nat (p mod 4)) HI Ha Hcs ltac:(lia))
      as (s & Hs & Hok).
    pose proof (digit_step key (d + 2) ltac:(lia)) as Hp. fold p in Hp.
    replace (d + 2 + 1) with (d + 1 + 2) in Hp by lia.
    replace (4 * (key / 4 ^ (d + 1 + 2)) + Z.of_nat (Z.to_nat (p mod 4))) with p in Hok by lia.
    pose proof (div_bounds key (d + 2) ltac:(lia)) as Hb. fold p in Hb.
    pose proof (pow4_pos (d + 1) ltac:(lia)) as Hpw.
    assert (Hpw2 : 4 ^ (d + 2) = 4 * 4 ^ (d + 1)).
    { replace (d + 2) with (d + 1 + 1) by lia. apply pow4_succ. lia. }
    assert (Hp0 : 0 <= p) by (apply Z.div_pos; [lia|apply pow4_pos; lia]).
    unfold slot_ok in Hok. rewrite decide_False in Hok by lia.
    destruct Hok as [[_ ?]|(b & -> & Hb')]; [nia|].
    unfold at_reducer at 1. erewrite bind_inr by by eapply get_child_eq.
    replace (d + 1 - 1) with d in Hb' by lia. by apply IH.
Qed.

(** [at] on a vector whose size is an exact power of WIDTH reached by
    appending raises, at every index. *)
Lemma at_Repr_short lo h v K l key :
  Repr lo h v K l -> len l = 4 ^ (K + 1) -> Forall is_elem l ->
  0 <= key < len l ->
  at_ v key h = (inl AttributeError, h).
Proof.
  intros (pos & rt & HI & Hroot & Hsize & Hlo) Hn Hel Hkey.
  assert (HK : 0 <= K).
  { destruct (inv_node _ _ _ _ _ _ _ HI rt _ _ (inv_root _ _ _ _ _ _ _ HI)). lia. }
  pose proof (pow4_pos (K + 1) ltac:(lia)).
  pose proof (pow4_succ (K + 1) ltac:(lia)).
  destruct (at_walk_short lo rt K l K key h pos K HK HI Hkey rt) as (e & Hrun & He).
  { replace (K + 2) with (K + 1 + 1) by lia. rewrite Z.div_small by lia. by apply HI. }
  assert (Hd : depth v h = (inr (K + 1), h)).
  { apply depth_eq; [lia|]. rewrite Hsize.
    destruct (Z.eqb_spec (len l) 0); [lia|]. apply log4_unique; lia. }
  unfold at_, reduce_node. rewrite Hroot.
  erewrite (bind_inr (bind _ _)); [|by erewrite bind_inr by exact Hd].
  apply bind_inl. unfold get_child. apply bind_inl, children_elem.
  eapply Forall_lookup_1; eauto.
Qed.

End ReadingShort.

(** ** The defect at sizes that are exact powers of WIDTH

    After [WIDTH^k] appends the trie has height [k - 1] but [depth]
    answers [k], so [at] and [pop] descend one level too far. *)

(** C1. [at(append(v, x), i) = at(v, i)] fails for [v = Vector([0,1,2])],
    [x = 3], [i = 0]: reading [v] gives 0, reading the appended vector
    raises [AttributeError]; so does reading the new index 3. *)
Lemma append_at_raises_at_width :
  run (v <- Vector_init (of_list [0; 1; 2]) ;; r <- at_ v 0 ;; ret r.1)
    = inr (SVal 0) /\
  run (v <- Vector_init (of_list [0; 1; 2]) ;; w <- append v (SVal 3) ;;
       r <- at_ w 0 ;; ret r.1) = inl AttributeError /\
  run (v <- Vector_init (of_list [0; 1; 2]) ;; w <- append v (SVal 3) ;;
       r <- at_ w 3 ;; ret r.1) = inl AttributeError.
Proof. repeat split; vm_compute; reflexivity. Qed.

(** C4. [pop(append(v, x))] raises [AttributeError] for the non-empty
    [v = Vector([0,1,2])] and [x = 3], although the append itself returns
    a vector of size 4. *)
Lemma pop_after_append_raises_at_width :
  run (v <- Vector_init (of_list [0; 1; 2]) ;; w <- append v (SVal 3) ;;
       ret (size w)) = inr 4 /\
  run (v <- Vector_init (of_list [0; 1; 2]) ;; w <- append v (SVal 3) ;;
       u <- pop w ;; ret (size u)) = inl AttributeError.
Proof. repeat split; vm_compute; reflexivity. Qed.

(** C6. The depth grows on the append to [Vector([0,1,2])], whose size 3
    is no power of WIDTH, and does not grow on the append to
    [Vector([0,1,2,3])], whose size is WIDTH; popping that vector of size
    WIDTH raises instead of returning a vector one level lower. *)
Lemma depth_grows_before_width :
  run (v <- Vector_init (of_list [0; 1; 2]) ;; w <- append v (SVal 3) ;;
       d <- depth v ;; d' <- depth w ;; ret (size v, d, d')) = inr (3, 0, 1) /\
  is_power_of 3 WIDTH = false /\
  run (v <- Vector_init (of_list [0; 1; 2; 3]) ;; w <- append v (SVal 4) ;;
       d <- depth v ;; d' <- depth w ;; ret (size v, d, d')) = inr (4, 1, 1) /\
  is_power_of 4 WIDTH = true /\
  run (v <- Vector_init (of_list [0; 1; 2; 3]) ;; u <- pop v ;; depth u)
    = inl AttributeError.
Proof. repeat split; vm_compute; reflexivity. Qed.

(** C8. [splice] raises [AttributeError] on [Vector([0,1,2,3])], start 1,
    values [99], instead of returning [0,99,1,2,3]: its reads go through
    [at].  The scenario on [0..5] holds: the result reads
    [0,99,1,2,3,4,5] and sums to 114. *)
Lemma splice_raises_at_width :
  run (v <- Vector_init (of_list [0; 1; 2; 3]) ;; r <- splice v 1 [SVal 99] ;;
       ret (size r.1)) = inl AttributeError /\
  run (v <- Vector_init (of_list [0; 1; 2; 3; 4; 5]) ;;
       r <- splice v 1 [SVal 99] ;;
       l <- read_all r.1 (range 0 (size r.1)) ;;
       x <- reduce sum_slot slot_value r.1 (Some 0) ;;
       ret (l.1, x.1))
    = inr (of_list [0; 99; 1; 2; 3; 4; 5], 114).
Proof. repeat split; vm_compute; reflexivity. Qed.

(** ** Popping the empty vector *)

Section PopEmpty.
Context {T : Type}.
Implicit Types (h : heap T) (v w : @Vector T).

(** C3 (as the code has it). [pop] has no emptiness check and nothing in
    the module raises an underflow error: on a vector of size 0 it
    returns a vector of size -1, in either mode; it is the next [depth]
    on that vector that raises, with [ValueError]. *)
Lemma pop_empty_returns h v a cs :
  size v = 0 -> root v = SRef a -> h !! a = Some cs -> length cs = 4%nat ->
  exists w h', pop v h = (inr w, h') /\ size w = -1 /\
               mutation w = mutation v /\
               depth w h' = (inl ValueError, h').
Proof.
  intros Hsz Hrt Ha Hlen.
  assert (Hd : forall h', depth v h' = (inr 0, h')).
  { intros. apply depth_eq; rewrite Hsz; done. }
  unfold pop. rewrite Hsz, Hrt. simpl.
  change (0 - 1) with (-1). change (leaf_index (-1)) with 3%nat.
  destruct (mutation v) eqn:Hm.
  - erewrite bind_inr by reflexivity.
    unfold reduce_node. erewrite bind_inr; [|by erewrite bind_inr by by apply Hd].
    simpl. erewrite bind_inr by (apply set_child_eq; [done|lia]).
    erewrite bind_inr by reflexivity.
    eexists _, _. split; [done|]. done.
  - erewrite bind_inr.
    2:{ erewrite bind_inr by by apply children_eq. reflexivity. }
    rewrite mk_node_full by lia.
    unfold reduce_node. erewrite bind_inr; [|by erewrite bind_inr by by apply Hd].
    simpl. erewrite bind_inr.
    2:{ apply set_child_eq; [by apply list_lookup_middle|lia]. }
    erewrite bind_inr by reflexivity.
    eexists _, _. split; [done|]. done.
Qed.

End PopEmpty.

Lemma pop_empty_returns_witness :
  exists w h', pop (mkVector (SRef 0%nat) 0 false None) [replicate 4 (@SNone Z)]
               = (inr w, h') /\ size w = -1 /\ mutation w = false /\
               depth w h' = (inl ValueError, h').
Proof.
  apply (pop_empty_returns [replicate 4 SNone] (mkVector (SRef 0%nat) 0 false None)
           0%nat (replicate 4 SNone)); reflexivity.
Defined.

(** C3, counterexample: popping [Vector([])] does not fail. *)
Lemma pop_empty_no_error :
  run (v <- Vector_init (of_list []) ;; w <- pop v ;; ret (size w)) = inr (-1).
Proof. vm_compute; reflexivity. Qed.

(** ** The constructor and the two ways of building a vector *)

Section Constructor.
Context {T : Type}.
Implicit Types (h : heap T) (s : slot T) (l : list (slot T)) (v w : @Vector T).

(** C10. On every list and in every store the constructor returns; the
    vector it returns has the mutation flag [False] and the length of the
    list as its size, so the appends and pops that follow are persistent:
    they leave every node that exists untouched, whether they return or
    raise. *)
Theorem Vector_init_persistent h vals :
  exists v h',
    Vector_init vals h = (inr v, h') /\
    mutation v = false /\
    size v = Z.of_nat (length vals) /\
    (forall x, frame h' (append v x h').2) /\
    frame h' (pop v h').2.
Proof.
  destruct (Vector_init_Repr h vals) as (v & K & h' & Hrun & _ & _ & Hm & Hsz & _).
  exists v, h'. split; [done|]. split; [done|]. split; [done|]. split.
  - intros x. by destruct (append_frame v x h' Hm).
  - by destruct (pop_frame v h' Hm).
Qed.

Lemma elems_are_elems (vals : list (option T)) : Forall is_elem (map elem vals).
Proof. apply Forall_map, Forall_true. by intros []. Qed.

Lemma build_Repr mut h vals :
  exists v K h',
    build mut vals h = (inr v, h') /\
    Repr (length h) h' v K vals /\ hgt K (len vals).
Proof.
  unfold build.
  destruct (Vector_init_Repr h []) as (v0 & K0 & h0 & Hrun0 & HR0 & Hh0 & Hm0 & Hsz0 & Hf0).
  erewrite bind_inr by exact Hrun0.
  assert (HR0' : Repr (length h) h0 (if mut then mutate v0 else v0) K0 []).
  { destruct HR0 as (pos & rt & ?). exists pos, rt. by destruct mut. }
  destruct (append_all_Repr (length h) vals h0 _ K0 [] HR0' Hh0)
    as (w & K & h' & Hrun & HR & Hh & _).
  exists w, K, h'. done.
Qed.

(** What [at] answers on a vector built by appends is a function of the
    list alone. *)
Lemma at_result_Repr lo h v K l key :
  Repr lo h v K l -> hgt K (len l) -> Forall is_elem l -> 0 <= key < len l ->
  at_result v key h =
    if is_power_of (len l) WIDTH then inl AttributeError
    else inr (default SNone (l !! Z.to_nat key)).
Proof.
  intros HR Hh Hel Hkey. pose proof Hh as (HK & Hhi & Hlo).
  unfold at_result. destruct (is_power_of (len l) WIDTH) eqn:Hp.
  - pose proof (hgt_power _ _ Hh Hp) as E.
    by rewrite (at_Repr_short lo h v K l key HR E Hel Hkey).
  - pose proof (hgt_not_power _ _ Hh ltac:(lia) Hp) as Hlt.
    destruct (at_Repr lo h v K l key HR Hh Hlt Hkey) as (s & lf & -> & Hs).
    simpl. by rewrite Hs.
Qed.

(** C5. For every list of elements, the vector built by transient
    appends and the vector built by persistent appends both exist, and
    [at] has the same outcome on the two at every index below the
    length. *)
Theorem transient_persistent_equiv h (vals : list (option T)) :
  exists vt ht vp hp,
    build true (map elem vals) h = (inr vt, ht) /\
    build false (map elem vals) h = (inr vp, hp) /\
    forall i, 0 <= i < Z.of_nat (length vals) ->
      at_result vt i ht = at_result vp i hp.
Proof.
  destruct (build_Repr true h (map elem vals)) as (vt & Kt & ht & Hrt & HRt & Hht).
  destruct (build_Repr false h (map elem vals)) as (vp & Kp & hp & Hrp & HRp & Hhp).
  exists vt, ht, vp, hp. split; [done|]. split; [done|].
  intros i Hi.
  assert (Hi' : 0 <= i < len (map elem vals)).
  { unfold len. by rewrite length_map. }
  rewrite (at_result_Repr _ _ _ _ _ _ HRt Hht (elems_are_elems vals) Hi').
  by rewrite (at_result_Repr _ _ _ _ _ _ HRp Hhp (elems_are_elems vals) Hi').
Qed.

End Constructor.

Lemma transient_persistent_equiv_witness :
  exists vt ht vp hp,
    build true (map elem [Some 7; None; Some 9]) empty_heap = (inr vt, ht) /\
    build false (map elem [Some 7; None; Some 9]) empty_heap = (inr vp, hp) /\
    at_result vt 2 ht = at_result vp 2 hp.
Proof.
  destruct (transient_persistent_equiv empty_heap [Some 7; None; Some 9])
    as (vt & ht & vp & hp & Ht & Hp & Hat).
  exists vt, ht, vp, hp. split; [done|]. split; [done|]. apply Hat. simpl. lia.
Defined.

(** ** Slices *)

Section Slice.
Context {T : Type}.
Implicit Types (h : heap T) (s : slot T) (l : list (slot T)) (v w : @Vector T).

Lemma Repr_same_trie lo h v w K l : same_trie v w -> Repr lo h v K l -> Repr lo h w K l.
Proof.
  intros (Hr & Hs & _) (pos & rt & HI & ? & ? & ?). exists pos, rt.
  rewrite Hr, Hs. done.
Qed.

(** The reading loop of [slice] and [splice] on indices below the size. *)
Lemma read_all_Repr lo h K l keys :
  hgt K (len l) -> len l < 4 ^ (K + 1) ->
  Forall (fun key => 0 <= key < len l) keys ->
  forall v, Repr lo h v K l ->
  exists v',
    read_all v keys h
      = (inr (map (fun key => default SNone (l !! Z.to_nat key)) keys, v'), h) /\
    same_trie v v'.
Proof.
  intros Hh Hlt. induction 1 as [|key keys Hkey _ IH]; intros v HR; simpl.
  - exists v. done.
  - destruct (at_Repr lo h v K l key HR Hh Hlt Hkey) as (s & lf & Hrun & Hs).
    erewrite bind_inr by exact Hrun. simpl.
    destruct (IH (mkVector (root v) (size v) (mutation v) (Some lf))) as (v' & Hrun' & Hsame).
    { by eapply Repr_same_trie. }
    erewrite bind_inr by exact Hrun'. simpl. rewrite Hs. simpl.
    exists v'. done.
Qed.

Lemma range_in start stop key : key ∈ range start stop -> start <= key < stop.
Proof.
  unfold range. intros (i & -> & Hi)%list_elem_of_fmap.
  apply elem_of_seq in Hi. lia.
Qed.

(** Reading a range of indices of a list is taking a sublist. *)
Lemma read_range l start stop :
  0 <= start -> stop <= len l ->
  map (fun key => default SNone (l !! Z.to_nat key)) (range start stop)
  = take (Z.to_nat (stop - start)) (drop (Z.to_nat start) l).
Proof.
  intros Hs He. unfold range, len in *. rewrite map_map.
  apply list_eq. intros i. rewrite list_lookup_fmap.
  destruct (decide (i < Z.to_nat (stop - start))%nat) as [Hi|Hi].
  - rewrite lookup_seq_lt by done. simpl.
    rewrite lookup_take_lt, lookup_drop by done.
    replace (Z.to_nat (start + Z.of_nat i)) with (Z.to_nat start + i)%nat by lia.
    destruct (lookup_lt_is_Some_2 l (Z.to_nat start + i)) as [x Hx]; [lia|].
    by rewrite Hx.
  - rewrite lookup_seq_ge by lia. simpl.
    by rewrite lookup_take_ge by lia.
Qed.

(** C7 (as the code has it).  On a vector built from a list whose length
    is not an exact power of WIDTH, [slice(start, end)] with an explicit
    end is the constructor applied to the elements at the indices
    [start .. end - 1], a negative end standing for [size + end]; an
    omitted end stands for [size + 1], as the docstring of [slice] says,
    and not for [size]; an omitted start is [copy()]. *)
Theorem slice_spec h l (start e : Z) :
  let stop := if e <? 0 then e + len l else e in
  is_power_of (len l) WIDTH = false ->
  0 <= start -> stop <= len l ->
  exists v h1,
    Vector_init l h = (inr v, h1) /\
    (exists v',
       slice v (Some start) (Some e) h1
       = (out <- Vector_init (take (Z.to_nat (stop - start))
                                   (drop (Z.to_nat start) l)) ;;
          ret (out, v')) h1 /\
       same_trie v v') /\
    slice v (Some start) None h1 = slice v (Some start) (Some (len l + 1)) h1 /\
    (forall e', slice v None e' h1 = (out <- copy v ;; ret (out, v)) h1).
Proof.
  intros stop Hp Hstart Hstop.
  destruct (Vector_init_Repr h l) as (v & K & h1 & Hrun & HR & Hh & Hm & Hsz & Hf).
  exists v, h1. split; [done|].
  assert (Hn0 : 0 <= len l) by (unfold len; lia).
  pose proof (hgt_not_power _ _ Hh Hn0 Hp) as Hlt.
  split; [|split].
  - destruct (read_all_Repr (length h) h1 K l (range start stop) Hh Hlt) with (v := v)
      as (v' & Hread & Hsame); [|done|].
    { apply Forall_forall. intros key Hk%range_in. lia. }
    exists v'. split; [|done]. unfold slice. rewrite Hsz. fold stop.
    erewrite bind_inr by exact Hread. simpl.
    by rewrite read_range.
  - unfold slice. rewrite Hsz.
    destruct (Z.ltb_spec (len l + 1) 0); [lia|done].
  - done.
Qed.

End Slice.

Lemma slice_spec_witness :
  exists v h1,
    Vector_init (of_list [0; 1; 2; 3; 4; 5]) empty_heap = (inr v, h1) /\
    (exists v',
       slice v (Some 2) (Some (-1)) h1
       = (out <- Vector_init (of_list [2; 3; 4]) ;; ret (out, v')) h1 /\
       same_trie v v') /\
    slice v (Some 2) None h1 = slice v (Some 2) (Some 7) h1 /\
    (forall e', slice v None e' h1 = (out <- copy v ;; ret (out, v)) h1).
Proof.
  apply (slice_spec empty_heap (of_list [0; 1; 2; 3; 4; 5]) 2 (-1));
    [reflexivity|lia|vm_compute; discriminate].
Defined.

(** C7, counterexample: with the end omitted, [slice(2)] of the vector
    [0..5] has size 5, not 4: it holds 2, 3, 4, 5 and the [None] read at
    index 6 = size.  With the end -1 it holds 2, 3, 4. *)
Lemma slice_default_end_reads_past_size :
  run (v <- Vector_init (of_list [0; 1; 2; 3; 4; 5]) ;;
       r <- slice v (Some 2) None ;;
       l <- read_all r.1 (range 0 (size r.1)) ;; ret (size r.1, l.1))
    = inr (5, [SVal 2; SVal 3; SVal 4; SVal 5; SNone]) /\
  run (v <- Vector_init (of_list [0; 1; 2; 3; 4; 5]) ;;
       r <- slice v (Some 2) (Some (-1)) ;;
       l <- read_all r.1 (range 0 (size r.1)) ;; ret (size r.1, l.1))
    = inr (3, [SVal 2; SVal 3; SVal 4]).
Proof. split; vm_compute; reflexivity. Qed.

(** ** Path copying *)

Section PathCopy.
Context {T : Type}.
Implicit Types (h : heap T) (s : slot T) (cs : node T) (v w : @Vector T).

Lemma copied_prefix h0 h' cs1 cs2 cs' key ls :
  (forall j s, cs1 !! j = Some s -> cs2 !! j = Some s) ->
  copied h0 h' cs2 cs' key ls -> copied h0 h' cs1 cs' key ls.
Proof.
  intros Hpre. destruct ls as [|level ls]; simpl.
  - intros H j s Hj Hs. apply H; auto.
  - intros [H (b' & Hb' & Hfr & Hrec)]. split; [intros j s Hj Hs; apply H; auto|].
    exists b'. split; [done|]. split; [done|].
    intros a ca Ha Hca. apply (Hrec a); auto.
Qed.

Lemma mk_node_lookup cs j s : cs !! j = Some s -> mk_node cs !! j = Some s.
Proof. intros. unfold mk_node. by apply lookup_app_l_Some. Qed.

Lemma bind_inv {A B} (m : M T A) (k : A -> M T B) h r h' :
  bind m k h = (inr r, h') ->
  exists a h1, m h = (inr a, h1) /\ k a h1 = (inr r, h').
Proof.
  unfold bind. destruct (m h) as [[e|a] h1]; [done|]. eauto.
Qed.

Lemma children_inv x h cs h' :
  children x h = (inr cs, h') -> exists a, x = SRef a /\ h !! a = Some cs /\ h' = h.
Proof.
  unfold children. destruct x as [| |a]; try done.
  destruct (h !! a) eqn:E; [|done]. intros [= <- <-]. eauto.
Qed.

Lemma get_child_inv x ix h s h' :
  get_child x ix h = (inr s, h') ->
  exists a cs, x = SRef a /\ h !! a = Some cs /\ cs !! ix = Some s /\ h' = h.
Proof.
  intros (cs & h1 & (a & -> & Ha & ->)%children_inv & Hk)%bind_inv.
  destruct (cs !! ix) eqn:E; [|done]. injection Hk as <- <-. eauto 10.
Qed.

Lemma set_child_inv x ix s h u h' :
  set_child x ix s h = (inr u, h') ->
  exists a cs, x = SRef a /\ h !! a = Some cs /\ (ix < length cs)%nat /\
               h' = <[a := <[ix := s]> cs]> h.
Proof.
  intros (cs & h1 & (a & -> & Ha & ->)%children_inv & Hk)%bind_inv.
  destruct (decide _); [|done]. injection Hk as <- <-. eauto 10.
Qed.

Lemma copy_node_inv x h y h' :
  copy_node x h = (inr y, h') ->
  exists a cs, x = SRef a /\ h !! a = Some cs /\ y = SRef (length h) /\
               h' = h ++ [mk_node cs].
Proof.
  intros (cs & h1 & (a & -> & Ha & ->)%children_inv & Hk)%bind_inv.
  injection Hk as <- <-. eauto 10.
Qed.

(** One level of the persistent descent from the node allocated last. *)
Lemma append_reducer_copy h b cs level ix nd' h1 :
  S b = length h -> h !! b = Some cs ->
  append_reducer false (SRef b) level ix h = (inr nd', h1) ->
  exists c csn,
    cs !! ix = Some c /\ nd' = SRef (length h) /\
    h1 = <[b := <[ix := SRef (length h)]> cs]> (h ++ [csn]) /\
    match c with
    | SRef a => exists ca, h !! a = Some ca /\ csn = mk_node ca
    | _ => True
    end.
Proof.
  intros Hb Hcs Hrun. unfold append_reducer in Hrun.
  apply bind_inv in Hrun as (c & h2 & (? & cs2 & [= <-] & Hcs2 & Hc & ->)%get_child_inv & Hrun).
  assert (cs2 = cs) as -> by congruence.
  assert (Hix : (ix < length cs)%nat) by by eapply lookup_lt_Some.
  assert (forall csn, (set_child (SRef b) ix (SRef (length h));;; get_child (SRef b) ix)
                        (h ++ [csn])
            = (inr (SRef (length h)), <[b := <[ix := SRef (length h)]> cs]> (h ++ [csn])))
    as Hsg.
  { intros. apply set_get_eq; [|done]. rewrite lookup_app_l; [done|lia]. }
  exists c. destruct c as [|t|a].
  - apply bind_inv in Hrun as (a' & h3 & [= <- <-] & Hrun).
    rewrite Hsg in Hrun. injection Hrun as <- <-. eauto.
  - apply bind_inv in Hrun as (c' & h3 & Hcopy & _).
    by apply copy_node_inv in Hcopy as (? & ? & ? & _).
  - apply bind_inv in Hrun as (c' & h3 & (? & ca & [= <-] & Hca & -> & ->)%copy_node_inv & Hrun).
    rewrite Hsg in Hrun. injection Hrun as <- <-. eauto 10.
Qed.

End PathCopy.

Section PathCopy2.
Context {T : Type}.
Implicit Types (h : heap T) (s : slot T) (cs : node T) (v w : @Vector T).

(** The persistent descent from the node allocated last, followed by the
    write of the new element: it writes that node and nodes allocated
    later, and leaves it a copy in the sense of [copied]. *)
Lemma walk_copied h0 key val ls :
  forall h b cs h',
  frame h0 h -> (length h0 <= b)%nat -> S b = length h -> h !! b = Some cs ->
  (lf <- reduce_levels key (append_reducer false) (SRef b) ls ;;
   set_child lf (leaf_index key) val) h = (inr tt, h') ->
  (forall a', (a' < b)%nat -> h' !! a' = h !! a') /\
  (length h <= length h')%nat /\
  exists cs', h' !! b = Some cs' /\ copied h0 h' cs cs' key ls.
Proof.
  induction ls as [|level ls IH]; intros h b cs h' Hf Hb Hlast Hcs Hrun.
  - simpl in Hrun. apply bind_inv in Hrun as (lf & h1 & [= <- <-] & Hset).
    apply set_child_inv in Hset as (? & cs2 & [= <-] & Hcs2 & Hix & ->).
    assert (cs2 = cs) as -> by congruence.
    split; [|split].
    + intros a' Ha'. apply list_lookup_insert_ne. lia.
    + by rewrite length_insert.
    + eexists. split; [apply list_lookup_insert_eq; lia|].
      simpl. intros j s Hj Hs. by rewrite list_lookup_insert_ne.
  - simpl in Hrun.
    apply bind_inv in Hrun as (lf & h2 & Hwalk & Hset).
    apply bind_inv in Hwalk as (nd' & h1 & Hstep & Hwalk).
    destruct (append_reducer_copy h b cs level _ nd' h1 Hlast Hcs Hstep)
      as (c & csn & Hc & -> & -> & Hcase).
    set (nb := length h) in *. set (ix := slot_ix key level) in *.
    assert (Hix : (ix < length cs)%nat) by by eapply lookup_lt_Some.
    set (h1 := <[b := <[ix := SRef nb]> cs]> (h ++ [csn])) in *.
    assert (Hlen1 : length h1 = S nb).
    { unfold h1. rewrite length_insert, length_app. simpl. lia. }
    assert (Hnb : h1 !! nb = Some csn).
    { unfold h1. rewrite list_lookup_insert_ne by lia. by apply list_lookup_middle. }
    assert (Hb1 : h1 !! b = Some (<[ix := SRef nb]> cs)).
    { unfold h1. apply list_lookup_insert_eq. rewrite length_app. lia. }
    assert (Hold : forall a', (a' < b)%nat -> h1 !! a' = h !! a').
    { intros a' Ha'. unfold h1. rewrite list_lookup_insert_ne by lia.
      apply lookup_app_l. lia. }
    destruct (IH h1 nb csn h') as (Hlow & Hlen' & csn' & Hnb' & Hcop).
    { unfold h1. apply frame_write; [by apply frame_alloc|done]. }
    { unfold nb. apply frame_length in Hf. lia. }
    { done. }
    { done. }
    { erewrite bind_inr by exact Hwalk. done. }
    split; [|split].
    + intros a' Ha'. rewrite Hlow by lia. by apply Hold.
    + lia.
    + exists (<[ix := SRef nb]> cs). split; [rewrite Hlow by lia; done|].
      simpl. fold ix. split.
      * intros j s Hj Hs. by rewrite list_lookup_insert_ne.
      * exists nb. split; [by apply list_lookup_insert_eq|].
        split; [apply frame_length in Hf; unfold nb; lia|].
        intros a ca Ha Hca. rewrite Hc in Ha. injection Ha as ->.
        destruct Hcase as (ca2 & Hca2 & ->).
        pose proof (frame_lookup _ _ _ _ Hf Hca) as Hca'.
        assert (ca2 = ca) as -> by congruence.
        exists csn'. split; [done|].
        eapply copied_prefix; [|done]. apply mk_node_lookup.
Qed.

End PathCopy2.

Section PathCopy3.
Context {T : Type}.
Implicit Types (h : heap T) (s : slot T) (cs : node T) (v w : @Vector T).

Lemma copied_ext h0 h' cs cs' key ls (x : node T) :
  copied h0 h' cs cs' key ls -> copied h0 (h' ++ [x]) cs cs' key ls.
Proof.
  revert cs cs'. induction ls as [|level ls IH]; intros cs cs'; simpl; [done|].
  intros [H (b' & Hb' & Hfr & Hrec)]. split; [done|].
  exists b'. split; [done|]. split; [done|].
  intros a ca Ha Hca. destruct (Hrec a ca Ha Hca) as (ca' & Hca' & Hcop).
  exists ca'. split; [by apply lookup_app_l_Some|by apply IH].
Qed.

Lemma depth_inv v h d h' :
  depth v h = (inr d, h') ->
  h' = h /\ 0 <= size v /\
  d = (if size v =? 0 then 0 else Z.log2 (size v) / Z.log2 WIDTH).
Proof.
  unfold depth. destruct (Z.eqb_spec (size v) 0) as [E|E].
  - intros [= <- <-]. split; [done|]. split; [lia|done].
  - destruct (Z.ltb_spec (size v) 0); [done|]. intros [= <- <-].
    split; [done|]. split; [lia|done].
Qed.

Lemma overflow_digit n d :
  is_power_of n WIDTH = true ->
  d = (if n =? 0 then 0 else Z.log2 n / Z.log2 WIDTH) ->
  exists d', 0 <= d' /\ d = d' + 1 /\ slot_ix n d = 1%nat.
Proof.
  intros (k & Hk & ->)%is_power_of_true Hd.
  pose proof (pow4_pos k ltac:(lia)) as Hpos.
  destruct (Z.eqb_spec (4 ^ k) 0); [lia|].
  rewrite (log4_unique (4 ^ k) k) in Hd; [|lia|]; cycle 1.
  { split; [lia|]. rewrite pow4_succ by lia. lia. }
  subst d. exists (k - 1). split; [lia|]. split; [lia|].
  rewrite slot_ix_eq by lia. by rewrite Z.div_same by lia.
Qed.

(** C9 (as the code has it).  In persistent mode [append] modifies no
    node that existed, and the root of the vector it returns is always a
    new node, never the root of the receiver.  Without root overflow the
    new root is a copy of the old one along the path of the new index:
    on every level the slots off that path hold the identical references
    (those subtrees are shared), and the slot on the path refers to a new
    node, again such a copy.  With root overflow slot 0 of the new root
    refers to an untouched copy of the old root, all of whose slots hold
    the references the old root holds. *)
Theorem append_path_copy h v x w h' :
  mutation v = false ->
  append v x h = (inr w, h') ->
  frame h h' /\
  exists a cs r d,
    root v = SRef a /\ h !! a = Some cs /\
    root w = SRef r /\ (length h <= r)%nat /\
    depth v h = (inr d, h) /\
    if is_power_of (size v) WIDTH then
      exists cr rc, h' !! r = Some cr /\ cr !! 0%nat = Some (SRef rc) /\
                    (length h <= rc)%nat /\ h' !! rc = Some (mk_node cs)
    else
      exists cs', h' !! r = Some cs' /\ copied h h' cs cs' (size v) (levels d).
Proof.
  intros Hmut Hrun. split.
  { pose proof (append_frame v x h Hmut) as Hf. unfold wp in Hf.
    rewrite Hrun in Hf. by destruct Hf. }
  unfold append in Hrun. rewrite Hmut in Hrun.
  apply bind_inv in Hrun as (rt1 & h1 & Hroot & Hrun).
  apply bind_inv in Hroot as (cs & ? & (a & Ha & Hcs & ->)%children_inv & Hroot).
  injection Hroot as <- <-.
  apply bind_inv in Hrun as (rt2 & h2 & Hover & Hrun).
  apply bind_inv in Hrun as (lf & h3 & Hwalk & Hrun).
  apply bind_inv in Hrun as ([] & h4 & Hset & Hcreate).
  unfold create in Hcreate. injection Hcreate as <- <-.
  unfold reduce_node in Hwalk.
  apply bind_inv in Hwalk as (d & ? & (-> & Hsz & Hd)%depth_inv & Hwalk).
  assert (Hdepth : depth v h = (inr d, h)) by by apply depth_eq.
  assert (Hboth : (lf0 <- reduce_levels (size v) (append_reducer false) rt2 (levels d);;
                   set_child lf0 (leaf_index (size v)) x) h2 = (inr tt, h4)).
  { by erewrite bind_inr by exact Hwalk. }
  assert (E1 : length (h ++ [mk_node cs]) = S (length h)).
  { rewrite length_app. simpl. lia. }
  assert (Hm1 : (h ++ [mk_node cs]) !! length h = Some (mk_node cs)).
  { by apply list_lookup_middle. }
  exists a, cs. destruct (is_power_of (size v) WIDTH) eqn:Hp.
  - injection Hover as <- <-. rewrite E1 in *.
    destruct (overflow_digit _ _ Hp Hd) as (d' & Hd' & -> & Hix).
    rewrite levels_succ in Hboth by done.
    assert (Hm2 : ((h ++ [mk_node cs]) ++ [mk_node [SRef (length h)]]) !! S (length h)
                  = Some (mk_node [SRef (length h)])).
    { rewrite <- E1. by apply list_lookup_middle. }
    assert (Hf2 : frame h ((h ++ [mk_node cs]) ++ [mk_node [SRef (length h)]])).
    { by apply frame_alloc, frame_alloc. }
    assert (Hl2 : S (S (length h))
                  = length ((h ++ [mk_node cs]) ++ [mk_node [SRef (length h)]])).
    { rewrite !length_app. simpl. lia. }
    destruct (walk_copied h (size v) x _ _ (S (length h)) _ _ Hf2 ltac:(lia) Hl2 Hm2 Hboth)
      as (Hlow & Hlen & cr & Hcr & Hcop).
    exists (S (length h)), (d' + 1). do 2 (split; [done|]). simpl.
    split; [done|]. split; [lia|]. split; [done|].
    exists cr, (length h). split; [|split; [|split; [done|]]].
    + by apply lookup_app_l_Some.
    + destruct Hcop as [Hoff _]. apply Hoff; [by rewrite Hix|done].
    + apply lookup_app_l_Some. rewrite Hlow by lia.
      by apply lookup_app_l_Some.
  - injection Hover as <- <-.
    assert (Hf1 : frame h (h ++ [mk_node cs])) by by apply frame_alloc.
    destruct (walk_copied h (size v) x _ _ (length h) _ _ Hf1 ltac:(lia) (eq_sym E1) Hm1 Hboth)
      as (Hlow & Hlen & cs' & Hcs' & Hcop).
    exists (length h), d. do 2 (split; [done|]). simpl.
    do 3 (split; [done|]).
    exists cs'. split; [by apply lookup_app_l_Some|].
    apply copied_ext. eapply copied_prefix; [|done]. apply mk_node_lookup.
Qed.

End PathCopy3.

Lemma vector6_built :
  Vector_init (of_list [0; 1; 2; 3; 4; 5]) empty_heap = (inr vector6, store6).
Proof. vm_compute; reflexivity. Qed.

Lemma append_path_copy_witness :
  mutation vector6 = false /\
  exists w h',
    append vector6 (SVal 6) store6 = (inr w, h') /\
    frame store6 h' /\
    exists a cs r d,
      root vector6 = SRef a /\ store6 !! a = Some cs /\
      root w = SRef r /\ (length store6 <= r)%nat /\
      depth vector6 store6 = (inr d, store6) /\
      exists cs', h' !! r = Some cs' /\ copied store6 h' cs cs' 6 (levels d).
Proof.
  split; [reflexivity|]. eexists _, _. split; [vm_compute; reflexivity|].
  apply (append_path_copy store6 vector6 (SVal 6)); [reflexivity|vm_compute; reflexivity].
Defined.

(** C9, counterexample: index 0 of [v = Vector([0])] is not affected by
    [w = append(v, 1)] and the root of [v] is on its path, yet the root of
    [w] is another node: [append] copies the root before anything else. *)
Lemma append_root_is_copied :
  run (v <- Vector_init (of_list [0]) ;; w <- append v (SVal 1) ;;
       r <- at_ v 0 ;; r' <- at_ w 0 ;;
       ret (r.1, r'.1, root v, root w))
    = inr (SVal 0, SVal 0, SRef 0%nat, SRef 1%nat).
Proof. vm_compute; reflexivity. Qed.

(** ** Operations that only read, and what a frame preserves *)

Section Reads.
Context {T : Type}.
Implicit Types (h : heap T) (s x : slot T) (v w : @Vector T).

Lemma get_child_pure x ix h : (get_child x ix h).2 = h.
Proof. by apply (wp_get_child x ix h (fun _ h' => h' = h)). Qed.

Lemma wp_pure {A} (m : M T A) h (Q : error + A -> heap T -> Prop) :
  (m h).2 = h -> (forall r, Q r h) -> wp m h Q.
Proof. unfold wp. intros -> H. apply H. Qed.

Lemma at_pure v key h : (at_ v key h).2 = h.
Proof.
  change (wp (at_ v key) h (fun _ h' => h' = h)).
  unfold at_. apply wp_bind.
  eapply wp_mono.
  { apply (wp_reduce_node (fun _ h' => h' = h) (fun h' => h' = h)); [|done..].
    intros st level ix h1 ->. unfold at_reducer.
    apply wp_pure; [apply get_child_pure|]. by intros []. }
  intros [e|lf] h1 ->; [done|].
  apply wp_bind, wp_pure; [apply get_child_pure|]. by intros [].
Qed.

Lemma read_all_pure keys : forall v h, (read_all v keys h).2 = h.
Proof.
  induction keys as [|key keys IH]; intros v h; [done|]. simpl.
  unfold bind at 1. pose proof (at_pure v key h) as Hat.
  destruct (at_ v key h) as [[e|r] h1]; simpl in Hat; subst h1; [done|].
  unfold bind at 1. specialize (IH r.2 h).
  destruct (read_all r.2 keys h) as [[e|rs] h1]; simpl in IH; subst h1; done.
Qed.

Lemma for_each_loop_pure {S} (func : S -> slot T -> Z -> S) keys :
  forall acc v h, (for_each_loop func acc v keys h).2 = h.
Proof.
  induction keys as [|key keys IH]; intros acc v h; [done|]. simpl.
  destruct (if Nat.eqb (leaf_index key) 0 then None else leaf v) as [lf|].
  - unfold bind at 1. pose proof (get_child_pure lf (leaf_index key) h) as Hg.
    destruct (get_child lf (leaf_index key) h) as [[e|c] h1]; simpl in Hg; subst h1;
      [done|apply IH].
  - unfold bind at 1. pose proof (at_pure v key h) as Hat.
    destruct (at_ v key h) as [[e|r] h1]; simpl in Hat; subst h1; [done|apply IH].
Qed.

Lemma for_each_pure {S} (func : S -> slot T -> Z -> S) acc v start stop h :
  (for_each func acc v start stop h).2 = h.
Proof. apply for_each_loop_pure. Qed.

Lemma reduce_pure {S} (func : S -> slot T -> S) inj v init h :
  (reduce func inj v init h).2 = h.
Proof.
  unfold reduce. destruct init; [apply for_each_pure|].
  unfold bind. pose proof (at_pure v 0 h) as Hat.
  destruct (at_ v 0 h) as [[e|r] h1]; simpl in Hat; subst h1; [done|].
  apply for_each_pure.
Qed.

Lemma Vector_init_frame vals h : frame h (Vector_init vals h).2.
Proof.
  destruct (Vector_init_Repr h vals) as (v & K & h' & -> & _ & _ & _ & _ & Hf). done.
Qed.

Lemma splice_frame v start vals h : frame h (splice v start vals h).2.
Proof.
  unfold splice. unfold bind at 1. pose proof (read_all_pure (range 0 start) v h) as H1.
  destruct (read_all v (range 0 start) h) as [[e|r1] h1]; simpl in H1; subst h1; [done|].
  unfold bind at 1. pose proof (read_all_pure (range start (size v)) r1.2 h) as H2.
  destruct (read_all r1.2 _ h) as [[e|r2] h2]; simpl in H2; subst h2; [done|].
  unfold bind. pose proof (Vector_init_frame (r1.1 ++ vals ++ r2.1) h) as H3.
  destruct (Vector_init _ h) as [[e|out] h3]; done.
Qed.

Lemma slice_frame v start stop h : mutation v = false -> frame h (slice v start stop h).2.
Proof.
  intros Hm. unfold slice. destruct start as [start|].
  - unfold bind at 1.
    match goal with |- context [read_all v ?ks h] =>
      pose proof (read_all_pure ks v h) as H1;
      destruct (read_all v ks h) as [[e|r1] h1] end;
    simpl in H1; subst h1; [done|].
    unfold bind. pose proof (Vector_init_frame r1.1 h) as H3.
    destruct (Vector_init _ h) as [[e|out] h3]; done.
  - unfold bind. pose proof (copy_frame v h Hm) as Hc. unfold wp in Hc.
    destruct (copy v h) as [[e|out] h1]; simpl in *; by destruct Hc.
Qed.

(** A read that does not run into an address outside the store has the
    same outcome in every store that extends it. *)
Lemma get_child_frame x ix h h' :
  frame h h' -> (get_child x ix h).1 <> inl Dangling ->
  (get_child x ix h').1 = (get_child x ix h).1.
Proof.
  intros Hf. unfold get_child, bind, children. destruct x as [| |a]; try done.
  destruct (h !! a) as [cs|] eqn:E; [|done].
  rewrite (frame_lookup _ _ _ _ Hf E). by destruct (cs !! ix).
Qed.

Lemma at_walk_frame key h h' ls :
  frame h h' ->
  forall nd,
  (reduce_levels key at_reducer nd ls h).1 <> inl Dangling ->
  (reduce_levels key at_reducer nd ls h').1 = (reduce_levels key at_reducer nd ls h).1.
Proof.
  intros Hf. induction ls as [|level ls IH]; intros nd; [done|]. simpl.
  unfold bind, at_reducer.
  pose proof (get_child_frame nd (slot_ix key level) h h' Hf) as Hg.
  pose proof (get_child_pure nd (slot_ix key level) h) as Hp.
  pose proof (get_child_pure nd (slot_ix key level) h') as Hp'.
  destruct (get_child nd (slot_ix key level) h) as [[e|c] h1];
    destruct (get_child nd (slot_ix key level) h') as [[e'|c'] h1'];
    simpl in *; subst h1 h1'; intros Hnd.
  - apply Hg. congruence.
  - specialize (Hg ltac:(congruence)). done.
  - specialize (Hg ltac:(congruence)). done.
  - specialize (Hg ltac:(congruence)). injection Hg as ->. by apply IH.
Qed.

Lemma at_walk_pure key ls : forall nd h, (reduce_levels key at_reducer nd ls h).2 = h.
Proof.
  induction ls as [|l ls IH]; intros nd h; [done|].
  simpl. unfold bind, at_reducer. pose proof (get_child_pure nd (slot_ix key l) h) as Hq.
  destruct (get_child nd (slot_ix key l) h) as [[e|c] h1]; simpl in Hq; subst h1;
    [done|apply IH].
Qed.

Lemma depth_indep v h h' : depth v h' = ((depth v h).1, h').
Proof. unfold depth. by destruct (size v =? 0), (size v <? 0). Qed.

Lemma at_result_frame v key h h' :
  frame h h' -> at_result v key h <> inl Dangling ->
  at_result v key h' = at_result v key h.
Proof.
  intros Hf. unfold at_result, at_, reduce_node.
  unfold bind. rewrite (depth_indep v h h), (depth_indep v h h').
  destruct (depth v h).1 as [e|d]; [done|].
  set (ls := levels d).
  pose proof (at_walk_frame key h h' ls Hf (root v)) as Hw.
  pose proof (at_walk_pure key ls (root v) h) as Hph.
  pose proof (at_walk_pure key ls (root v) h') as Hph'.
  destruct (reduce_levels key at_reducer (root v) ls h) as [[e|lf] h1];
    destruct (reduce_levels key at_reducer (root v) ls h') as [[e'|lf'] h1'];
    cbn [fst snd] in *; subst h1 h1'; intros Hnd.
  - specialize (Hw ltac:(congruence)). congruence.
  - specialize (Hw ltac:(congruence)). congruence.
  - specialize (Hw ltac:(congruence)). congruence.
  - specialize (Hw ltac:(congruence)). injection Hw as ->.
    pose proof (get_child_frame lf (leaf_index key) h h' Hf) as Hg.
    destruct (get_child lf (leaf_index key) h) as [[e|c] h1];
      destruct (get_child lf (leaf_index key) h') as [[e'|c'] h1'];
      simpl in *; specialize (Hg ltac:(congruence)); congruence.
Qed.

End Reads.

(** ** Persistence and [concat]

    [concat] appends in place to a copy of its receiver, and [copy]
    copies the path of the next index only.  A [pop] that empties a
    subtree leaves its node in place, so two vectors can share such a
    node to the right of their elements; what one [concat] then appends
    under it, a later [concat] on the other vector overwrites.  Below
    [r = concat(v31, v32)] is read before and after [concat(v32, v33)]:
    the receiver [v32] reads the same, but [r] reads differently at the
    indices 36 and 40. *)
Lemma concat_overwrites_published_vector :
  run (v33 <- Vector_init (of_list (map Z.of_nat (seq 0 33))) ;;
       v32 <- pop v33 ;;
       v31 <- pop v32 ;;
       r <- concat v31 [v32] ;;
       before <- read_all r [35; 36; 40] ;;
       before32 <- read_all v32 [0; 15; 31] ;;
       w <- concat v32 [v33] ;;
       after <- read_all r [35; 36; 40] ;;
       after32 <- read_all v32 [0; 15; 31] ;;
       ret (before.1, after.1, before32.1, after32.1))
  = inr (of_list [4; 5; 9], of_list [4; 4; 8],
         of_list [0; 15; 31], of_list [0; 15; 31]).
Proof. vm_compute; reflexivity. Qed.

Section ReceiverUnchanged.
Context {T S : Type}.
Implicit Types (h : heap T) (v : @Vector T).

(** Every operation but [concat] leaves its persistent receiver as it
    was, on every store and whether it returns or raises: what [at]
    answers at any index is the same afterwards.  (An [at] that would run
    into an address outside the store is left out: no Python state has
    one.)  For [concat] see [concat_overwrites_published_vector]. *)
Lemma operations_leave_receiver v h key :
  mutation v = false ->
  at_result v key h <> inl Dangling ->
  (forall x, at_result v key (append v x h).2 = at_result v key h) /\
  at_result v key (pop v h).2 = at_result v key h /\
  at_result v key (copy v h).2 = at_result v key h /\
  (forall start vals,
     at_result v key (splice v start vals h).2 = at_result v key h) /\
  (forall start stop,
     at_result v key (slice v start stop h).2 = at_result v key h) /\
  (forall (f : S -> slot T -> Z -> S) acc start stop,
     at_result v key (for_each f acc v start stop h).2 = at_result v key h) /\
  (forall (f : S -> slot T -> S) inj init,
     at_result v key (reduce f inj v init h).2 = at_result v key h).
Proof.
  intros Hm Hnd.
  assert (Hfr : forall h', frame h h' -> at_result v key h' = at_result v key h).
  { intros h' Hf. by apply at_result_frame. }
  repeat split.
  - intros x. apply Hfr. by destruct (append_frame v x h Hm).
  - apply Hfr. by destruct (pop_frame v h Hm).
  - apply Hfr. by destruct (copy_frame v h Hm).
  - intros. apply Hfr, splice_frame.
  - intros. by apply Hfr, slice_frame.
  - intros. by rewrite for_each_pure.
  - intros. by rewrite reduce_pure.
Qed.

End ReceiverUnchanged.

Section Unreadable.
Context {T : Type}.
Implicit Types (h : heap T) (l : list (slot T)) (v : @Vector T).

(** The defect in general: what [at] answers on the vector the
    constructor builds from a list of elements.  It is the element at the
    index, unless the length of the list is an exact power of WIDTH: then
    every read raises. *)
Lemma Vector_init_reads h l key :
  Forall is_elem l -> 0 <= key < len l ->
  exists v h',
    Vector_init l h = (inr v, h') /\
    at_result v key h' =
      if is_power_of (len l) WIDTH then inl AttributeError
      else inr (default SNone (l !! Z.to_nat key)).
Proof.
  intros Hel Hkey.
  destruct (Vector_init_Repr h l) as (v & K & h' & Hrun & HR & Hh & _).
  exists v, h'. split; [done|]. by eapply at_result_Repr.
Qed.

End Unreadable.

(** ** Depth and index digits *)

Section DepthSpec.
Context {T : Type}.
Implicit Types (h : heap T) (v : @Vector T).


End DepthSpec.

(** ** What the reading operations leave alone *)

Section ReadOnly.
Context {T : Type}.
Implicit Types (h : heap T) (s x : slot T) (v w : @Vector T).

Lemma same_trie_refl v : same_trie v v.
Proof. done. Qed.

Lemma same_trie_trans v w u : same_trie v w -> same_trie w u -> same_trie v u.
Proof. unfold same_trie. intros (? & ? & ?) (? & ? & ?). split_and!; congruence. Qed.

Lemma at_same_trie v key h r h' : at_ v key h = (inr r, h') -> same_trie v r.2.
Proof.
  unfold at_. intros (lf & h1 & _ & (val & h2 & _ & [= <- _])%bind_inv)%bind_inv.
  done.
Qed.

Lemma for_each_loop_same_trie {S} (func : S -> slot T -> Z -> S) keys :
  forall acc v h r h',
  for_each_loop func acc v keys h = (inr r, h') -> same_trie v r.2.
Proof.
  induction keys as [|key keys IH]; intros acc v h r h'; simpl.
  - by intros [= <- _].
  - destruct (if Nat.eqb (leaf_index key) 0 then None else leaf v) as [lf|].
    + intros (c & h1 & _ & Hk)%bind_inv. by eapply IH.
    + intros (c & h1 & Hat%at_same_trie & Hk)%bind_inv.
      eapply same_trie_trans; [done|]. by eapply IH.
Qed.

Lemma for_each_same_trie {S} (func : S -> slot T -> Z -> S) acc v start stop h r h' :
  for_each func acc v start stop h = (inr r, h') -> same_trie v r.2.
Proof.
  unfold for_each. intros Hr%for_each_loop_same_trie.
  destruct Hr as (? & ? & ?). done.
Qed.

(** [at], [for_each] and [reduce] are read-only: they leave every node
    of the store as it was, whether they return or raise, and the
    receiver they leave behind has the same root, size and mode; only
    its leaf cache may differ. *)
Theorem reads_change_only_leaf_cache {S} v h :
  (forall key,
     (at_ v key h).2 = h /\
     forall r, (at_ v key h).1 = inr r -> same_trie v r.2) /\
  (forall (f : S -> slot T -> Z -> S) acc start stop,
     (for_each f acc v start stop h).2 = h /\
     forall r, (for_each f acc v start stop h).1 = inr r -> same_trie v r.2) /\
  (forall (f : S -> slot T -> S) inj init,
     (reduce f inj v init h).2 = h /\
     forall r, (reduce f inj v init h).1 = inr r -> same_trie v r.2).
Proof.
  split; [|split].
  - intros key. split; [apply at_pure|]. intros r Hr.
    eapply (at_same_trie v key h r). by apply injective_projections.
  - intros f acc start stop. split; [apply for_each_pure|]. intros r Hr.
    eapply (for_each_same_trie f acc v start stop h r). by apply injective_projections.
  - intros f inj init. split; [apply reduce_pure|]. intros r Hr.
    assert (Hrun : reduce f inj v init h = (inr r, (reduce f inj v init h).2))
      by by apply injective_projections.
    revert Hrun. generalize (reduce f inj v init h).2. intros h'. unfold reduce.
    destruct init as [a|].
    + apply for_each_same_trie.
    + intros (r0 & h1 & Hat%at_same_trie & Hk%for_each_same_trie)%bind_inv.
      by eapply same_trie_trans.
Qed.

End ReadOnly.

(** ** Persistent operations on any vector *)

Lemma operations_leave_receiver_witness :
  mutation vector6 = false /\
  at_result vector6 2 store6 <> inl Dangling /\
  at_result vector6 2 (pop vector6 store6).2 = at_result vector6 2 store6 /\
  at_result vector6 2 (copy vector6 store6).2 = at_result vector6 2 store6.
Proof.
  assert (Hm : mutation vector6 = false) by reflexivity.
  assert (Hd : at_result vector6 2 store6 <> inl Dangling) by (vm_compute; discriminate).
  split; [exact Hm|]. split; [exact Hd|].
  destruct (@operations_leave_receiver Z Z vector6 store6 2 Hm Hd)
    as (_ & Hpop & Hcopy & _).
  split; [exact Hpop|exact Hcopy].
Defined.

Lemma Vector_init_reads_witness :
  exists v h',
    Vector_init (of_list [10; 11; 12; 13; 14]) empty_heap = (inr v, h') /\
    at_result v 4 h' = inr (SVal 14).
Proof.
  apply (Vector_init_reads empty_heap (of_list [10; 11; 12; 13; 14]) 4).
  - repeat constructor.
  - unfold len. simpl. lia.
Defined.

Section PersistentResults.
Context {T : Type}.
Implicit Types (h : heap T) (s x : slot T) (v w : @Vector T).

(** In persistent mode [append], [pop] and [copy] never write a node
    that exists, whether they return or raise: the store before is a
    prefix of the store after.  What they return is again persistent;
    [append] returns a vector one larger whose root is a new node, [pop]
    one that is one smaller (below zero on an empty vector), and [copy]
    one of the same size. *)
Theorem persistent_results v h :
  mutation v = false ->
  (forall x,
     frame h (append v x h).2 /\
     forall w, (append v x h).1 = inr w ->
       size w = size v + 1 /\ mutation w = false /\ fresh h (root w)) /\
  (frame h (pop v h).2 /\
   forall w, (pop v h).1 = inr w -> size w = size v - 1 /\ mutation w = false) /\
  (frame h (copy v h).2 /\
   forall w, (copy v h).1 = inr w -> size w = size v /\ mutation w = false).
Proof.
  intros Hm. split; [|split].
  - intros x. pose proof (append_frame v x h Hm) as H. unfold wp in H.
    destruct H as [Hf H]. split; [done|]. intros w Hw. rewrite Hw in H. tauto.
  - pose proof (pop_frame v h Hm) as H. unfold wp in H.
    destruct H as [Hf H]. split; [done|]. intros w Hw. by rewrite Hw in H.
  - pose proof (copy_frame v h Hm) as H. unfold wp in H.
    destruct H as [Hf H]. split; [done|]. intros w Hw. by rewrite Hw in H.
Qed.

End PersistentResults.

Lemma persistent_results_witness :
  mutation vector6 = false /\
  frame store6 (pop vector6 store6).2 /\
  forall w, (pop vector6 store6).1 = inr w -> size w = 5 /\ mutation w = false.
Proof.
  assert (Hm : mutation vector6 = false) by reflexivity.
  split; [exact Hm|].
  exact (proj1 (proj2 (persistent_results vector6 store6 Hm))).
Defined.

(** ** Appending to and splicing a vector built by the constructor *)

Section BuiltVectors.
Context {T : Type}.
Implicit Types (h : heap T) (s x : slot T) (l : list (slot T)) (v w : @Vector T).

Lemma Forall_is_elem_app l x : Forall is_elem l -> is_elem x -> Forall is_elem (l ++ [x]).
Proof. intros. apply Forall_app. by repeat constructor. Qed.

(** The indexed round trip as the code has it.  On the vector [v] the
    constructor builds from a list of elements, a persistent [append]
    returns a persistent vector [w] one larger.  [at] on [w] returns the
    elements of the list and then the appended one, unless the new size
    is an exact power of WIDTH, where every read of [w] raises; and [v]
    reads afterwards as it did before (its elements, unless its own size
    is an exact power of WIDTH). *)
Theorem append_round_trip h l x :
  Forall is_elem l -> is_elem x ->
  exists v h1 w h2,
    Vector_init l h = (inr v, h1) /\
    append v x h1 = (inr w, h2) /\
    size w = len l + 1 /\ mutation w = false /\
    (forall i, 0 <= i < len l + 1 ->
       at_result w i h2 =
         if is_power_of (len l + 1) WIDTH then inl AttributeError
         else inr (default SNone ((l ++ [x]) !! Z.to_nat i))) /\
    (forall i, 0 <= i < len l ->
       at_result v i h2 = at_result v i h1 /\
       at_result v i h1 =
         if is_power_of (len l) WIDTH then inl AttributeError
         else inr (default SNone (l !! Z.to_nat i))).
Proof.
  intros Hel Hx.
  destruct (Vector_init_Repr h l) as (v & K & h1 & Hrun & HR & Hh & Hm & Hsz & Hf).
  destruct (append_Repr (length h) h1 v K l x HR Hh)
    as (w & K' & h2 & Happ & HR' & Hh' & Hm' & Hag).
  exists v, h1, w, h2. split; [done|]. split; [done|].
  assert (Hszw : size w = len l + 1).
  { destruct HR' as (? & ? & _ & _ & -> & _). apply len_app. }
  split; [done|]. split; [congruence|]. split.
  - intros i Hi. rewrite <- (len_app l x) in Hi, Hh' |- *.
    apply (at_result_Repr (length h) h2 w K'); [done..| |done].
    by apply Forall_is_elem_app.
  - intros i Hi.
    assert (Hat : at_result v i h1 =
      if is_power_of (len l) WIDTH then inl AttributeError
      else inr (default SNone (l !! Z.to_nat i))).
    { by apply (at_result_Repr (length h) h1 v K). }
    split; [|done].
    pose proof (append_frame v x h1 Hm) as Hfr. unfold wp in Hfr.
    rewrite Happ in Hfr. destruct Hfr as [Hfr _]. simpl in Hfr.
    apply at_result_frame; [done|]. rewrite Hat. by destruct (is_power_of _ _).
Qed.

(** [splice] on the vector the constructor builds from a list whose
    length is not an exact power of WIDTH, at a position within the
    vector: it is the constructor applied to the elements before the
    position, then the given values, then the remaining elements.  The
    receiver keeps its trie. *)
Theorem splice_spec h l start vals :
  is_power_of (len l) WIDTH = false -> 0 <= start <= len l ->
  exists v h1 v',
    Vector_init l h = (inr v, h1) /\
    splice v start vals h1
      = (out <- Vector_init (take (Z.to_nat start) l ++ vals
                               ++ drop (Z.to_nat start) l) ;;
         ret (out, v')) h1 /\
    same_trie v v'.
Proof.
  intros Hp Hstart.
  destruct (Vector_init_Repr h l) as (v & K & h1 & Hrun & HR & Hh & Hm & Hsz & Hf).
  assert (Hn0 : 0 <= len l) by (unfold len; lia).
  pose proof (hgt_not_power _ _ Hh Hn0 Hp) as Hlt.
  destruct (read_all_Repr (length h) h1 K l (range 0 start) Hh Hlt) with (v := v)
    as (v1 & Hread1 & Hsame1); [|done|].
  { apply Forall_forall. intros key Hk%range_in. lia. }
  destruct (read_all_Repr (length h) h1 K l (range start (len l)) Hh Hlt) with (v := v1)
    as (v2 & Hread2 & Hsame2); [|by eapply Repr_same_trie|].
  { apply Forall_forall. intros key Hk%range_in. lia. }
  exists v, h1, v2. split; [done|]. split.
  - unfold splice. rewrite Hsz.
    erewrite bind_inr by exact Hread1. simpl.
    erewrite bind_inr by exact Hread2. simpl.
    rewrite !read_range by lia.
    replace (start - 0) with start by lia. rewrite drop_0.
    rewrite (take_ge (drop _ l)); [done|].
    rewrite length_drop. unfold len. lia.
  - destruct Hsame1 as (? & ? & ?), Hsame2 as (? & ? & ?).
    unfold same_trie. split_and!; congruence.
Qed.

End BuiltVectors.

Lemma append_round_trip_witness :
  exists v h1 w h2,
    Vector_init (of_list [0; 1; 2; 3; 4]) empty_heap = (inr v, h1) /\
    append v (SVal 5) h1 = (inr w, h2) /\
    size w = 6 /\ mutation w = false /\
    (forall i, 0 <= i < 6 ->
       at_result w i h2 = inr (default SNone (of_list [0; 1; 2; 3; 4; 5] !! Z.to_nat i))) /\
    (forall i, 0 <= i < 5 ->
       at_result v i h2 = at_result v i h1 /\
       at_result v i h1 = inr (default SNone (of_list [0; 1; 2; 3; 4] !! Z.to_nat i))).
Proof.
  apply (append_round_trip empty_heap (of_list [0; 1; 2; 3; 4]) (SVal 5)).
  - repeat constructor.
  - exact I.
Defined.

Lemma splice_spec_witness :
  exists v h1 v',
    Vector_init (of_list [0; 1; 2; 3; 4; 5]) empty_heap = (inr v, h1) /\
    splice v 1 [SVal 99] h1
      = (out <- Vector_init (of_list [0; 99; 1; 2; 3; 4; 5]) ;; ret (out, v')) h1 /\
    same_trie v v'.
Proof.
  apply (splice_spec empty_heap (of_list [0; 1; 2; 3; 4; 5]) 1 [SVal 99]).
  - reflexivity.
  - unfold len. simpl. lia.
Defined.

(** ** Iteration: [for_each] and [reduce] *)

Section Iteration.
Context {T : Type}.
Implicit Types (h : heap T) (s x : slot T) (l : list (slot T))
  (pos : gmap addr (Z * Z)) (v w : @Vector T).

Lemma range_cons start stop :
  start < stop -> range start stop = start :: range (start + 1) stop.
Proof.
  intros Hlt. unfold range.
  replace (Z.to_nat (stop - start)) with (S (Z.to_nat (stop - (start + 1)))) by lia.
  simpl. f_equal; [lia|]. rewrite <- fmap_S_seq, <- list_fmap_compose.
  apply list_fmap_ext. intros _ i _. simpl. lia.
Qed.

Lemma range_nil start stop : stop <= start -> range start stop = [].
Proof. intros. unfold range. by replace (Z.to_nat (stop - start)) with 0%nat by lia. Qed.

Lemma Inv_height lo h pos rt K l lev : Inv lo h pos rt K l lev -> 0 <= K.
Proof.
  intros HI.
  destruct (inv_node _ _ _ _ _ _ _ HI rt _ _ (inv_root _ _ _ _ _ _ _ HI)). lia.
Qed.

(** Reading a slot of the leaf that covers an index. *)
Lemma leaf_read lo h pos rt K l lev b key :
  Inv lo h pos rt K l lev -> pos !! b = Some (0, key / 4) -> 0 <= key ->
  get_child (SRef b) (leaf_index key) h
    = (inr (default SNone (l !! Z.to_nat key)), h).
Proof.
  intros HI Hb Hkey.
  destruct (inv_node _ _ _ _ _ _ _ HI b _ _ Hb) as (_ & _ & _ & cs & Hcs & Hlen & _).
  assert (Hr : 0 <= key mod 4 < 4) by (apply Z.mod_pos_bound; lia).
  destruct (Inv_child _ _ _ _ _ _ _ b _ _ cs (Z.to_nat (key mod 4)) HI Hb Hcs ltac:(lia))
    as (s & Hs & Hok).
  pose proof (Z.div_mod key 4 ltac:(lia)).
  replace (4 * (key / 4) + Z.of_nat (Z.to_nat (key mod 4))) with key in Hok by lia.
  unfold slot_ok in Hok. simpl in Hok. subst s.
  rewrite leaf_index_eq. by eapply get_child_eq.
Qed.

Lemma depth_bounds v h d :
  depth v h = (inr d, h) -> 0 <= d /\ size v < 4 ^ (d + 1) /\ (0 < size v -> 4 ^ d <= size v).
Proof.
  unfold depth. change (Z.log2 WIDTH) with 2.
  destruct (Z.eqb_spec (size v) 0) as [E|E].
  { intros [= <-]. rewrite E. split_and!; [lia|done|lia]. }
  destruct (Z.ltb_spec (size v) 0); [done|]. intros Hq.
  assert (d = Z.log2 (size v) / 2) as ->.
  { by apply (f_equal fst) in Hq; simpl in Hq; injection Hq. }
  clear Hq.
  set (sz := size v) in *. set (L := Z.log2 sz).
  assert (Hn : 0 < sz) by lia.
  pose proof (Z.log2_nonneg sz) as HL. fold L in HL.
  destruct (Z.log2_spec sz Hn) as [Hlo Hhi]. fold L in Hlo, Hhi.
  pose proof (Z.div_mod L 2 ltac:(lia)) as Hdm.
  pose proof (Z.mod_pos_bound L 2 ltac:(lia)) as Hm.
  set (d := L / 2) in *.
  assert (Hd : 0 <= d) by lia.
  assert (E4 : forall j, 0 <= j -> 4 ^ j = 2 ^ (2 * j)).
  { intros. by rewrite Z.pow_mul_r by lia. }
  split; [done|]. split.
  - rewrite E4 by lia. eapply Z.lt_le_trans; [exact Hhi|]. apply Z.pow_le_mono_r; lia.
  - intros _. rewrite E4 by lia. etrans; [|exact Hlo]. apply Z.pow_le_mono_r; lia.
Qed.

(** [at] on a trie whose height is the depth of its size: the element,
    and the leaf that covers the index as the new cache. *)
Lemma at_Inv lo h pos rt K l lev v key :
  Inv lo h pos rt K l lev -> root v = SRef rt -> size v = len l ->
  depth v h = (inr K, h) ->
  0 <= key < len l ->
  exists b,
    at_ v key h
      = (inr (default SNone (l !! Z.to_nat key),
              mkVector (root v) (size v) (mutation v) (Some (SRef b))), h) /\
    pos !! b = Some (0, key / 4).
Proof.
  intros HI Hroot Hsz Hd Hkey. pose proof (Inv_height _ _ _ _ _ _ _ HI) as HK.
  destruct (depth_bounds v h K Hd) as (_ & Hup & _).
  destruct (at_walk lo rt K l lev key h pos K HK HI Hkey rt) as (b & Hrun & Hb).
  { rewrite Z.div_small by lia. by apply HI. }
  exists b. split; [|done].
  unfold at_, reduce_node. rewrite Hroot.
  erewrite (bind_inr (bind _ _)); [|by erewrite bind_inr by exact Hd].
  by erewrite bind_inr by (eapply leaf_read; [done..|lia]).
Qed.

Lemma depth_same_size v w h : size w = size v -> depth w h = depth v h.
Proof. unfold depth. by intros ->. Qed.

(** The loop of [for_each] over consecutive indices below the size.  The
    cached leaf, once set, is the leaf that covers the index before the
    current one, which is the leaf of the current index unless that
    index starts a leaf; there the loop reads through [at] again. *)
Lemma for_each_loop_Inv {St} (f : St -> slot T -> Z -> St) lo h pos rt K l lev n :
  Inv lo h pos rt K l lev ->
  forall start acc v,
  root v = SRef rt -> size v = len l -> depth v h = (inr K, h) ->
  0 <= start -> start + Z.of_nat n <= len l ->
  (forall lf, leaf v = Some lf ->
     exists b, lf = SRef b /\ pos !! b = Some (0, (start - 1) / 4)) ->
  exists v',
    for_each_loop f acc v (range start (start + Z.of_nat n)) h
      = (inr (fold_left (fun a i => f a (default SNone (l !! Z.to_nat i)) i)
                        (range start (start + Z.of_nat n)) acc, v'), h) /\
    same_trie v v'.
Proof.
  intros HI. induction n as [|n IH]; intros start acc v Hroot Hsz Hd Hstart Hstop Hcache.
  - rewrite range_nil by lia. simpl. by exists v.
  - rewrite range_cons by lia.
    replace (start + Z.of_nat (S n)) with (start + 1 + Z.of_nat n) in * by lia.
    cbn [for_each_loop fold_left].
    assert (Hr : 0 <= start mod 4 < 4) by (apply Z.mod_pos_bound; lia).
    pose proof (Z.div_mod start 4 ltac:(lia)) as Hdm.
    assert (Hnext : forall b, pos !! b = Some (0, start / 4) ->
              pos !! b = Some (0, (start + 1 - 1) / 4)).
    { intros b Hb. by replace (start + 1 - 1) with start by lia. }
    destruct (Nat.eqb_spec (leaf_index start) 0) as [E0|E0];
      [|destruct (leaf v) as [lf|] eqn:Hlf].
    + destruct (at_Inv lo h pos rt K l lev v start HI Hroot Hsz Hd ltac:(lia))
        as (b & Hat & Hb).
      erewrite bind_inr by exact Hat. cbn [fst snd].
      destruct (IH (start + 1) (f acc (default SNone (l !! Z.to_nat start)) start)
                  (mkVector (root v) (size v) (mutation v) (Some (SRef b))))
        as (v' & Hrun & Hsame); [done..|lia|lia| |].
      { intros lf [= <-]. eauto. }
      exists v'. split; [done|]. destruct Hsame as (? & ? & ?). done.
    + destruct (Hcache lf eq_refl) as (b & -> & Hb).
      assert (Hb' : pos !! b = Some (0, start / 4)).
      { rewrite Hb. do 2 f_equal. rewrite leaf_index_eq in E0. symmetry.
        apply (Z.div_unique _ _ _ (start mod 4 - 1)); lia. }
      erewrite bind_inr by (eapply leaf_read; [done..|lia]).
      destruct (IH (start + 1) (f acc (default SNone (l !! Z.to_nat start)) start) v)
        as (v' & Hrun & Hsame); [done..|lia|lia| |].
      { intros lf. rewrite Hlf. intros [= <-]. eauto. }
      by exists v'.
    + destruct (at_Inv lo h pos rt K l lev v start HI Hroot Hsz Hd ltac:(lia))
        as (b & Hat & Hb).
      erewrite bind_inr by exact Hat. cbn [fst snd].
      destruct (IH (start + 1) (f acc (default SNone (l !! Z.to_nat start)) start)
                  (mkVector (root v) (size v) (mutation v) (Some (SRef b))))
        as (v' & Hrun & Hsame); [done..|lia|lia| |].
      { intros lf [= <-]. eauto. }
      exists v'. split; [done|]. destruct Hsame as (? & ? & ?). done.
Qed.

(** [for_each] over a readable trie, on a range of indices below the
    size. *)
Lemma for_each_Inv {St} (f : St -> slot T -> Z -> St) lo h pos rt K l lev v acc start stop :
  Inv lo h pos rt K l lev ->
  root v = SRef rt -> size v = len l -> depth v h = (inr K, h) ->
  let e := match stop with
           | None => len l
           | Some e => if e <? 0 then e + len l else e
           end in
  0 <= start -> e <= len l ->
  exists v',
    for_each f acc v start stop h
      = (inr (fold_left (fun a i => f a (default SNone (l !! Z.to_nat i)) i)
                        (range start e) acc, v'), h) /\
    same_trie v v'.
Proof.
  intros HI Hroot Hsz Hd e Hstart He. unfold for_each. cbn [size]. rewrite Hsz. fold e.
  destruct (decide (start <= e)) as [Hle|Hgt].
  - destruct (for_each_loop_Inv f lo h pos rt K l lev (Z.to_nat (e - start)) HI start acc
                (mkVector (root v) (size v) (mutation v) None))
      as (v' & Hrun & Hsame); [(try done; lia)..|].
    replace (start + Z.of_nat (Z.to_nat (e - start))) with e in Hrun by lia.
    rewrite Hsz in Hrun. exists v'. split; [done|]. destruct Hsame as (? & ? & ?). done.
  - rewrite range_nil by lia. simpl.
    eexists. split; [done|]. done.
Qed.

Lemma fold_left_fmap {A B C} (g : A -> B -> A) (k : C -> B) xs a :
  fold_left g (map k xs) a = fold_left (fun a y => g a (k y)) xs a.
Proof. revert a. induction xs as [|y xs IH]; intros a; simpl; [done|apply IH]. Qed.

End Iteration.
Section IterationBuilt.
Context {T : Type}.
Implicit Types (h : heap T) (s x : slot T) (l : list (slot T))
  (pos : gmap addr (Z * Z)) (v w : @Vector T).

Lemma Repr_depth lo h v K l :
  Repr lo h v K l -> hgt K (len l) -> len l < 4 ^ (K + 1) -> depth v h = (inr K, h).
Proof.
  intros (pos & rt & HI & Hroot & Hsize & Hlo) Hh Hlt.
  assert (Hn0 : 0 <= len l) by (unfold len; lia).
  apply depth_eq; [lia|]. rewrite Hsize.
  destruct (Z.eqb_spec (len l) 0) as [E|E]; [|apply hgt_depth; [done|lia..]].
  destruct Hh as (? & ? & [?|?]); lia.
Qed.

(** [for_each] on the vector the constructor builds from a list whose
    length is not an exact power of WIDTH, over indices within the
    vector: it returns, and has called the callback on the elements at
    the indices [start .. end - 1] in order, each with its index; an
    omitted end stands for the size and a negative one for [size + end].
    Reading through the cached leaf gives the same elements as [at]. *)
Theorem for_each_fold {St} h l (f : St -> slot T -> Z -> St) acc start stop :
  let e := match stop with
           | None => len l
           | Some e => if e <? 0 then e + len l else e
           end in
  is_power_of (len l) WIDTH = false -> 0 <= start -> e <= len l ->
  exists v h1 v',
    Vector_init l h = (inr v, h1) /\
    for_each f acc v start stop h1
      = (inr (fold_left (fun a i => f a (default SNone (l !! Z.to_nat i)) i)
                        (range start e) acc, v'), h1) /\
    same_trie v v'.
Proof.
  intros e Hp Hstart He.
  destruct (Vector_init_Repr h l) as (v & K & h1 & Hrun & HR & Hh & Hm & Hsz & Hf).
  assert (Hn0 : 0 <= len l) by (unfold len; lia).
  pose proof (hgt_not_power _ _ Hh Hn0 Hp) as Hlt.
  pose proof (Repr_depth _ _ _ _ _ HR Hh Hlt) as Hd.
  destruct HR as (pos & rt & HI & Hroot & _ & _).
  destruct (for_each_Inv f _ _ _ _ _ _ _ v acc start stop HI Hroot Hsz Hd Hstart He)
    as (v' & Hfe & Hsame).
  by exists v, h1, v'.
Qed.

(** [reduce] on the vector the constructor builds from a list whose
    length is not an exact power of WIDTH is the left fold of the list:
    from the given initial value over all elements, or, when the initial
    value is omitted, from the first element over the others (on the
    empty vector, from the [None] that [at(0)] reads there). *)
Theorem reduce_fold {St} h l (f : St -> slot T -> St) inj init :
  is_power_of (len l) WIDTH = false ->
  exists v h1 v',
    Vector_init l h = (inr v, h1) /\
    reduce f inj v init h1
      = (inr (match init with
              | Some a => fold_left f l a
              | None => fold_left f (drop 1 l) (inj (default SNone (l !! 0%nat)))
              end, v'), h1) /\
    same_trie v v'.
Proof.
  intros Hp.
  destruct (Vector_init_Repr h l) as (v & K & h1 & Hrun & HR & Hh & Hm & Hsz & Hf).
  assert (Hn0 : 0 <= len l) by (unfold len; lia).
  pose proof (hgt_not_power _ _ Hh Hn0 Hp) as Hlt.
  pose proof (Repr_depth _ _ _ _ _ HR Hh Hlt) as Hd.
  destruct HR as (pos & rt & HI & Hroot & _ & _).
  assert (Hfold : forall start acc,
    0 <= start <= len l ->
    fold_left (fun a i => f a (default SNone (l !! Z.to_nat i))) (range start (len l)) acc
    = fold_left f (drop (Z.to_nat start) l) acc).
  { intros start acc Hs.
    rewrite <- (fold_left_fmap f (fun i => default SNone (l !! Z.to_nat i))).
    rewrite read_range by lia. rewrite take_ge; [done|].
    rewrite length_drop. unfold len. lia. }
  unfold reduce. destruct init as [a|].
  - destruct (for_each_Inv (fun acc y (_ : Z) => f acc y) _ _ _ _ _ _ _ v a 0 None
                HI Hroot Hsz Hd ltac:(lia) ltac:(simpl; lia)) as (v' & Hfe & Hsame).
    exists v, h1, v'. split; [done|]. split; [|done].
    rewrite Hfe. simpl. by rewrite Hfold by lia.
  - assert (Hat : exists b,
      at_ v 0 h1 = (inr (default SNone (l !! 0%nat),
                         mkVector (root v) (size v) (mutation v) (Some (SRef b))), h1)).
    { destruct (decide (len l = 0)) as [E|E].
      - assert (K = 0) as -> by (destruct Hh as (? & ? & [?|?]); lia).
        exists rt. unfold at_, reduce_node. rewrite Hroot.
        erewrite (bind_inr (bind _ _)); [|by erewrite bind_inr by exact Hd].
        erewrite bind_inr; [done|].
        eapply (leaf_read _ _ _ _ _ _ _ rt 0 HI); [|lia]. by apply HI.
      - destruct (at_Inv _ _ _ _ _ _ _ v 0 HI Hroot Hsz Hd ltac:(lia)) as (b & Hat & _).
        by exists b. }
    destruct Hat as (b & Hat).
    destruct (decide (len l = 0)) as [E|E].
    + exists v, h1. eexists.
      split; [done|]. erewrite bind_inr by exact Hat. cbn [fst snd].
      unfold for_each. cbn [size]. rewrite Hsz, E.
      rewrite range_nil by lia. simpl.
      assert (l = []) as -> by (destruct l; [done|unfold len in E; simpl in E; lia]).
      done.
    + destruct (for_each_Inv (fun acc y (_ : Z) => f acc y) _ _ _ _ _ _ _
                  (mkVector (root v) (size v) (mutation v) (Some (SRef b)))
                  (inj (default SNone (l !! 0%nat))) 1 None
                  HI Hroot Hsz Hd ltac:(lia) ltac:(simpl; lia)) as (v' & Hfe & Hsame).
      exists v, h1, v'. split; [done|]. split.
      * erewrite bind_inr by exact Hat. cbn [fst snd].
        rewrite Hfe. simpl. by rewrite Hfold by lia.
      * destruct Hsame as (? & ? & ?). done.
Qed.

End IterationBuilt.

Lemma for_each_fold_witness :
  exists v h1 v',
    Vector_init (of_list [0; 1; 2; 3; 4; 5]) empty_heap = (inr v, h1) /\
    for_each (fun acc y i => acc ++ [(i, y)]) [] v 3 (Some (-1)) h1
      = (inr ([(3, SVal 3); (4, SVal 4)], v'), h1) /\
    same_trie v v'.
Proof.
  apply (for_each_fold empty_heap (of_list [0; 1; 2; 3; 4; 5])
           (fun acc y i => acc ++ [(i, y)]) [] 3 (Some (-1))).
  - reflexivity.
  - lia.
  - vm_compute. discriminate.
Defined.

Lemma reduce_fold_witness :
  exists v h1 v',
    Vector_init (of_list [0; 99; 1; 2; 3; 4; 5]) empty_heap = (inr v, h1) /\
    reduce sum_slot slot_value v None h1 = (inr (114, v'), h1) /\
    same_trie v v'.
Proof.
  apply (reduce_fold empty_heap (of_list [0; 99; 1; 2; 3; 4; 5]) sum_slot slot_value None).
  reflexivity.
Defined.

(** ** [pop] on a trie built by appends *)

Section PopSteps.
Context {T : Type}.
Implicit Types (h : heap T) (s : slot T) (l : list (slot T))
  (pos : gmap addr (Z * Z)).

(** One step of the persistent descent of [pop] towards an index below
    the size: the child on the path exists, and its copy, at a fresh
    address, takes its place and its label. *)
Lemma Inv_copy_child lo h pos rt K l lev level a i cs key :
  let p := key / 4 ^ level in
  let ix := Z.to_nat (p mod 4) in
  Inv lo h pos rt K l lev ->
  1 <= level -> 0 <= key < len l ->
  pos !! a = Some (level, i) -> h !! a = Some cs ->
  i = key / 4 ^ (level + 1) ->
  (lo <= length h)%nat ->
  exists old csb,
    cs !! ix = Some (SRef old) /\ h !! old = Some csb /\ length csb = 4%nat /\
    Inv lo (<[a := <[ix := SRef (length h)]> cs]> (h ++ [csb]))
           (<[length h := (level - 1, p)]> (delete old pos)) rt K l lev.
Proof.
  intros p ix HI Hlev Hkey Ha Hcs Hi Hlo.
  set (nb := length h).
  destruct (inv_node _ _ _ _ _ _ _ HI a level i Ha)
    as (HlevK & Hi0 & _ & cs0 & Hcs0 & Hlen & Hslots).
  assert (cs0 = cs) as -> by congruence.
  pose proof (digit_step key level ltac:(lia)) as Hp. rewrite <- Hi in Hp.
  fold p in Hp.
  assert (Hr : 0 <= p mod 4 < 4) by (apply Z.mod_pos_bound; lia).
  pose proof (div_bounds key level ltac:(lia)) as Hb. fold p in Hb.
  pose proof (pow4_pos level ltac:(lia)) as Hpw.
  assert (Hp0 : 0 <= p) by (apply Z.div_pos; lia).
  assert (Hix : (ix < 4)%nat) by (unfold ix; lia).
  assert (Hpix : 4 * i + Z.of_nat ix = p) by (unfold ix; lia).
  assert (Hlt : forall b q, pos !! b = Some q -> (b < nb)%nat).
  { intros. by eapply Inv_lt. }
  assert (Hanb : a <> nb) by (apply Hlt in Ha; lia).
  (* the slot on the path holds a node *)
  destruct (Inv_child _ _ _ _ _ _ _ a level i cs ix HI Ha Hcs Hix) as (s0 & Hs0 & Hok0).
  rewrite Hpix in Hok0.
  unfold slot_ok in Hok0. rewrite decide_False in Hok0 by lia.
  destruct Hok0 as [[_ ?]|(old & -> & Ho)]; [lia|].
  destruct (inv_node _ _ _ _ _ _ _ HI old _ _ Ho) as (_ & _ & _ & csb & Hcsb & Hcsblen & Hcsbok).
  exists old, csb. split; [done|]. split; [done|]. split; [done|].
  assert (Hfree : forall b, b <> old -> pos !! b <> Some (level - 1, p)).
  { intros b Hne Hb'. apply Hne. eapply inv_inj; eauto. }
  assert (Hlab : forall b q, (<[nb := (level - 1, p)]> (delete old pos)) !! b = Some q <->
            (b = nb /\ q = (level - 1, p)) \/ (b <> nb /\ b <> old /\ pos !! b = Some q)).
  { intros b q. rewrite lookup_insert_Some, lookup_delete_Some. naive_solver. }
  assert (Hkeep : forall b q, pos !! b = Some q -> b <> old ->
            (<[nb := (level - 1, p)]> (delete old pos)) !! b = Some q).
  { intros b q Hb' Hne. apply Hlab. right. split; [|done]. apply Hlt in Hb'. lia. }
  assert (Hh_other : forall b, b <> a -> (b < nb)%nat ->
            (<[a := <[ix := SRef nb]> cs]> (h ++ [csb])) !! b = h !! b).
  { intros b Hne Hb'. rewrite list_lookup_insert_ne by done. by apply lookup_app_l. }
  assert (Hh_a : (<[a := <[ix := SRef nb]> cs]> (h ++ [csb])) !! a
                 = Some (<[ix := SRef nb]> cs)).
  { apply list_lookup_insert_eq. rewrite length_app. apply Hlt in Ha. lia. }
  assert (Hh_nb : (<[a := <[ix := SRef nb]> cs]> (h ++ [csb])) !! nb = Some csb).
  { rewrite list_lookup_insert_ne by done. by apply list_lookup_middle. }
  assert (Hoa : old <> a).
  { intros ->. assert (level - 1 = level) by congruence. lia. }
  split.
  - (* root *)
    apply Hkeep; [by apply HI|]. intros ->.
    pose proof (inv_root _ _ _ _ _ _ _ HI). assert (K = level - 1) by congruence. lia.
  - (* injective *)
    intros a1 a2 q [[-> ->]|(? & ? & H1)]%Hlab [[-> E]|(? & ? & H2)]%Hlab; try done.
    + by destruct (Hfree a2).
    + subst q. by destruct (Hfree a1).
    + eapply inv_inj; eauto.
  - (* fresh range *)
    intros a1 q [[-> ->]|(? & ? & H1)]%Hlab; [done|]. eapply inv_lo; eauto.
  - (* nodes *)
    intros a1 k i1 [[-> [= -> ->]]|(Hne1 & Hne2 & H1)]%Hlab.
    + split; [lia|]. split; [done|]. split; [lia|].
      exists csb. split; [done|]. split; [done|].
      intros j s Hj. eapply slot_ok_relabel; [by apply Hcsbok|].
      intros b -> Hb'. apply Hkeep; [done|]. intros ->.
      assert (level - 1 - 1 = level - 1) by congruence. lia.
    + destruct (inv_node _ _ _ _ _ _ _ HI a1 k i1 H1)
        as (Hk & Hi1 & Htop & c & Hc & Hl & Hs).
      do 3 (split; [done|]).
      destruct (decide (a1 = a)) as [->|Hne].
      * assert (k = level /\ i1 = i) as [-> ->] by (split; congruence).
        assert (c = cs) as -> by congruence.
        exists (<[ix := SRef nb]> cs). split; [done|].
        split; [by rewrite length_insert|].
        intros j s Hj. destruct (decide (j = ix)) as [->|Hjne].
        -- rewrite list_lookup_insert_eq in Hj by lia. injection Hj as <-.
           unfold slot_ok. rewrite decide_False by lia. right.
           exists nb. split; [done|]. rewrite Hpix. apply Hlab. by left.
        -- rewrite list_lookup_insert_ne in Hj by done.
           assert (Hj4 : (j < 4)%nat) by (apply lookup_lt_Some in Hj; lia).
           eapply slot_ok_relabel; [by apply Hs|].
           intros b -> Hb'. apply Hkeep; [done|]. intros ->.
           assert (4 * i + Z.of_nat j = p) by congruence. lia.
      * exists c. split; [by rewrite Hh_other by eauto|]. split; [done|].
        intros j s Hj.
        assert (Hj4 : (j < 4)%nat) by (apply lookup_lt_Some in Hj; lia).
        eapply slot_ok_relabel; [by apply Hs|].
        intros b -> Hb'. apply Hkeep; [done|]. intros ->.
        assert (k - 1 = level - 1 /\ 4 * i1 + Z.of_nat j = p) as [? ?]
          by (split; congruence).
        apply Hne. eapply inv_inj; eauto.
        replace k with level by lia. replace i1 with i by lia. done.
  - (* parents *)
    intros b k i1 [[-> [= -> ->]]|(Hne1 & Hne2 & H1)]%Hlab Hk.
    + exists a, (<[ix := SRef nb]> cs).
      replace (level - 1 + 1) with level by lia.
      replace (p / 4) with i by (apply (Z.div_unique _ _ _ (p mod 4)); lia).
      split; [|split; [done|]].
      * by apply Hkeep.
      * fold ix. apply list_lookup_insert_eq. lia.
    + destruct (inv_parent _ _ _ _ _ _ _ HI b k i1 H1 Hk) as (a' & c & Ha' & Hc & Hcb).
      destruct (decide (a' = old)) as [->|Hao].
      * exists nb, csb. assert (c = csb) as -> by congruence.
        split; [|done]. apply Hlab. left. split; [done|]. congruence.
      * destruct (decide (a' = a)) as [->|Hna].
        -- assert (c = cs) as -> by congruence.
           exists a, (<[ix := SRef nb]> cs). split; [by apply Hkeep|]. split; [done|].
           rewrite list_lookup_insert_ne; [done|]. intros E. rewrite <- E in Hcb.
           congruence.
        -- exists a', c. split; [by apply Hkeep|]. split; [|done].
           rewrite Hh_other; eauto.
Qed.

End PopSteps.

Section PopShrink.
Context {T : Type}.
Implicit Types (h : heap T) (s : slot T) (l : list (slot T))
  (pos : gmap addr (Z * Z)).

(** A slot that is right for a list stays right when the last element
    is removed, unless it is the slot of that element. *)
Lemma slot_ok_shrink pos l e lev lev' k p s :
  0 <= p ->
  slot_ok pos (l ++ [e]) lev k p s -> (k = 0 -> p <> len l) ->
  slot_ok pos l lev' k p s.
Proof.
  unfold slot_ok. intros Hp. destruct (decide (k = 0)) as [->|].
  - intros -> Hne. specialize (Hne eq_refl). f_equal.
    destruct (decide (p < len l)).
    + rewrite lookup_app_l; [done|unfold len in *; lia].
    + rewrite !lookup_ge_None_2; [done|unfold len in *; lia|].
      rewrite length_app. unfold len in *. simpl. lia.
  - rewrite len_app. intros [[-> H]|?] _; [left|by right]. split; [done|]. left.
    destruct H as [?|[? ?]]; lia.
Qed.

(** Clearing the slot of the last element in its leaf. *)
Lemma Inv_leaf_clear lo h pos rt K l e lev lev' b cs :
  Inv lo h pos rt K (l ++ [e]) lev ->
  pos !! b = Some (0, len l / 4) -> h !! b = Some cs ->
  Inv lo (<[b := <[Z.to_nat (len l mod 4) := SNone]> cs]> h) pos rt K l lev'.
Proof.
  intros HI Hb Hcs.
  assert (Hn0 : 0 <= len l) by (unfold len; lia).
  assert (Hr : 0 <= len l mod 4 < 4) by (apply Z.mod_pos_bound; lia).
  pose proof (Z.div_mod (len l) 4 ltac:(lia)) as Hdm.
  set (ix := Z.to_nat (len l mod 4)).
  assert (Hblt : (b < length h)%nat) by by eapply lookup_lt_Some.
  destruct HI as [H1 H2 H3 H4 H5]. split; try done.
  - intros a1 k i1 Ha1.
    destruct (H4 a1 k i1 Ha1) as (Hk & Hi1 & Htop & c & Hc & Hl & Hs).
    do 3 (split; [done|]).
    destruct (decide (a1 = b)) as [->|Hne].
    + assert (k = 0 /\ i1 = len l / 4) as [-> ->] by (split; congruence).
      assert (c = cs) as -> by congruence.
      exists (<[ix := SNone]> cs). split; [by apply list_lookup_insert_eq|].
      split; [by rewrite length_insert|].
      intros j s Hj. destruct (decide (j = ix)) as [->|Hjne].
      * rewrite list_lookup_insert_eq in Hj by (unfold ix; lia). injection Hj as <-.
        unfold slot_ok. simpl. rewrite lookup_ge_None_2; [done|].
        unfold ix, len in *. lia.
      * rewrite list_lookup_insert_ne in Hj by done.
        assert (Hj4 : (j < 4)%nat) by (apply lookup_lt_Some in Hj; lia).
        eapply slot_ok_shrink; [lia|by apply Hs|]. intros _. unfold ix in Hjne. lia.
    + exists c. split; [by rewrite list_lookup_insert_ne|]. split; [done|].
      intros j s Hj.
      assert (Hj4 : (j < 4)%nat) by (apply lookup_lt_Some in Hj; lia).
      eapply slot_ok_shrink; [lia|by apply Hs|]. intros -> E.
      apply Hne. eapply H2; [done|]. rewrite Hb. do 2 f_equal. lia.
  - intros b' k i1 Hb' Hk.
    destruct (H5 b' k i1 Hb' Hk) as (a' & c & Ha' & Hc & Hcb).
    assert (a' <> b).
    { intros ->. destruct (H4 b' k i1 Hb') as (? & _).
      assert (k + 1 = 0) by congruence. lia. }
    exists a', c. split; [done|]. split; [|done]. by rewrite list_lookup_insert_ne.
Qed.

(** Removing the leaf that holds the last element alone. *)
Lemma Inv_drop_leaf lo h pos rt K l e lev lev' a cs :
  let p := len l / 4 in
  let ix := Z.to_nat (p mod 4) in
  Inv lo h pos rt K (l ++ [e]) lev ->
  len l mod 4 = 0 -> 1 <= lev' ->
  pos !! a = Some (1, len l / 4 ^ 2) -> h !! a = Some cs ->
  exists old,
    cs !! ix = Some (SRef old) /\
    Inv lo (<[a := <[ix := SNone]> cs]> h) (delete old pos) rt K l lev'.
Proof.
  intros p ix HI Hmod Hlev' Ha Hcs.
  assert (Hn0 : 0 <= len l) by (unfold len; lia).
  pose proof (Z.div_mod (len l) 4 ltac:(lia)) as Hdm. fold p in Hdm.
  assert (Hp0 : 0 <= p) by (apply Z.div_pos; lia).
  assert (Hr : 0 <= p mod 4 < 4) by (apply Z.mod_pos_bound; lia).
  pose proof (Z.div_mod p 4 ltac:(lia)) as Hdp.
  assert (Hi : len l / 4 ^ 2 = p / 4).
  { change (4 ^ 2) with (4 * 4). by rewrite <- Z.div_div by lia. }
  rewrite Hi in Ha. set (i := p / 4) in *.
  assert (Hix : (ix < 4)%nat) by (unfold ix; lia).
  assert (Hpix : 4 * i + Z.of_nat ix = p) by (unfold ix; lia).
  assert (Halt : (a < length h)%nat) by by eapply lookup_lt_Some.
  destruct (inv_node _ _ _ _ _ _ _ HI a _ _ Ha) as (HK1 & _ & _ & _).
  destruct (Inv_child _ _ _ _ _ _ _ a 1 i cs ix HI Ha Hcs Hix) as (s0 & Hs0 & Hok0).
  rewrite Hpix in Hok0. unfold slot_ok in Hok0. rewrite decide_False in Hok0 by lia.
  rewrite len_app in Hok0. change (4 ^ 1) with 4 in Hok0.
  destruct Hok0 as [[_ ?]|(old & -> & Ho)]; [lia|]. change (1 - 1) with 0 in Ho.
  exists old. split; [done|].
  assert (Hlab : forall b q, delete old pos !! b = Some q <-> b <> old /\ pos !! b = Some q).
  { intros b q. rewrite lookup_delete_Some. naive_solver. }
  assert (Hoa : old <> a).
  { intros ->. assert (0 = 1) by congruence. lia. }
  destruct HI as [H1 H2 H3 H4 H5]. split.
  - apply Hlab. split; [|done]. intros ->. assert (K = 0) by congruence. lia.
  - intros a1 a2 q [_ ?]%Hlab [_ ?]%Hlab. eauto.
  - intros a1 q [_ ?]%Hlab. eauto.
  - intros a1 k i1 [Hne1 Ha1]%Hlab.
    destruct (H4 a1 k i1 Ha1) as (Hk & Hi1 & Htop & c & Hc & Hl & Hs).
    do 3 (split; [done|]).
    destruct (decide (a1 = a)) as [->|Hne].
    + assert (k = 1 /\ i1 = i) as [-> ->] by (split; congruence).
      assert (c = cs) as -> by congruence.
      exists (<[ix := SNone]> cs). split; [by apply list_lookup_insert_eq|].
      split; [by rewrite length_insert|].
      intros j s Hj. destruct (decide (j = ix)) as [->|Hjne].
      * rewrite list_lookup_insert_eq in Hj by lia. injection Hj as <-.
        unfold slot_ok. rewrite decide_False by lia. left. split; [done|].
        right. change (4 ^ 1) with 4. lia.
      * rewrite list_lookup_insert_ne in Hj by done.
        assert (Hj4 : (j < 4)%nat) by (apply lookup_lt_Some in Hj; lia).
        eapply slot_ok_relabel; [eapply slot_ok_shrink; [lia|by apply Hs|lia]|].
        intros b -> Hb'. apply Hlab. split; [|done]. intros ->.
        assert (4 * i + Z.of_nat j = p) by congruence. lia.
    + exists c. split; [by rewrite list_lookup_insert_ne|]. split; [done|].
      intros j s Hj.
      assert (Hj4 : (j < 4)%nat) by (apply lookup_lt_Some in Hj; lia).
      eapply slot_ok_relabel; [eapply slot_ok_shrink; [lia|by apply Hs|]|].
      * intros -> E. apply Hne1. eapply H2; [done|]. rewrite Ho. do 2 f_equal. lia.
      * intros b -> Hb'. apply Hlab. split; [|done]. intros ->.
        assert (k - 1 = 0 /\ 4 * i1 + Z.of_nat j = p) as [? ?] by (split; congruence).
        apply Hne. eapply H2; [done|]. rewrite Ha. f_equal. f_equal; [lia|].
        unfold i. symmetry. apply (Z.div_unique _ _ _ (Z.of_nat j)); lia.
  - intros b k i1 [Hne1 Hb]%Hlab Hk.
    destruct (H5 b k i1 Hb Hk) as (a' & c & Ha' & Hc & Hcb).
    assert (a' <> old).
    { intros ->. destruct (H4 b k i1 Hb) as (? & _).
      assert (k + 1 = 0) by congruence. lia. }
    destruct (decide (a' = a)) as [->|Hna].
    + assert (c = cs) as -> by congruence.
      exists a, (<[ix := SNone]> cs). split; [by apply Hlab|].
      split; [by apply list_lookup_insert_eq|].
      rewrite list_lookup_insert_ne; [done|]. intros E. rewrite <- E in Hcb.
      congruence.
    + exists a', c. split; [by apply Hlab|]. split; [|done].
      by rewrite list_lookup_insert_ne.
Qed.

End PopShrink.

Section PopWalk.
Context {T : Type}.
Implicit Types (h : heap T) (s : slot T) (l : list (slot T))
  (pos : gmap addr (Z * Z)) (v w : @Vector T).

Lemma levels_length d : length (levels d) = Z.to_nat d.
Proof. unfold levels. by rewrite length_map, length_seq. Qed.

Lemma levels_lookup d (j : nat) level :
  levels d !! j = Some level -> level = d - Z.of_nat j /\ (j < Z.to_nat d)%nat.
Proof.
  unfold levels. rewrite list_lookup_fmap.
  destruct (seq 0 (Z.to_nat d) !! j) as [i|] eqn:E; [|done].
  apply lookup_seq in E as [-> ?]. simpl. intros [= <-]. done.
Qed.

(** The levels end with level 1. *)
Lemma levels_snoc d :
  1 <= d -> levels d = take (Z.to_nat d - 1) (levels d) ++ [1].
Proof.
  intros Hd. rewrite <- (take_drop (Z.to_nat d - 1) (levels d)) at 1. f_equal.
  unfold levels. rewrite <- fmap_drop.
  replace (Z.to_nat d) with ((Z.to_nat d - 1) + 1)%nat at 2 by lia.
  rewrite seq_app, drop_app_length'; [|by rewrite length_seq].
  simpl. f_equal. lia.
Qed.

Lemma reduce_levels_app {St} key (reducer : St -> Z -> nat -> M T St) init ls1 ls2 h :
  reduce_levels key reducer init (ls1 ++ ls2) h
  = (st <- reduce_levels key reducer init ls1 ;; reduce_levels key reducer st ls2) h.
Proof.
  revert init h. induction ls1 as [|level ls1 IH]; intros init h.
  - reflexivity.
  - cbn [app reduce_levels]. unfold bind at 1 2 3.
    destruct (reducer init level (slot_ix key level) h) as [[e|st] h1]; [done|].
    apply IH.
Qed.

(** One level of [pop] in persistent mode: the child on the path is
    copied and the copy installed. *)
Lemma pop_reducer_copy h a cs ix old csb lix level prev :
  h !! a = Some cs -> cs !! ix = Some (SRef old) -> h !! old = Some csb ->
  length csb = 4%nat ->
  (level =? 1) && Nat.eqb lix 0 = false ->
  pop_reducer false lix (prev, SRef a) level ix h
  = (inr (SRef a, SRef (length h)), <[a := <[ix := SRef (length h)]> cs]> (h ++ [csb])).
Proof.
  intros Ha Hix Hold Hlen Hnd. unfold pop_reducer. cbn [snd].
  assert (Hlt : (ix < length cs)%nat) by by eapply lookup_lt_Some.
  assert (Halt : (a < length h)%nat) by by eapply lookup_lt_Some.
  erewrite bind_inr by by eapply get_child_eq.
  erewrite bind_inr by by eapply copy_node_eq.
  rewrite mk_node_full by lia.
  erewrite bind_inr by (eapply set_child_eq; [by rewrite lookup_app_l|done]).
  rewrite Hnd.
  erewrite bind_inr; [done|].
  eapply get_child_eq.
  - apply list_lookup_insert_eq. rewrite length_app. lia.
  - by apply list_lookup_insert_eq.
Qed.

(** The last level of [pop] when the last element is alone in its leaf:
    the leaf is copied and then dropped from its parent. *)
Lemma pop_reducer_drop h a cs ix old csb lix level prev :
  h !! a = Some cs -> cs !! ix = Some (SRef old) -> h !! old = Some csb ->
  length csb = 4%nat ->
  (level =? 1) && Nat.eqb lix 0 = true ->
  pop_reducer false lix (prev, SRef a) level ix h
  = (inr (SRef a, SNone), <[a := <[ix := SNone]> cs]> (h ++ [csb])).
Proof.
  intros Ha Hix Hold Hlen Hnd. unfold pop_reducer. cbn [snd].
  assert (Hlt : (ix < length cs)%nat) by by eapply lookup_lt_Some.
  assert (Halt : (a < length h)%nat) by by eapply lookup_lt_Some.
  erewrite bind_inr by by eapply get_child_eq.
  erewrite bind_inr by by eapply copy_node_eq.
  rewrite mk_node_full by lia.
  erewrite bind_inr by (eapply set_child_eq; [by rewrite lookup_app_l|done]).
  rewrite Hnd.
  erewrite bind_inr.
  2:{ eapply set_child_eq.
      - apply list_lookup_insert_eq. rewrite length_app. lia.
      - by rewrite length_insert. }
  unfold ret. f_equal.
  by rewrite list_insert_insert_eq, list_insert_insert_eq.
Qed.

(** The descent of [pop] through levels that do not drop a leaf: from a
    node on the path of the index [tk] it reaches the node of height
    [d0] on that path, copying on the way. *)
Lemma pop_walk lo rt K l lev key tk lix ls :
  0 <= tk < len l ->
  forall d0 h pos a prev,
  0 <= d0 ->
  (forall (j : nat) level, ls !! j = Some level ->
     slot_ix key level
       = Z.to_nat ((tk / 4 ^ (d0 + Z.of_nat (length ls) - Z.of_nat j)) mod 4) /\
     (level =? 1) && Nat.eqb lix 0 = false) ->
  Inv lo h pos rt K l lev -> (lo <= length h)%nat ->
  pos !! a = Some (d0 + Z.of_nat (length ls),
                   tk / 4 ^ (d0 + Z.of_nat (length ls) + 1)) ->
  exists prev' b pos' h',
    reduce_levels key (pop_reducer false lix) (prev, SRef a) ls h
      = (inr (prev', SRef b), h') /\
    Inv lo h' pos' rt K l lev /\ pos' !! b = Some (d0, tk / 4 ^ (d0 + 1)) /\
    agree lo h h'.
Proof.
  intros Htk. induction ls as [|level ls IH]; intros d0 h pos a prev Hd0 Hdig HI Hlo Ha.
  - cbn [length] in Ha. exists prev, a, pos, h. split; [done|]. split; [done|].
    split; [|apply agree_refl].
    rewrite Ha. f_equal. f_equal; [lia|]. do 2 f_equal. lia.
  - cbn [length] in *. set (d := d0 + Z.of_nat (S (length ls))) in *.
    destruct (Hdig 0%nat level eq_refl) as [Hix Hnd].
    replace (d - Z.of_nat 0) with d in Hix by lia.
    destruct (inv_node _ _ _ _ _ _ _ HI a _ _ Ha) as (_ & _ & _ & cs & Hcs & _).
    destruct (Inv_copy_child lo h pos rt K l lev d a _ cs tk HI ltac:(lia) Htk Ha Hcs
                eq_refl Hlo) as (old & csb & Hold & Hcsb & Hlen & HI').
    cbn [reduce_levels]. rewrite Hix.
    erewrite bind_inr by by eapply pop_reducer_copy.
    destruct (IH d0 (<[a := <[Z.to_nat ((tk / 4 ^ d) mod 4) := SRef (length h)]> cs]>
                       (h ++ [csb]))
                (<[length h := (d - 1, tk / 4 ^ d)]> (delete old pos))
                (length h) (SRef a) Hd0)
      as (prev' & b & pos' & h' & Hrun & HI'' & Hb & Hag).
    + intros j lv Hj. destruct (Hdig (S j) lv Hj) as [E ?]. split; [|done].
      rewrite E. do 4 f_equal. unfold d. lia.
    + exact HI'.
    + rewrite length_insert, length_app. simpl. lia.
    + replace (d0 + Z.of_nat (length ls)) with (d - 1) by (unfold d; lia).
      replace (d - 1 + 1) with d by lia.
      rewrite lookup_insert_eq. done.
    + exists prev', b, pos', h'. split; [done|]. split; [done|]. split; [done|].
      eapply agree_trans; [|done].
      eapply agree_trans; [by apply agree_alloc|].
      apply agree_write. exact (inv_lo _ _ _ _ _ _ _ HI a _ Ha).
Qed.

End PopWalk.

Section PopRepr.
Context {T : Type}.
Implicit Types (h : heap T) (s : slot T) (l : list (slot T))
  (pos : gmap addr (Z * Z)) (v w : @Vector T).

(** What a labelled node refers to is a labelled node. *)
Lemma Inv_ref_child lo h pos rt K l lev a k i cs (j : nat) b :
  Inv lo h pos rt K l lev -> pos !! a = Some (k, i) -> h !! a = Some cs ->
  cs !! j = Some (SRef b) -> 1 <= k ->
  exists csb, h !! b = Some csb /\ length csb = 4%nat /\
              pos !! b = Some (k - 1, 4 * i + Z.of_nat j).
Proof.
  intros HI Ha Hcs Hj Hk.
  destruct (inv_node _ _ _ _ _ _ _ HI a _ _ Ha) as (_ & _ & _ & c & Hc & _ & Hs).
  assert (c = cs) as -> by congruence.
  pose proof (Hs j _ Hj) as Hok. unfold slot_ok in Hok.
  rewrite decide_False in Hok by lia.
  destruct Hok as [[? _]|(b' & [= <-] & Hb)]; [done|].
  destruct (inv_node _ _ _ _ _ _ _ HI b _ _ Hb) as (_ & _ & _ & csb & ? & ? & _).
  eauto.
Qed.

(** The end of [pop] where the size is not an exact power of WIDTH. *)
Lemma pop_tail lo h0 h3 pos3 rt1 K l (prev : slot T) :
  is_power_of (len l + 1) WIDTH = false ->
  Inv lo h3 pos3 rt1 K l K -> (lo <= length h3)%nat -> agree lo h0 h3 ->
  exists w h',
    (prev_leaf <- (if is_power_of (len l + 1) WIDTH
                   then get_child prev 0 else ret prev) ;;
     create (if len l + 1 =? WIDTH then prev_leaf else SRef rt1) (len l)) h3
      = (inr w, h') /\
    Repr lo h' w K l /\ mutation w = false /\ agree lo h0 h'.
Proof.
  intros Hp HI Hlo Hag. rewrite Hp.
  destruct (Z.eqb_spec (len l + 1) WIDTH) as [E|E].
  { rewrite E in Hp. by vm_compute in Hp. }
  eexists _, _. split; [reflexivity|]. split; [|split; [done|]].
  - exists pos3, rt1. split; [by apply Inv_alloc|]. split; [done|]. split; [done|].
    rewrite length_app. lia.
  - eapply agree_trans; [done|]. by apply agree_alloc.
Qed.

(** [pop] in persistent mode on a trie whose height is the depth of its
    size, where the size is not an exact power of WIDTH: it returns the
    trie, of the same height, of the list without its last element. *)
Lemma pop_Repr lo h v K l e :
  Repr lo h v K (l ++ [e]) -> mutation v = false ->
  depth v h = (inr K, h) ->
  is_power_of (len l + 1) WIDTH = false ->
  exists w h',
    pop v h = (inr w, h') /\ Repr lo h' w K l /\ mutation w = false /\
    agree lo h h'.
Proof.
  intros (pos & rt & HI & Hroot & Hsize & Hlo) Hm Hd Hp.
  rewrite len_app in Hsize.
  assert (Hn0 : 0 <= len l) by (unfold len; lia).
  destruct (depth_bounds v h K Hd) as (HK & Hup & Hdn). rewrite Hsize in Hup, Hdn.
  destruct (start_root_Inv false lo h pos rt K _ K HI Hlo)
    as (rt1 & pos1 & h1 & Hrun1 & HI1 & Hag1).
  assert (Hlo1 : (lo <= length h1)%nat) by (apply agree_length in Hag1; lia).
  assert (Hd1 : depth v h1 = (inr K, h1)) by (by rewrite (depth_indep v h h1), Hd).
  assert (Hkey : 0 <= len l < len (l ++ [e])) by (rewrite len_app; lia).
  assert (Hr : 0 <= len l mod 4 < 4) by (apply Z.mod_pos_bound; lia).
  assert (Hrt1 : pos1 !! rt1 = Some (K, len l / 4 ^ (K + 1))).
  { rewrite Z.div_small by lia. by apply HI1. }
  unfold pop. rewrite Hm, Hroot.
  erewrite bind_inr by exact Hrun1. cbv zeta. rewrite Hsize.
  replace (len l + 1 - 1) with (len l) by lia.
  unfold reduce_node.
  destruct (decide (K = 0 \/ leaf_index (len l) <> 0%nat)) as [Hcase|Hcase].
  - (* the last element is cleared in its leaf *)
    destruct (pop_walk lo rt1 K (l ++ [e]) K (len l) (len l) (leaf_index (len l))
                (levels K) Hkey 0 h1 pos1 rt1 (SRef rt1) ltac:(lia))
      as (prev' & b & pos2 & h2 & Hwalk & HI2 & Hb & Hag2); [|done|done| |].
    + intros j level [-> Hj]%levels_lookup. rewrite levels_length. split.
      * rewrite slot_ix_eq by lia. do 4 f_equal. lia.
      * destruct Hcase as [->|Hne]; [simpl in Hj; lia|].
        apply andb_false_iff. right. by apply Nat.eqb_neq.
    + rewrite levels_length. rewrite Hrt1. f_equal. f_equal; [lia|].
      do 2 f_equal. lia.
    + erewrite (bind_inr (bind _ _)).
      2:{ erewrite bind_inr by exact Hd1. exact Hwalk. }
      cbn [fst snd is_none].
      destruct (inv_node _ _ _ _ _ _ _ HI2 b _ _ Hb) as (_ & _ & _ & cs & Hcs & Hlen & _).
      erewrite bind_inr.
      2:{ apply set_child_eq; [done|]. rewrite leaf_index_eq. lia. }
      rewrite leaf_index_eq. change (4 ^ (0 + 1)) with 4 in Hb.
      apply (pop_tail lo h _ pos2 rt1 K l prev' Hp).
      * by eapply Inv_leaf_clear.
      * rewrite length_insert. apply agree_length in Hag2. lia.
      * eapply agree_trans; [done|]. eapply agree_trans; [done|].
        apply agree_write. exact (inv_lo _ _ _ _ _ _ _ HI2 b _ Hb).
  - (* the last element is alone in its leaf, which is dropped *)
    assert (HK1 : 1 <= K) by (destruct (decide (K = 0)); [tauto|lia]).
    assert (Hlix : leaf_index (len l) = 0%nat).
    { destruct (decide (leaf_index (len l) = 0%nat)); [done|tauto]. }
    assert (Hmod : len l mod 4 = 0) by (rewrite leaf_index_eq in Hlix; lia).
    set (ls := take (Z.to_nat K - 1) (levels K)).
    assert (Hlsl : Z.of_nat (length ls) = K - 1).
    { unfold ls. rewrite length_take, levels_length. lia. }
    destruct (pop_walk lo rt1 K (l ++ [e]) K (len l) (len l) (leaf_index (len l))
                ls Hkey 1 h1 pos1 rt1 (SRef rt1) ltac:(lia))
      as (prev' & b & pos2 & h2 & Hwalk & HI2 & Hb & Hag2); [|done|done| |].
    + intros j level Hj. unfold ls in Hj.
      apply lookup_take_Some in Hj as [[-> Hj]%levels_lookup Hj'].
      rewrite Hlsl. split.
      * rewrite slot_ix_eq by lia. do 4 f_equal. lia.
      * apply andb_false_iff. left. apply Z.eqb_neq. lia.
    + rewrite Hlsl. rewrite Hrt1. f_equal. f_equal; [lia|].
      do 2 f_equal. lia.
    + change (4 ^ (1 + 1)) with (4 ^ 2) in Hb.
      destruct (inv_node _ _ _ _ _ _ _ HI2 b _ _ Hb) as (_ & _ & _ & cs & Hcs & Hlen & _).
      assert (Hlo2 : (lo <= length h2)%nat) by (apply agree_length in Hag2; lia).
      destruct (Inv_drop_leaf lo h2 pos2 rt1 K l e K K b cs HI2 Hmod HK1 Hb Hcs)
        as (old & Hold & _).
      destruct (Inv_ref_child _ _ _ _ _ _ _ b _ _ cs _ old HI2 Hb Hcs Hold ltac:(lia))
        as (csb & Hcsb & Hcsblen & _).
      destruct (Inv_drop_leaf lo (h2 ++ [csb]) pos2 rt1 K l e K K b cs
                  (Inv_alloc _ _ _ _ _ _ _ csb HI2) Hmod HK1 Hb)
        as (old' & Hold' & HI3).
      { rewrite lookup_app_l; [done|]. by eapply lookup_lt_Some. }
      assert (old' = old) as -> by congruence.
      erewrite (bind_inr (bind _ _)).
      2:{ erewrite bind_inr by exact Hd1.
          rewrite (levels_snoc K HK1). fold ls. rewrite reduce_levels_app.
          erewrite bind_inr by exact Hwalk. cbn [reduce_levels].
          erewrite bind_inr; [reflexivity|].
          rewrite slot_ix_eq by lia. change (4 ^ 1) with 4.
          eapply pop_reducer_drop; [done..|]. by rewrite Hlix. }
      cbn [fst snd is_none].
      erewrite bind_inr by reflexivity.
      apply (pop_tail lo h _ (delete old pos2) rt1 K l (SRef b) Hp).
      * exact HI3.
      * rewrite length_insert, length_app. lia.
      * eapply agree_trans; [done|]. eapply agree_trans; [done|].
        eapply agree_trans; [by apply agree_alloc|].
        apply agree_write. exact (inv_lo _ _ _ _ _ _ _ HI2 b _ Hb).
Qed.

End PopRepr.

Section PopBuilt.
Context {T : Type}.
Implicit Types (h : heap T) (s x : slot T) (l : list (slot T))
  (pos : gmap addr (Z * Z)) (v w : @Vector T).

(** What [at] answers on a trie whose height is the depth of its size. *)
Lemma at_result_depth lo h v K l key :
  Repr lo h v K l -> depth v h = (inr K, h) -> 0 <= key < len l ->
  at_result v key h = inr (default SNone (l !! Z.to_nat key)).
Proof.
  intros (pos & rt & HI & Hroot & Hsize & Hlo) Hd Hkey.
  destruct (at_Inv lo h pos rt K l K v key HI Hroot Hsize Hd Hkey) as (b & Hat & _).
  unfold at_result. by rewrite Hat.
Qed.

(** The depth of a size that is not an exact power of WIDTH is the depth
    of the size before it. *)
Lemma depth_pred v w h h' K :
  depth v h = (inr K, h) -> 0 < size v -> size w = size v - 1 ->
  is_power_of (size v) WIDTH = false ->
  depth w h' = (inr K, h').
Proof.
  intros Hd Hpos Hsz Hp.
  destruct (depth_bounds v h K Hd) as (HK & Hup & Hdn). specialize (Hdn Hpos).
  apply depth_eq; [lia|]. rewrite Hsz.
  destruct (Z.eqb_spec (size v - 1) 0) as [E|E].
  - destruct (decide (K = 0)) as [->|]; [done|].
    assert (4 <= 4 ^ K); [|lia].
    replace K with ((K - 1) + 1) by lia. rewrite pow4_succ by lia.
    pose proof (pow4_pos (K - 1) ltac:(lia)). lia.
  - apply log4_unique; [done|]. split; [|lia].
    destruct (decide (K = 0)) as [->|]; [simpl; lia|].
    rewrite is_power_of_false in Hp. specialize (Hp K ltac:(lia)). lia.
Qed.

(** The depth at an exact power of WIDTH. *)
Lemma depth_power v h k :
  0 <= k -> size v = 4 ^ k -> depth v h = (inr k, h).
Proof.
  intros Hk Hsz. pose proof (pow4_pos k Hk).
  apply depth_eq; [lia|]. rewrite Hsz.
  destruct (Z.eqb_spec (4 ^ k) 0); [lia|].
  apply log4_unique; [done|]. rewrite pow4_succ by done. lia.
Qed.

(** [pop] in persistent mode on a trie built by appends whose size is an
    exact power of WIDTH: the descent goes one level too far and asks an
    element for a copy. *)
Lemma pop_Repr_short lo h v K l :
  Repr lo h v K l -> len l = 4 ^ (K + 1) -> Forall is_elem l ->
  mutation v = false ->
  exists h', pop v h = (inl AttributeError, h').
Proof.
  intros (pos & rt & HI & Hroot & Hsize & Hlo) Hn Hel Hm.
  pose proof (Inv_height _ _ _ _ _ _ _ HI) as HK.
  pose proof (pow4_pos K HK) as HpK.
  pose proof (pow4_succ K HK) as HpK1.
  assert (Hd : depth v h = (inr (K + 1), h)).
  { apply depth_power; [lia|congruence]. }
  destruct (start_root_Inv false lo h pos rt K _ K HI Hlo)
    as (rt1 & pos1 & h1 & Hrun1 & HI1 & Hag1).
  assert (Hlo1 : (lo <= length h1)%nat) by (apply agree_length in Hag1; lia).
  assert (Hd1 : depth v h1 = (inr (K + 1), h1)) by (by rewrite (depth_indep v h h1), Hd).
  set (key := len l - 1). set (tk := key / 4).
  assert (Htk : tk = 4 ^ K - 1).
  { unfold tk, key. rewrite Hn, HpK1. symmetry.
    apply (Z.div_unique _ _ _ 3); lia. }
  assert (Htkr : 0 <= tk < len l) by lia.
  set (ls := take (Z.to_nat K) (levels (K + 1))).
  assert (Hlsl : Z.of_nat (length ls) = K).
  { unfold ls. rewrite length_take, levels_length. lia. }
  assert (Hdiv : forall m, 0 <= m -> key / 4 ^ (m + 1) = tk / 4 ^ m).
  { intros m Hm0. unfold tk. rewrite Z.div_div by (try apply pow4_pos; lia).
    by rewrite pow4_succ by done. }
  destruct (pop_walk lo rt1 K l K key tk (leaf_index key) ls Htkr 0 h1 pos1 rt1
              (SRef rt1) ltac:(lia))
    as (prev' & b & pos2 & h2 & Hwalk & HI2 & Hb & Hag2); [|done|done| |].
  - intros j level Hj. unfold ls in Hj.
    apply lookup_take_Some in Hj as [[-> Hj]%levels_lookup Hj'].
    rewrite Hlsl. split.
    + rewrite slot_ix_eq by lia.
      replace (K + 1 - Z.of_nat j) with ((0 + K - Z.of_nat j) + 1) by lia.
      by rewrite Hdiv by lia.
    + apply andb_false_iff. left. apply Z.eqb_neq. lia.
  - rewrite Hlsl. replace (0 + K) with K by lia.
    rewrite (Z.div_small tk) by lia. by apply HI1.
  - change (4 ^ (0 + 1)) with 4 in Hb.
    assert (Hcopy : exists h3,
      pop_reducer false (leaf_index key) (prev', SRef b) 1 (slot_ix key 1) h2
        = (inl AttributeError, h3)).
    { unfold pop_reducer. cbn [snd].
      rewrite slot_ix_eq by lia. change (4 ^ 1) with 4. fold tk.
      rewrite <- leaf_index_eq.
      erewrite bind_inr by (eapply leaf_read; [done..|lia]).
      destruct (lookup_lt_is_Some_2 l (Z.to_nat tk)) as [x Hx]; [unfold len in *; lia|].
      rewrite Hx. simpl.
      assert (Hxe : is_elem x) by (eapply Forall_lookup_1; eauto).
      exists h2. unfold copy_node.
      erewrite (bind_inl (bind _ _)); [done|].
      by erewrite bind_inl by by apply children_elem. }
    destruct Hcopy as (h3 & Hcopy).
    exists h3. unfold pop. rewrite Hm, Hroot.
    erewrite bind_inr by exact Hrun1. cbv zeta.
    rewrite Hsize. fold key.
    erewrite bind_inl; [done|].
    unfold reduce_node. erewrite bind_inr by exact Hd1.
    rewrite (levels_snoc (K + 1)) by lia.
    replace (Z.to_nat (K + 1) - 1)%nat with (Z.to_nat K) by lia. fold ls.
    rewrite reduce_levels_app. erewrite bind_inr by exact Hwalk.
    cbn [reduce_levels]. by erewrite bind_inl by exact Hcopy.
Qed.

End PopBuilt.

Section PopTheorems.
Context {T : Type}.
Implicit Types (h : heap T) (s x : slot T) (l : list (slot T))
  (pos : gmap addr (Z * Z)) (v w : @Vector T).

(** [pop] undoes the last element of the constructor's list.  On the
    vector [v] built from [l ++ [e]], where the size is not an exact
    power of WIDTH, [pop] returns a persistent vector of the size of [l]
    on which [at] returns the elements of [l], also where the length of
    [l] is itself an exact power of WIDTH; and [v] reads afterwards as
    it did before. *)
Theorem pop_after_init h l e :
  is_power_of (len l + 1) WIDTH = false ->
  exists v h1 w h2,
    Vector_init (l ++ [e]) h = (inr v, h1) /\
    pop v h1 = (inr w, h2) /\
    size w = len l /\ mutation w = false /\
    (forall i, 0 <= i < len l ->
       at_result w i h2 = inr (default SNone (l !! Z.to_nat i))) /\
    (forall i, 0 <= i < len l + 1 ->
       at_result v i h2 = inr (default SNone ((l ++ [e]) !! Z.to_nat i))).
Proof.
  intros Hp.
  destruct (Vector_init_Repr h (l ++ [e])) as (v & K & h1 & Hrun & HR & Hh & Hm & Hsz & Hf).
  rewrite len_app in Hh, Hsz.
  assert (Hn0 : 0 <= len l) by (unfold len; lia).
  pose proof (hgt_not_power _ _ Hh ltac:(lia) Hp) as Hlt.
  assert (Hd : depth v h1 = (inr K, h1)).
  { eapply Repr_depth; [done|by rewrite len_app..]. }
  destruct (pop_Repr (length h) h1 v K l e HR Hm Hd Hp) as (w & h2 & Hpop & HRw & Hmw & Hag).
  assert (Hszw : size w = len l) by (by destruct HRw as (? & ? & _ & _ & ? & _)).
  exists v, h1, w, h2. split; [done|]. split; [done|]. split; [done|]. split; [done|].
  split.
  - intros i Hi. apply (at_result_depth (length h) h2 w K l i HRw); [|done].
    apply (depth_pred v w h1 h2 K Hd); [lia|lia|by rewrite Hsz].
  - intros i Hi.
    assert (Hat : at_result v i h1 = inr (default SNone ((l ++ [e]) !! Z.to_nat i))).
    { apply (at_result_depth (length h) h1 v K); [done..|by rewrite len_app]. }
    rewrite <- Hat. apply at_result_frame; [|by rewrite Hat].
    pose proof (pop_frame v h1 Hm) as Hfr. unfold wp in Hfr. rewrite Hpop in Hfr.
    by destruct Hfr.
Qed.

(** The defect of [pop] in general: on the vector the constructor
    builds from a list of elements whose length is an exact power of
    WIDTH, [pop] raises [AttributeError]; no node that existed is
    written. *)
Theorem pop_raises_at_powers h l :
  is_power_of (len l) WIDTH = true -> Forall is_elem l ->
  exists v h1 h2,
    Vector_init l h = (inr v, h1) /\
    pop v h1 = (inl AttributeError, h2) /\ frame h1 h2.
Proof.
  intros Hp Hel.
  destruct (Vector_init_Repr h l) as (v & K & h1 & Hrun & HR & Hh & Hm & Hsz & Hf).
  pose proof (hgt_power _ _ Hh Hp) as Hn.
  destruct (pop_Repr_short (length h) h1 v K l HR Hn Hel Hm) as (h2 & Hpop).
  exists v, h1, h2. split; [done|]. split; [done|].
  pose proof (pop_frame v h1 Hm) as Hfr. unfold wp in Hfr. rewrite Hpop in Hfr.
  by destruct Hfr.
Qed.

(** [copy] is [pop] after [append(None)], so it inherits the defect one
    size earlier.  On the vector the constructor builds from a list of
    elements, [copy] raises [AttributeError] when the length plus one is
    an exact power of WIDTH (lengths 3, 15, 63, ...); otherwise it
    returns a persistent vector of the same size on which [at] returns
    the elements of the list, also where the length itself is an exact
    power of WIDTH and the receiver cannot be read.  No node that
    existed is written.  [slice] without a start is this [copy]. *)
Theorem copy_spec h l :
  Forall is_elem l ->
  exists v h1,
    Vector_init l h = (inr v, h1) /\
    (forall stop, slice v None stop h1 = (out <- copy v ;; ret (out, v)) h1) /\
    if is_power_of (len l + 1) WIDTH
    then exists h2, copy v h1 = (inl AttributeError, h2) /\ frame h1 h2
    else exists u h2,
      copy v h1 = (inr u, h2) /\ frame h1 h2 /\
      size u = len l /\ mutation u = false /\
      forall i, 0 <= i < len l ->
        at_result u i h2 = inr (default SNone (l !! Z.to_nat i)).
Proof.
  intros Hel.
  destruct (Vector_init_Repr h l) as (v & K & h1 & Hrun & HR & Hh & Hm & Hsz & Hf).
  exists v, h1. split; [done|]. split; [done|].
  assert (Hn0 : 0 <= len l) by (unfold len; lia).
  destruct (append_Repr (length h) h1 v K l SNone HR Hh)
    as (w & K' & ha & Happ & HRw & Hhw & Hmw & Haga).
  rewrite Hm in Hmw.
  pose proof (copy_frame v h1 Hm) as Hfr. unfold wp in Hfr.
  destruct (is_power_of (len l + 1) WIDTH) eqn:Hp.
  - pose proof (hgt_power _ _ Hhw Hp) as Hn. rewrite <- len_app with (s := SNone) in Hn.
    destruct (pop_Repr_short (length h) ha w K' (l ++ [SNone]) HRw Hn) as (h2 & Hpop);
      [by apply Forall_is_elem_app|done|].
    assert (Hcopy : copy v h1 = (inl AttributeError, h2)).
    { unfold copy. by erewrite bind_inr by exact Happ. }
    exists h2. split; [done|]. rewrite Hcopy in Hfr. by destruct Hfr.
  - pose proof (hgt_not_power _ _ Hhw ltac:(lia) Hp) as Hlt.
    assert (Hd : depth w ha = (inr K', ha)).
    { eapply Repr_depth; [done|by rewrite len_app..]. }
    assert (Hszw : size w = len l + 1).
    { destruct HRw as (? & ? & _ & _ & -> & _). apply len_app. }
    destruct (pop_Repr (length h) ha w K' l SNone HRw Hmw Hd Hp)
      as (u & h2 & Hpop & HRu & Hmu & Hagu).
    assert (Hszu : size u = len l) by (by destruct HRu as (? & ? & _ & _ & ? & _)).
    assert (Hcopy : copy v h1 = (inr u, h2)).
    { unfold copy. by erewrite bind_inr by exact Happ. }
    exists u, h2. split; [done|]. rewrite Hcopy in Hfr.
    split; [by destruct Hfr|]. split; [done|]. split; [done|].
    intros i Hi. apply (at_result_depth (length h) h2 u K' l i HRu); [|done].
    apply (depth_pred w u ha h2 K' Hd); [lia|lia|by rewrite Hszw].
Qed.

End PopTheorems.

Lemma pop_after_init_witness :
  exists v h1 w h2,
    Vector_init (of_list [0; 1; 2; 3] ++ [SVal 4]) empty_heap = (inr v, h1) /\
    pop v h1 = (inr w, h2) /\
    size w = 4 /\ mutation w = false /\
    (forall i, 0 <= i < 4 ->
       at_result w i h2 = inr (default SNone (of_list [0; 1; 2; 3] !! Z.to_nat i))) /\
    (forall i, 0 <= i < 5 ->
       at_result v i h2
       = inr (default SNone ((of_list [0; 1; 2; 3] ++ [SVal 4]) !! Z.to_nat i))).
Proof.
  apply (pop_after_init empty_heap (of_list [0; 1; 2; 3]) (SVal 4)).
  reflexivity.
Defined.

Lemma pop_raises_at_powers_witness :
  exists v h1 h2,
    Vector_init (of_list (map Z.of_nat (seq 0 16))) empty_heap = (inr v, h1) /\
    pop v h1 = (inl AttributeError, h2) /\ frame h1 h2.
Proof.
  apply (pop_raises_at_powers empty_heap (of_list (map Z.of_nat (seq 0 16)))).
  - reflexivity.
  - apply Forall_forall. intros x (y & -> & _)%list_elem_of_fmap. exact I.
Defined.

Lemma copy_spec_witness :
  exists v h1,
    Vector_init (of_list [7; 8; 9]) empty_heap = (inr v, h1) /\
    (forall stop, slice v None stop h1 = (out <- copy v ;; ret (out, v)) h1) /\
    exists h2, copy v h1 = (inl AttributeError, h2) /\ frame h1 h2.
Proof.
  apply (copy_spec empty_heap (of_list [7; 8; 9])).
  repeat constructor.
Defined.

(** ** [slice] with the end omitted *)

Section SliceEnd.
Context {T : Type}.
Implicit Types (h : heap T) (s x : slot T) (l : list (slot T))
  (pos : gmap addr (Z * Z)) (v w : @Vector T).

(** The descent depends on the index through its digits only. *)
Lemma reduce_levels_ext {St} key key' (reducer : St -> Z -> nat -> M T St) ls :
  Forall (fun level => slot_ix key level = slot_ix key' level) ls ->
  forall init h,
  reduce_levels key reducer init ls h = reduce_levels key' reducer init ls h.
Proof.
  induction 1 as [|level ls E _ IH]; intros init h; [done|].
  cbn [reduce_levels]. rewrite E. unfold bind.
  destruct (reducer init level (slot_ix key' level) h) as [[e|st] h1]; [done|apply IH].
Qed.

Lemma read_all_app keys1 keys2 :
  forall v h,
  read_all v (keys1 ++ keys2) h
  = (r1 <- read_all v keys1 ;; r2 <- read_all r1.2 keys2 ;;
     ret (r1.1 ++ r2.1, r2.2)) h.
Proof.
  induction keys1 as [|key keys1 IH]; intros v h.
  - cbn [app read_all]. unfold bind at 1. cbn [ret fst snd].
    unfold bind, ret. by destruct (read_all v keys2 h) as [[e|[vals v']] h1].
  - cbn [app read_all]. unfold bind at 1 3 4.
    destruct (at_ v key h) as [[e|r] h1]; [done|].
    unfold bind at 1. rewrite IH. unfold bind at 1 3 4.
    destruct (read_all r.2 keys1 h1) as [[e|r1] h2]; [done|].
    cbn [ret fst snd]. unfold bind, ret.
    by destruct (read_all r1.2 keys2 h2) as [[e|r2] h3].
Qed.

Lemma range_snoc start stop :
  start <= stop -> range start (stop + 1) = range start stop ++ [stop].
Proof.
  intros Hle. unfold range.
  replace (Z.to_nat (stop + 1 - start)) with (Z.to_nat (stop - start) + 1)%nat by lia.
  rewrite seq_app, map_app. simpl. do 2 f_equal. lia.
Qed.

(** [at] at the index [size], where the size is not a multiple of WIDTH:
    the slot after the last element, in the leaf of the last element,
    holds [None]. *)
Lemma at_Inv_end lo h pos rt K l lev v :
  Inv lo h pos rt K l lev -> root v = SRef rt -> size v = len l ->
  depth v h = (inr K, h) -> len l mod 4 <> 0 ->
  exists b,
    at_ v (len l) h
      = (inr (SNone, mkVector (root v) (size v) (mutation v) (Some (SRef b))), h).
Proof.
  intros HI Hroot Hsz Hd Hmod. pose proof (Inv_height _ _ _ _ _ _ _ HI) as HK.
  assert (Hn0 : 0 <= len l) by (unfold len; lia).
  assert (Hn1 : 1 <= len l).
  { destruct (decide (len l = 0)) as [E|]; [by rewrite E in Hmod|lia]. }
  destruct (depth_bounds v h K Hd) as (_ & Hup & _).
  assert (Hq : (len l - 1) / 4 = len l / 4).
  { pose proof (Z.div_mod (len l) 4 ltac:(lia)).
    pose proof (Z.mod_pos_bound (len l) 4 ltac:(lia)).
    symmetry. apply (Z.div_unique _ _ _ (len l mod 4 - 1)); lia. }
  destruct (at_walk lo rt K l lev (len l - 1) h pos K HK HI ltac:(lia) rt)
    as (b & Hrun & Hb).
  { rewrite Z.div_small by lia. by apply HI. }
  rewrite Hq in Hb.
  exists b. unfold at_, reduce_node. rewrite Hroot.
  erewrite (bind_inr (bind _ _)).
  2:{ erewrite bind_inr by exact Hd. rewrite <- Hrun.
      apply reduce_levels_ext. apply Forall_forall.
      intros level (j & [-> Hj]%levels_lookup)%list_elem_of_lookup_1.
      rewrite !slot_ix_eq by lia. do 2 f_equal.
      replace (K - Z.of_nat j) with ((K - Z.of_nat j - 1) + 1) by lia.
      rewrite pow4_succ by lia.
      rewrite <- !Z.div_div by (try apply pow4_pos; lia).
      by rewrite Hq. }
  erewrite bind_inr by (eapply leaf_read; [done..|lia]).
  rewrite lookup_ge_None_2; [done|]. unfold len. lia.
Qed.

(** [slice(start)] with the end omitted reads the indices up to and
    including the size.  On the vector the constructor builds from a
    list whose length is not a multiple of WIDTH, it is the constructor
    applied to the elements from [start] on followed by one [None]. *)
Theorem slice_omitted_end h l start :
  len l mod WIDTH <> 0 -> 0 <= start <= len l ->
  exists v h1 v',
    Vector_init l h = (inr v, h1) /\
    slice v (Some start) None h1
      = (out <- Vector_init (drop (Z.to_nat start) l ++ [SNone]) ;;
         ret (out, v')) h1 /\
    same_trie v v'.
Proof.
  rewrite WIDTH_eq. intros Hmod Hstart.
  destruct (Vector_init_Repr h l) as (v & K & h1 & Hrun & HR & Hh & Hm & Hsz & Hf).
  assert (Hn0 : 0 <= len l) by (unfold len; lia).
  assert (Hp : is_power_of (len l) WIDTH = false).
  { apply is_power_of_false. intros k Hk E. apply Hmod. rewrite E.
    replace k with ((k - 1) + 1) by lia. rewrite pow4_succ by lia.
    by rewrite Z.mul_comm, Z.mod_mul. }
  pose proof (hgt_not_power _ _ Hh Hn0 Hp) as Hlt.
  pose proof (Repr_depth _ _ _ _ _ HR Hh Hlt) as Hd.
  destruct (read_all_Repr (length h) h1 K l (range start (len l)) Hh Hlt) with (v := v)
    as (v1 & Hread1 & Hsame1); [|done|].
  { apply Forall_forall. intros key Hk%range_in. lia. }
  destruct HR as (pos & rt & HI & Hroot & _ & _).
  destruct Hsame1 as (Hr1 & Hs1 & Hm1).
  destruct (at_Inv_end _ _ _ _ _ _ _ v1 HI) as (b & Hat);
    [congruence|congruence| |done|].
  { by rewrite (depth_same_size v v1). }
  eexists v, h1, _. split; [done|]. split.
  - unfold slice. rewrite Hsz. rewrite range_snoc by lia.
    unfold bind at 1. rewrite read_all_app.
    erewrite bind_inr by exact Hread1. cbn [fst snd read_all].
    erewrite bind_inr.
    2:{ erewrite bind_inr by exact Hat. reflexivity. }
    cbn [fst snd ret].
    rewrite read_range by lia.
    rewrite take_ge; [reflexivity|].
    rewrite length_drop. unfold len. lia.
  - unfold same_trie. cbn. split_and!; congruence.
Qed.

End SliceEnd.

Lemma slice_omitted_end_witness :
  exists v h1 v',
    Vector_init (of_list [0; 1; 2; 3; 4; 5]) empty_heap = (inr v, h1) /\
    slice v (Some 2) None h1
      = (out <- Vector_init (of_list [2; 3; 4; 5] ++ [SNone]) ;; ret (out, v')) h1 /\
    same_trie v v'.
Proof.
  apply (slice_omitted_end empty_heap (of_list [0; 1; 2; 3; 4; 5]) 2).
  - vm_compute. discriminate.
  - unfold len. simpl. lia.
Defined.

(** ** [concat] *)

Section Concat.
Context {T : Type}.
Implicit Types (h : heap T) (s x : slot T) (l : list (slot T))
  (pos : gmap addr (Z * Z)) (v w : @Vector T).

Lemma agree_mono lo lo' h h' : (lo' <= lo)%nat -> agree lo h h' -> agree lo' h h'.
Proof. intros Hle [H1 H2]. split; [|done]. intros a Ha. apply H1. lia. Qed.

(** A trie stays what it is while the nodes that existed when it was
    built are left alone. *)
Lemma Inv_agree lo h h' pos rt K l lev :
  Inv lo h pos rt K l lev -> agree (length h) h h' -> Inv lo h' pos rt K l lev.
Proof.
  intros [H1 H2 H3 H4 H5] [Hag _]. split; try done.
  - intros a k i Ha. destruct (H4 a k i Ha) as (? & ? & ? & cs & Hcs & ?).
    do 3 (split; [done|]). exists cs. split; [|done].
    rewrite Hag; [done|]. by eapply lookup_lt_Some.
  - intros b k i Hb Hk. destruct (H5 b k i Hb Hk) as (a & cs & ? & Hcs & ?).
    exists a, cs. split; [done|]. split; [|done].
    rewrite Hag; [done|]. by eapply lookup_lt_Some.
Qed.

Lemma Repr_agree lo h h' v K l :
  Repr lo h v K l -> agree (length h) h h' -> Repr lo h' v K l.
Proof.
  intros (pos & rt & HI & Hroot & Hsize & Hlo) Hag. exists pos, rt.
  split; [by eapply Inv_agree|]. split; [done|]. split; [done|].
  destruct Hag as [_ ?]. lia.
Qed.

Lemma Repr_set_mutation lo h v K l m :
  Repr lo h v K l -> Repr lo h (set_mutation v m) K l.
Proof. intros (pos & rt & ?). by exists pos, rt. Qed.

(** The inner loop of [concat]: the elements read from the argument are
    appended to the base.  The argument was built before the base, so
    the appends, in place or not, leave its nodes alone. *)
Lemma concat_one_Repr lo los hs sub Ks ls keys :
  Repr los hs sub Ks ls -> hgt Ks (len ls) -> len ls < 4 ^ (Ks + 1) ->
  (length hs <= lo)%nat ->
  Forall (fun key => 0 <= key < len ls) keys ->
  forall h base K l sub',
  same_trie sub sub' -> Repr lo h base K l -> hgt K (len l) ->
  agree (length hs) hs h ->
  exists base' K' h' sub'',
    concat_one base sub' keys h = (inr (base', sub''), h') /\
    Repr lo h' base' K' (l ++ map (fun key => default SNone (ls !! Z.to_nat key)) keys) /\
    hgt K' (len (l ++ map (fun key => default SNone (ls !! Z.to_nat key)) keys)) /\
    mutation base' = mutation base /\ agree (length hs) hs h' /\
    same_trie sub sub''.
Proof.
  intros HRs Hhs Hlts Hlo. induction 1 as [|key keys Hkey _ IH];
    intros h base K l sub' Hsame HR Hh Hag.
  - exists base, K, h, sub'. simpl. rewrite app_nil_r. done.
  - cbn [concat_one map].
    assert (HRs' : Repr los h sub' Ks ls).
    { eapply Repr_same_trie; [done|]. by eapply Repr_agree. }
    destruct (at_Repr los h sub' Ks ls key HRs' Hhs Hlts Hkey) as (e & lf & Hat & He).
    erewrite bind_inr by exact Hat. cbn [fst snd].
    destruct (append_Repr lo h base K l e HR Hh)
      as (base1 & K1 & h1 & Happ & HR1 & Hh1 & Hm1 & Hag1).
    erewrite bind_inr by exact Happ.
    rewrite <- (len_app l e) in Hh1.
    destruct (IH h1 base1 K1 (l ++ [e])
                (mkVector (root sub') (size sub') (mutation sub') (Some lf)))
      as (base' & K' & h' & sub'' & Hrun & HR' & Hh' & Hm' & Hag' & Hsame');
      [|done|done| |].
    { destruct Hsame as (? & ? & ?). done. }
    { eapply agree_trans; [done|]. by eapply agree_mono. }
    rewrite He. cbn [default]. rewrite <- app_assoc in HR', Hh'. cbn [app] in HR', Hh'.
    exists base', K', h', sub''. split; [done|]. split; [done|]. split; [done|].
    split; [congruence|done].
Qed.

End Concat.

Section ConcatSpec.
Context {T : Type}.
Implicit Types (h : heap T) (s x : slot T) (l : list (slot T))
  (pos : gmap addr (Z * Z)) (v w : @Vector T).

Lemma read_whole l :
  map (fun key => default SNone (l !! Z.to_nat key)) (range 0 (len l)) = l.
Proof.
  assert (Hn0 : 0 <= len l) by (unfold len; lia).
  rewrite read_range by lia. rewrite drop_0.
  apply take_ge. unfold len. lia.
Qed.

(** [concat] of a vector with one that was built before it.  For lists
    of elements [l1] and [l2], with the lengths of [l1], of [l1] plus
    one and of [l2] not exact powers of WIDTH, [Vector(l1).concat(s)]
    for [s = Vector(l2)] returns a persistent vector of the size of both
    on which [at] returns the elements of [l1] and then those of [l2],
    unless that size is an exact power of WIDTH, where every read
    raises. *)
Theorem concat_spec h l1 l2 :
  Forall is_elem l1 -> Forall is_elem l2 ->
  is_power_of (len l1) WIDTH = false ->
  is_power_of (len l1 + 1) WIDTH = false ->
  is_power_of (len l2) WIDTH = false ->
  exists sub h1 v h2 r h3,
    Vector_init l2 h = (inr sub, h1) /\
    Vector_init l1 h1 = (inr v, h2) /\
    concat v [sub] h2 = (inr r, h3) /\
    size r = len l1 + len l2 /\ mutation r = false /\
    forall i, 0 <= i < len l1 + len l2 ->
      at_result r i h3 =
        if is_power_of (len l1 + len l2) WIDTH then inl AttributeError
        else inr (default SNone ((l1 ++ l2) !! Z.to_nat i)).
Proof.
  intros Hel1 Hel2 Hp1 Hp1' Hp2.
  assert (Hn1 : 0 <= len l1) by (unfold len; lia).
  assert (Hn2 : 0 <= len l2) by (unfold len; lia).
  destruct (Vector_init_Repr h l2)
    as (sub & Ks & h1 & Hruns & HRs & Hhs & Hms & Hszs & Hfs).
  destruct (Vector_init_Repr h1 l1)
    as (v & K & h2 & Hrunv & HRv & Hhv & Hmv & Hszv & Hfv).
  pose proof (hgt_not_power _ _ Hhs Hn2 Hp2) as Hlts.
  (* the copy of the receiver *)
  destruct (append_Repr (length h1) h2 v K l1 SNone HRv Hhv)
    as (w & K' & ha & Happ & HRw & Hhw & Hmw & Haga).
  rewrite Hmv in Hmw.
  pose proof (hgt_not_power _ _ Hhw ltac:(lia) Hp1') as Hltw.
  assert (Hdw : depth w ha = (inr K', ha)).
  { eapply Repr_depth; [done|by rewrite len_app..]. }
  destruct (pop_Repr (length h1) ha w K' l1 SNone HRw Hmw Hdw Hp1')
    as (base & hb & Hpop & HRb & Hmb & Hagb).
  assert (Hcopy : copy v h2 = (inr base, hb)).
  { unfold copy. by erewrite bind_inr by exact Happ. }
  assert (Hhb : hgt K' (len l1)).
  { destruct Hhw as (HK' & Hhi & Hlow). split; [done|]. split; [lia|].
    destruct (decide (K' = 0)) as [?|HK0]; [by left|right].
    destruct Hlow as [?|Hlow]; [done|].
    rewrite is_power_of_false in Hp1.
    specialize (Hp1 K' ltac:(lia)). lia. }
  (* the appends *)
  assert (Hag1b : agree (length h1) h1 hb).
  { eapply agree_trans; [|done]. eapply agree_trans; [|done].
    destruct Hfv as [k ->]. split; [|rewrite length_app; lia].
    intros a Ha. by rewrite lookup_app_l. }
  destruct (concat_one_Repr (length h1) (length h) h1 sub Ks l2 (range 0 (len l2))
              HRs Hhs Hlts ltac:(lia)) with (h := hb) (base := set_mutation base true)
              (K := K') (l := l1) (sub' := sub)
    as (base' & K'' & h3 & sub'' & Hrun & HR' & Hh' & Hm' & Hag' & Hsame').
  { apply Forall_forall. intros key Hk%range_in. lia. }
  { done. }
  { by apply Repr_set_mutation. }
  { done. }
  { done. }
  rewrite read_whole in HR', Hh'.
  assert (Hlen : len (l1 ++ l2) = len l1 + len l2).
  { unfold len. rewrite length_app. lia. }
  exists sub, h1, v, h2, (set_mutation base' false), h3.
  split; [done|]. split; [done|]. split.
  { unfold concat. rewrite Hmv. erewrite bind_inr by exact Hcopy.
    cbn [concat_all]. erewrite (bind_inr (bind _ _)); [reflexivity|].
    rewrite Hszs. by erewrite bind_inr by exact Hrun. }
  split.
  { destruct HR' as (? & ? & _ & _ & Hsz & _). cbn. by rewrite Hsz. }
  split; [done|].
  intros i Hi. rewrite <- Hlen in Hi |- *.
  apply (at_result_Repr (length h1) h3 _ K''); [|done| |done].
  - by apply Repr_set_mutation.
  - by apply Forall_app.
Qed.

End ConcatSpec.

Lemma concat_spec_witness :
  exists sub h1 v h2 r h3,
    Vector_init (of_list [5; 6; 7]) empty_heap = (inr sub, h1) /\
    Vector_init (of_list [0; 1; 2; 3; 4]) h1 = (inr v, h2) /\
    concat v [sub] h2 = (inr r, h3) /\
    size r = 8 /\ mutation r = false /\
    forall i, 0 <= i < 8 ->
      at_result r i h3
      = inr (default SNone (of_list [0; 1; 2; 3; 4; 5; 6; 7] !! Z.to_nat i)).
Proof.
  apply (concat_spec empty_heap (of_list [0; 1; 2; 3; 4]) (of_list [5; 6; 7]));
    try reflexivity; repeat constructor.
Defined.

(** ** Node width and index errors *)

Section Bounds.
Context {T : Type}.
Implicit Types (h : heap T) (s x : slot T) (l : list (slot T)) (v w : @Vector T).

Lemma slot_ix_lt key level : (slot_ix key level < 4)%nat.
Proof.
  unfold slot_ix. rewrite land_mask.
  pose proof (Z.mod_pos_bound (Z.shiftr key (level * BITS)) 4 ltac:(lia)). lia.
Qed.

Lemma leaf_index_lt key : (leaf_index key < 4)%nat.
Proof.
  rewrite leaf_index_eq. pose proof (Z.mod_pos_bound key 4 ltac:(lia)). lia.
Qed.

Lemma full_nodes_lookup h a cs : full_nodes h -> h !! a = Some cs -> length cs = 4%nat.
Proof. intros Hf Ha. exact (Forall_lookup_1 _ _ _ _ Hf Ha). Qed.

Lemma full_nodes_alloc h cs : full_nodes h -> length cs = 4%nat -> full_nodes (h ++ [cs]).
Proof. intros. apply Forall_app. split; [done|]. by repeat constructor. Qed.

Lemma b_ret {A} (P : A -> Prop) a h : full_nodes h -> P a -> wp (ret a) h (bounded P).
Proof. by split. Qed.

Lemma b_raise {A} (P : A -> Prop) e h :
  full_nodes h -> e <> IndexError -> wp (raise e) h (bounded P).
Proof. by split. Qed.

Lemma b_bind {A B} (P : A -> Prop) (Q : B -> Prop) (m : M T A) (k : A -> M T B) h :
  wp m h (bounded P) ->
  (forall a h', full_nodes h' -> P a -> wp (k a) h' (bounded Q)) ->
  wp (bind m k) h (bounded Q).
Proof.
  unfold wp, bind. destruct (m h) as [[e|a] h']; simpl.
  - by intros [? ?] _.
  - intros [? ?] Hk. by apply Hk.
Qed.

Lemma b_mono {A} (P Q : A -> Prop) (m : M T A) h :
  wp m h (bounded P) -> (forall a, P a -> Q a) -> wp m h (bounded Q).
Proof.
  unfold wp, bounded. intros [? H] HPQ. split; [done|].
  destruct (m h).1; auto.
Qed.

Lemma b_children x h :
  full_nodes h -> wp (children x) h (bounded (fun cs => length cs = 4%nat)).
Proof.
  intros Hf. unfold wp, children. destruct x as [| |a]; try by split.
  destruct (h !! a) as [cs|] eqn:E; split; try done.
  by eapply full_nodes_lookup.
Qed.

Lemma b_get_child x ix h :
  full_nodes h -> (ix < 4)%nat -> wp (get_child x ix) h (bounded (fun _ => True)).
Proof.
  intros Hf Hix. eapply b_bind; [by apply b_children|].
  intros cs h' Hf' Hlen. cbv beta in Hlen. destruct (lookup_lt_is_Some_2 cs ix) as [s ->]; [lia|].
  by apply b_ret.
Qed.

Lemma b_set_child x ix s h :
  full_nodes h -> (ix < 4)%nat -> wp (set_child x ix s) h (bounded (fun _ => True)).
Proof.
  intros Hf Hix. eapply b_bind; [by apply b_children|].
  intros cs h' Hf' Hlen. cbv beta in Hlen. rewrite decide_True by lia.
  destruct x as [| |a]; [by apply b_raise..|].
  split; [|done]. cbn. apply Forall_insert; [done|].
  by rewrite length_insert.
Qed.

Lemma b_new_node cs h :
  full_nodes h -> (length cs <= 4)%nat ->
  wp (new_node cs) h (bounded (fun _ => True)).
Proof.
  intros Hf Hlen. split; [|done]. cbn. apply full_nodes_alloc; [done|].
  by apply mk_node_length.
Qed.

Lemma b_copy_node x h : full_nodes h -> wp (copy_node x) h (bounded (fun _ => True)).
Proof.
  intros Hf. eapply b_bind; [by apply b_children|].
  intros cs h' Hf' Hlen. cbv beta in Hlen. eapply (b_bind (fun _ => True)); [apply b_new_node; [done|lia]|].
  intros a h'' Hf'' _. by apply b_ret.
Qed.

Lemma b_depth v h : full_nodes h -> wp (depth v) h (bounded (fun _ => True)).
Proof.
  intros Hf. unfold depth. destruct (size v =? 0); [by apply b_ret|].
  destruct (size v <? 0); [by apply b_raise|by apply b_ret].
Qed.

Lemma b_reduce_levels {St} key (reducer : St -> Z -> nat -> M T St) ls :
  (forall st level ix h, full_nodes h -> (ix < 4)%nat ->
     wp (reducer st level ix) h (bounded (fun _ => True))) ->
  forall init h, full_nodes h ->
  wp (reduce_levels key reducer init ls) h (bounded (fun _ => True)).
Proof.
  intros Hstep. induction ls as [|level ls IH]; intros init h Hf.
  - by apply b_ret.
  - cbn [reduce_levels]. eapply (b_bind (fun _ => True)); [apply Hstep; [done|apply slot_ix_lt]|].
    intros st h' Hf' _. by apply IH.
Qed.

Lemma b_reduce_node {St} v key (reducer : St -> Z -> nat -> M T St) init dep h :
  (forall st level ix h, full_nodes h -> (ix < 4)%nat ->
     wp (reducer st level ix) h (bounded (fun _ => True))) ->
  full_nodes h ->
  wp (reduce_node v key reducer init dep) h (bounded (fun _ => True)).
Proof.
  intros Hstep Hf. unfold reduce_node.
  eapply (b_bind (fun _ => True)); [destruct dep; [by apply b_ret|by apply b_depth]|].
  intros d h' Hf' _. by apply b_reduce_levels.
Qed.

Lemma b_at v key h : full_nodes h -> wp (at_ v key) h (bounded (fun _ => True)).
Proof.
  intros Hf. unfold at_. eapply (b_bind (fun _ => True)).
  { apply b_reduce_node; [|done]. intros. by apply b_get_child. }
  intros lf h' Hf' _. eapply (b_bind (fun _ => True)); [apply b_get_child; [done|apply leaf_index_lt]|].
  intros val h'' Hf'' _. by apply b_ret.
Qed.

Lemma b_create rt sz h : full_nodes h -> wp (create rt sz) h (bounded (fun _ => True)).
Proof.
  intros Hf. unfold create. eapply (b_bind (fun _ => True)); [apply b_new_node; [done|simpl; lia]|].
  intros a h' Hf' _. by apply b_ret.
Qed.

Lemma b_root_copy (mut : bool) rt h :
  full_nodes h ->
  wp (if mut then @ret T (slot T) rt
      else cs <- children rt ;; a <- new_node cs ;; ret (SRef a)) h
     (bounded (fun _ => True)).
Proof.
  intros Hf. destruct mut; [by apply b_ret|]. by apply (b_copy_node rt).
Qed.

Lemma b_append_reducer mut nd level ix h :
  full_nodes h -> (ix < 4)%nat ->
  wp (append_reducer mut nd level ix) h (bounded (fun _ => True)).
Proof.
  intros Hf Hix. unfold append_reducer.
  eapply (b_bind (fun _ => True)); [by apply b_get_child|]. intros c h1 Hf1 _.
  assert (Hcopy : wp (c' <- (if mut then ret c else copy_node c) ;;
                      set_child nd ix c' ;;; get_child nd ix) h1
                     (bounded (fun _ => True))).
  { eapply (b_bind (fun _ => True)); [destruct mut; [by apply b_ret|by apply b_copy_node]|].
    intros c' h2 Hf2 _. eapply (b_bind (fun _ => True)); [by apply b_set_child|].
    intros _ h3 Hf3 _. by apply b_get_child. }
  destruct c as [|t|b]; [|exact Hcopy..].
  eapply (b_bind (fun _ => True)); [apply b_new_node; [done|simpl; lia]|]. intros a h2 Hf2 _.
  eapply (b_bind (fun _ => True)); [by apply b_set_child|]. intros _ h3 Hf3 _. by apply b_get_child.
Qed.

Lemma b_append v val h : full_nodes h -> wp (append v val) h (bounded (fun _ => True)).
Proof.
  intros Hf. unfold append.
  eapply (b_bind (fun _ => True)); [by apply b_root_copy|]. intros rt h1 Hf1 _. cbv zeta.
  eapply (b_bind (fun _ => True)).
  { destruct (is_power_of (size v) WIDTH); [|by apply b_ret].
    eapply (b_bind (fun _ => True)); [apply b_new_node; [done|simpl; lia]|].
    intros a h2 Hf2 _. by apply b_ret. }
  intros rt' h2 Hf2 _.
  eapply (b_bind (fun _ => True)).
  { apply b_reduce_node; [|done]. intros. by apply b_append_reducer. }
  intros lf h3 Hf3 _.
  eapply (b_bind (fun _ => True)); [apply b_set_child; [done|apply leaf_index_lt]|].
  intros _ h4 Hf4 _. destruct (mutation v); [by apply b_ret|by apply b_create].
Qed.

Lemma b_pop_reducer mut lix nodes level ix h :
  full_nodes h -> (ix < 4)%nat ->
  wp (pop_reducer mut lix nodes level ix) h (bounded (fun _ => True)).
Proof.
  intros Hf Hix. unfold pop_reducer. cbv zeta.
  eapply (b_bind (fun _ => True)); [by apply b_get_child|]. intros c h1 Hf1 _.
  eapply (b_bind (fun _ => True)); [destruct mut; [by apply b_ret|by apply b_copy_node]|].
  intros c' h2 Hf2 _. eapply (b_bind (fun _ => True)); [by apply b_set_child|].
  intros _ h3 Hf3 _. destruct ((level =? 1) && Nat.eqb lix 0).
  - eapply (b_bind (fun _ => True)); [by apply b_set_child|]. intros _ h4 Hf4 _. by apply b_ret.
  - eapply (b_bind (fun _ => True)); [by apply b_get_child|]. intros c'' h4 Hf4 _. by apply b_ret.
Qed.

Lemma b_pop v h : full_nodes h -> wp (pop v) h (bounded (fun _ => True)).
Proof.
  intros Hf. unfold pop.
  eapply (b_bind (fun _ => True)); [by apply b_root_copy|]. intros rt h1 Hf1 _. cbv zeta.
  eapply (b_bind (fun _ => True)).
  { apply b_reduce_node; [|done]. intros. by apply b_pop_reducer. }
  intros nodes h2 Hf2 _.
  eapply (b_bind (fun _ => True)).
  { destruct (is_none nodes.2); [by apply b_ret|].
    apply b_set_child; [done|apply leaf_index_lt]. }
  intros _ h3 Hf3 _.
  eapply (b_bind (fun _ => True)).
  { destruct (is_power_of (size v) WIDTH); [|by apply b_ret].
    apply b_get_child; [done|lia]. }
  intros prev h4 Hf4 _. destruct (mutation v); [by apply b_ret|by apply b_create].
Qed.

Lemma b_copy v h : full_nodes h -> wp (copy v) h (bounded (fun _ => True)).
Proof.
  intros Hf. unfold copy. eapply (b_bind (fun _ => True)); [by apply b_append|].
  intros out h1 Hf1 _. by apply b_pop.
Qed.

Lemma b_append_all vals :
  forall v h, full_nodes h -> wp (append_all v vals) h (bounded (fun _ => True)).
Proof.
  induction vals as [|val vals IH]; intros v h Hf; [by apply b_ret|].
  cbn [append_all]. eapply (b_bind (fun _ => True)); [by apply b_append|].
  intros v' h1 Hf1 _. by apply IH.
Qed.

Lemma b_Vector_init vals h :
  full_nodes h -> wp (Vector_init vals) h (bounded (fun _ => True)).
Proof.
  intros Hf. unfold Vector_init.
  eapply (b_bind (fun _ => True)); [apply b_new_node; [done|simpl; lia]|]. intros a h1 Hf1 _.
  eapply (b_bind (fun _ => True)); [by apply b_append_all|]. intros self h2 Hf2 _. by apply b_ret.
Qed.

Lemma b_read_all keys :
  forall v h, full_nodes h -> wp (read_all v keys) h (bounded (fun _ => True)).
Proof.
  induction keys as [|key keys IH]; intros v h Hf; [by apply b_ret|].
  cbn [read_all]. eapply (b_bind (fun _ => True)); [by apply b_at|]. intros r h1 Hf1 _.
  eapply (b_bind (fun _ => True)); [by apply IH|]. intros rs h2 Hf2 _. by apply b_ret.
Qed.

Lemma b_splice v start vals h :
  full_nodes h -> wp (splice v start vals) h (bounded (fun _ => True)).
Proof.
  intros Hf. unfold splice.
  eapply (b_bind (fun _ => True)); [by apply b_read_all|]. intros r1 h1 Hf1 _.
  eapply (b_bind (fun _ => True)); [by apply b_read_all|]. intros r2 h2 Hf2 _.
  eapply (b_bind (fun _ => True)); [by apply b_Vector_init|]. intros out h3 Hf3 _. by apply b_ret.
Qed.

Lemma b_slice v start stop h :
  full_nodes h -> wp (slice v start stop) h (bounded (fun _ => True)).
Proof.
  intros Hf. unfold slice. destruct start as [start|].
  - eapply (b_bind (fun _ => True)); [by apply b_read_all|]. intros r h1 Hf1 _.
    eapply (b_bind (fun _ => True)); [by apply b_Vector_init|]. intros out h2 Hf2 _. by apply b_ret.
  - eapply (b_bind (fun _ => True)); [by apply b_copy|]. intros out h1 Hf1 _. by apply b_ret.
Qed.

Lemma b_for_each_loop {St} (f : St -> slot T -> Z -> St) keys :
  forall acc v h, full_nodes h ->
  wp (for_each_loop f acc v keys) h (bounded (fun _ => True)).
Proof.
  induction keys as [|key keys IH]; intros acc v h Hf; [by apply b_ret|].
  cbn [for_each_loop]. cbv zeta.
  destruct (if Nat.eqb (leaf_index key) 0 then None else leaf v) as [lf|].
  - eapply (b_bind (fun _ => True)); [apply b_get_child; [done|apply leaf_index_lt]|].
    intros c h1 Hf1 _. by apply IH.
  - eapply (b_bind (fun _ => True)); [by apply b_at|]. intros r h1 Hf1 _. by apply IH.
Qed.

Lemma b_for_each {St} (f : St -> slot T -> Z -> St) acc v start stop h :
  full_nodes h -> wp (for_each f acc v start stop) h (bounded (fun _ => True)).
Proof. intros Hf. unfold for_each. by apply b_for_each_loop. Qed.

Lemma b_reduce {St} (f : St -> slot T -> St) inj v init h :
  full_nodes h -> wp (reduce f inj v init) h (bounded (fun _ => True)).
Proof.
  intros Hf. unfold reduce. destruct init as [a|]; [by apply b_for_each|].
  eapply (b_bind (fun _ => True)); [by apply b_at|]. intros r h1 Hf1 _. by apply b_for_each.
Qed.

Lemma b_concat_one keys :
  forall base sub h, full_nodes h ->
  wp (concat_one base sub keys) h (bounded (fun _ => True)).
Proof.
  induction keys as [|key keys IH]; intros base sub h Hf; [by apply b_ret|].
  cbn [concat_one]. eapply (b_bind (fun _ => True)); [by apply b_at|]. intros r h1 Hf1 _.
  eapply (b_bind (fun _ => True)); [by apply b_append|]. intros base' h2 Hf2 _. by apply IH.
Qed.

Lemma b_concat_all lists :
  forall base h, full_nodes h ->
  wp (concat_all base lists) h (bounded (fun _ => True)).
Proof.
  induction lists as [|sub lists IH]; intros base h Hf; [by apply b_ret|].
  cbn [concat_all]. eapply (b_bind (fun _ => True)); [by apply b_concat_one|].
  intros r h1 Hf1 _. by apply IH.
Qed.

Lemma b_concat v args h :
  full_nodes h -> wp (concat v args) h (bounded (fun _ => True)).
Proof.
  intros Hf. unfold concat.
  eapply (b_bind (fun _ => True)); [destruct (mutation v); [by apply b_ret|by apply b_copy]|].
  intros base h1 Hf1 _. cbv zeta.
  eapply (b_bind (fun _ => True)); [by apply b_concat_all|]. intros base' h2 Hf2 _. by apply b_ret.
Qed.

Lemma bounded_in_bounds {A} (m : M T A) h :
  wp m h (bounded (fun _ => True)) -> in_bounds m h.
Proof.
  unfold wp, bounded, in_bounds. intros [Hf H]. split; [done|].
  destruct (m h).1 as [e|a]; [congruence|done].
Qed.

(** Nodes keep their width, and no operation raises [IndexError].  In a
    store where every node has exactly WIDTH slots, every operation of
    [Vector], on any vector in either mode and at any index, leaves a
    store where every node has exactly WIDTH slots, whether it returns
    or raises, and what it raises is never an [IndexError]. *)
Theorem never_IndexError {St} h :
  full_nodes h ->
  (forall vals, in_bounds (Vector_init vals) h) /\
  (forall v key, in_bounds (at_ v key) h) /\
  (forall v val, in_bounds (append v val) h) /\
  (forall v, in_bounds (pop v) h) /\
  (forall v, in_bounds (copy v) h) /\
  (forall v args, in_bounds (concat v args) h) /\
  (forall v start vals, in_bounds (splice v start vals) h) /\
  (forall v start stop, in_bounds (slice v start stop) h) /\
  (forall (f : St -> slot T -> Z -> St) acc v start stop,
     in_bounds (for_each f acc v start stop) h) /\
  (forall (f : St -> slot T -> St) inj v init, in_bounds (reduce f inj v init) h).
Proof.
  intros Hf. split_and!; intros; apply bounded_in_bounds.
  - by apply b_Vector_init.
  - by apply b_at.
  - by apply b_append.
  - by apply b_pop.
  - by apply b_copy.
  - by apply b_concat.
  - by apply b_splice.
  - by apply b_slice.
  - by apply b_for_each.
  - by apply b_reduce.
Qed.

End Bounds.

Lemma never_IndexError_witness :
  full_nodes store6 /\
  in_bounds (at_ vector6 100) store6 /\
  in_bounds (pop vector6) store6.
Proof.
  assert (Hf : full_nodes store6) by (repeat constructor).
  split; [exact Hf|].
  destruct (@never_IndexError Z Z store6 Hf) as (_ & Hat & _ & Hpop & _).
  split; [apply Hat|apply Hpop].
Defined.

(** ** The path of an index *)

Section Paths.

(** The slot indices [reduce_node] computes for a key, one per level,
    together with the leaf index, are the base-WIDTH digits of the key:
    within the capacity of a trie of depth [d] they determine the key,
    so two different indices never take the same path to the same
    slot. *)
Theorem path_determines_key d key key' :
  0 <= d -> 0 <= key < WIDTH ^ (d + 1) -> 0 <= key' < WIDTH ^ (d + 1) ->
  leaf_index key = leaf_index key' ->
  Forall (fun level => slot_ix key level = slot_ix key' level) (levels d) ->
  key = key'.
Proof.
  rewrite WIDTH_eq. intros Hd Hkey Hkey' Hleaf Hdig.
  assert (Hlev : forall level, 1 <= level <= d ->
            (key / 4 ^ level) mod 4 = (key' / 4 ^ level) mod 4).
  { intros level Hl.
    assert (Hin : level ∈ levels d).
    { unfold levels. apply list_elem_of_fmap. exists (Z.to_nat (d - level)).
      split; [lia|]. apply elem_of_seq. lia. }
    pose proof (proj1 (Forall_forall _ _) Hdig level Hin) as E. cbv beta in E.
    rewrite !slot_ix_eq in E by lia.
    pose proof (Z.mod_pos_bound (key / 4 ^ level) 4 ltac:(lia)).
    pose proof (Z.mod_pos_bound (key' / 4 ^ level) 4 ltac:(lia)). lia. }
  assert (Hall : forall j, 0 <= j -> j <= d + 1 ->
            key / 4 ^ (d + 1 - j) = key' / 4 ^ (d + 1 - j)).
  { intros j Hj. pattern j. apply natlike_ind; [| |done]; clear j Hj.
    - intros _. replace (d + 1 - 0) with (d + 1) by lia.
      by rewrite !Z.div_small by lia.
    - intros j Hj IH Hle. specialize (IH ltac:(lia)).
      replace (d + 1 - j) with ((d + 1 - Z.succ j) + 1) in IH by lia.
      set (level := d + 1 - Z.succ j) in *.
      pose proof (digit_step key level ltac:(lia)) as E.
      pose proof (digit_step key' level ltac:(lia)) as E'.
      destruct (decide (level = 0)) as [E0|].
      + rewrite E0 in *. change (4 ^ 0) with 1 in *. rewrite !Z.div_1_r in *.
        rewrite !leaf_index_eq in Hleaf.
        pose proof (Z.mod_pos_bound key 4 ltac:(lia)).
        pose proof (Z.mod_pos_bound key' 4 ltac:(lia)). lia.
      + pose proof (Hlev level ltac:(lia)). lia. }
  specialize (Hall (d + 1) ltac:(lia) ltac:(lia)).
  replace (d + 1 - (d + 1)) with 0 in Hall by lia.
  by rewrite !Z.div_1_r in Hall.
Qed.

End Paths.

Lemma path_determines_key_witness :
  0 <= 2 /\ 0 <= 27 < WIDTH ^ (2 + 1) /\
  leaf_index 27 = leaf_index 27 /\
  Forall (fun level => slot_ix 27 level = slot_ix 27 level) (levels 2) /\
  27 = 27.
Proof.
  assert (H1 : 0 <= 2) by lia.
  assert (H2 : 0 <= 27 < WIDTH ^ (2 + 1)) by (rewrite WIDTH_eq; simpl; lia).
  assert (H3 : leaf_index 27 = leaf_index 27) by reflexivity.
  assert (H4 : Forall (fun level => slot_ix 27 level = slot_ix 27 level) (levels 2))
    by (repeat constructor).
  split; [exact H1|]. split; [exact H2|]. split; [exact H3|]. split; [exact H4|].
  exact (path_determines_key 2 27 27 H1 H2 H2 H3 H4).
Defined.

(** ** Indices beyond the capacity *)

Section Wrap.
Context {T : Type}.
Implicit Types (h : heap T) (v : @Vector T).

Lemma digit_mod key d level :
  0 <= level <= d ->
  ((key mod 4 ^ (d + 1)) / 4 ^ level) mod 4 = (key / 4 ^ level) mod 4.
Proof.
  intros Hl.
  pose proof (pow4_pos level ltac:(lia)) as Hpl.
  pose proof (pow4_pos (d - level) ltac:(lia)) as Hpd.
  assert (E : 4 ^ (d + 1) = 4 ^ level * (4 * 4 ^ (d - level))).
  { rewrite <- pow4_succ by lia. rewrite <- Z.pow_add_r by lia. f_equal. lia. }
  rewrite E. rewrite Z.rem_mul_r by lia.
  rewrite (Z.mul_comm (4 ^ level) (_ mod _)), Z.div_add by lia.
  rewrite (Z.div_small (key mod 4 ^ level)) by (apply Z.mod_pos_bound; lia).
  rewrite Z.add_0_l.
  rewrite Z.rem_mul_r by lia.
  rewrite (Z.mul_comm 4 (_ mod _)), Z.mod_add by lia. apply Z.mod_mod. lia.
Qed.

(** [at] has no bounds check: it reads the index modulo the capacity
    WIDTH^(depth+1) that the depth of the vector gives, on every vector,
    in every store and for every integer index, negative ones included.
    An index past the end silently reads the slot of a smaller index. *)
Theorem at_wraps v h d key :
  depth v h = (inr d, h) ->
  at_ v key h = at_ v (key mod WIDTH ^ (d + 1)) h.
Proof.
  intros Hd. rewrite WIDTH_eq.
  destruct (depth_bounds v h d Hd) as (Hd0 & _).
  unfold at_, reduce_node. unfold bind at 1 4.
  unfold bind at 1 3. rewrite Hd.
  assert (Hleaf : leaf_index (key mod 4 ^ (d + 1)) = leaf_index key).
  { rewrite !leaf_index_eq. f_equal.
    pose proof (digit_mod key d 0 ltac:(lia)) as E.
    change (4 ^ 0) with 1 in E. by rewrite !Z.div_1_r in E. }
  rewrite (reduce_levels_ext key (key mod 4 ^ (d + 1))).
  - by rewrite Hleaf.
  - apply Forall_forall.
    intros level (j & [-> Hj]%levels_lookup)%list_elem_of_lookup_1.
    rewrite !slot_ix_eq by lia. f_equal. symmetry. apply digit_mod. lia.
Qed.

End Wrap.

Lemma at_wraps_witness :
  depth vector6 store6 = (inr 1, store6) /\
  at_ vector6 21 store6 = at_ vector6 (21 mod WIDTH ^ (1 + 1)) store6.
Proof.
  assert (Hd : depth vector6 store6 = (inr 1, store6)) by reflexivity.
  split; [exact Hd|]. exact (at_wraps vector6 store6 1 21 Hd).
Defined.

(** ** [append] and [pop] as inverses *)

Section Inverses.
Context {T : Type}.
Implicit Types (h : heap T) (s x : slot T) (l : list (slot T))
  (pos : gmap addr (Z * Z)) (v w : @Vector T).

(** [pop] after [append] as the code has it.  For [v] the vector the
    constructor builds from a list of elements and an element [x],
    [append(v, x)] returns; [pop] on the result raises [AttributeError]
    when the length plus one is an exact power of WIDTH, and otherwise
    returns a persistent vector of the size of [v] on which [at] returns
    the elements of the list. *)
Theorem append_pop_inverse h l x :
  Forall is_elem l -> is_elem x ->
  exists v h1 w h2,
    Vector_init l h = (inr v, h1) /\
    append v x h1 = (inr w, h2) /\
    if is_power_of (len l + 1) WIDTH
    then exists h3, pop w h2 = (inl AttributeError, h3)
    else exists u h3,
      pop w h2 = (inr u, h3) /\
      size u = len l /\ mutation u = false /\
      forall i, 0 <= i < len l ->
        at_result u i h3 = inr (default SNone (l !! Z.to_nat i)).
Proof.
  intros Hel Hx.
  destruct (Vector_init_Repr h l) as (v & K & h1 & Hrun & HR & Hh & Hm & Hsz & Hf).
  assert (Hn0 : 0 <= len l) by (unfold len; lia).
  destruct (append_Repr (length h) h1 v K l x HR Hh)
    as (w & K' & h2 & Happ & HRw & Hhw & Hmw & Haga).
  rewrite Hm in Hmw.
  exists v, h1, w, h2. split; [done|]. split; [done|].
  destruct (is_power_of (len l + 1) WIDTH) eqn:Hp.
  - pose proof (hgt_power _ _ Hhw Hp) as Hn. rewrite <- len_app with (s := x) in Hn.
    apply (pop_Repr_short (length h) h2 w K' (l ++ [x]) HRw Hn); [|done].
    by apply Forall_is_elem_app.
  - pose proof (hgt_not_power _ _ Hhw ltac:(lia) Hp) as Hlt.
    assert (Hd : depth w h2 = (inr K', h2)).
    { eapply Repr_depth; [done|by rewrite len_app..]. }
    assert (Hszw : size w = len l + 1).
    { destruct HRw as (? & ? & _ & _ & -> & _). apply len_app. }
    destruct (pop_Repr (length h) h2 w K' l x HRw Hmw Hd Hp)
      as (u & h3 & Hpop & HRu & Hmu & Hagu).
    assert (Hszu : size u = len l) by (by destruct HRu as (? & ? & _ & _ & ? & _)).
    exists u, h3. split; [done|]. split; [done|]. split; [done|].
    intros i Hi. apply (at_result_depth (length h) h3 u K' l i HRu); [|done].
    apply (depth_pred w u h2 h3 K' Hd); [lia|lia|by rewrite Hszw].
Qed.

(** [append] after [pop].  For [v] the vector the constructor builds
    from [l ++ [e]], where neither the length of [l] nor that length
    plus one is an exact power of WIDTH, [pop(v)] returns and an
    [append] of an element [x] to the result returns a persistent vector
    of the size of [v] on which [at] returns the elements of [l] and then
    [x]. *)
Theorem pop_append_inverse h l e x :
  is_power_of (len l) WIDTH = false ->
  is_power_of (len l + 1) WIDTH = false ->
  exists v h1 w h2 u h3,
    Vector_init (l ++ [e]) h = (inr v, h1) /\
    pop v h1 = (inr w, h2) /\
    append w x h2 = (inr u, h3) /\
    size u = len l + 1 /\ mutation u = false /\
    forall i, 0 <= i < len l + 1 ->
      at_result u i h3 = inr (default SNone ((l ++ [x]) !! Z.to_nat i)).
Proof.
  intros Hp0 Hp.
  destruct (Vector_init_Repr h (l ++ [e])) as (v & K & h1 & Hrun & HR & Hh & Hm & Hsz & Hf).
  rewrite len_app in Hh, Hsz.
  assert (Hn0 : 0 <= len l) by (unfold len; lia).
  pose proof (hgt_not_power _ _ Hh ltac:(lia) Hp) as Hlt.
  assert (Hd : depth v h1 = (inr K, h1)).
  { eapply Repr_depth; [done|by rewrite len_app..]. }
  destruct (pop_Repr (length h) h1 v K l e HR Hm Hd Hp) as (w & h2 & Hpop & HRw & Hmw & Hag).
  assert (Hhw : hgt K (len l)).
  { destruct Hh as (HK & Hhi & Hlow). split; [done|]. split; [lia|].
    destruct (decide (K = 0)) as [?|HK0]; [by left|right].
    destruct Hlow as [?|Hlow]; [done|].
    rewrite is_power_of_false in Hp0.
    specialize (Hp0 K ltac:(lia)). lia. }
  destruct (append_Repr (length h) h2 w K l x HRw Hhw)
    as (u & K' & h3 & Happ & HRu & Hhu & Hmu & Hagu).
  assert (Hszu : size u = len l + 1).
  { destruct HRu as (? & ? & _ & _ & -> & _). apply len_app. }
  exists v, h1, w, h2, u, h3.
  split; [done|]. split; [done|]. split; [done|]. split; [done|].
  split; [congruence|].
  intros i Hi.
  assert (Hdu : depth u h3 = (inr K', h3)).
  { eapply Repr_depth; [done|by rewrite len_app|].
    rewrite len_app. apply (hgt_not_power _ _ Hhu); [lia|done]. }
  apply (at_result_depth (length h) h3 u K' (l ++ [x]) i HRu Hdu).
  by rewrite len_app.
Qed.

End Inverses.

Lemma append_pop_inverse_witness :
  exists v h1 w h2,
    Vector_init (of_list [0; 1; 2; 3]) empty_heap = (inr v, h1) /\
    append v (SVal 4) h1 = (inr w, h2) /\
    exists u h3,
      pop w h2 = (inr u, h3) /\
      size u = 4 /\ mutation u = false /\
      forall i, 0 <= i < 4 ->
        at_result u i h3 = inr (default SNone (of_list [0; 1; 2; 3] !! Z.to_nat i)).
Proof.
  apply (append_pop_inverse empty_heap (of_list [0; 1; 2; 3]) (SVal 4)).
  - repeat constructor.
  - exact I.
Defined.

Lemma pop_append_inverse_witness :
  exists v h1 w h2 u h3,
    Vector_init (of_list [0; 1; 2; 3; 4] ++ [SVal 5]) empty_heap = (inr v, h1) /\
    pop v h1 = (inr w, h2) /\
    append w (SVal 9) h2 = (inr u, h3) /\
    size u = 6 /\ mutation u = false /\
    forall i, 0 <= i < 6 ->
      at_result u i h3
      = inr (default SNone ((of_list [0; 1; 2; 3; 4] ++ [SVal 9]) !! Z.to_nat i)).
Proof.
  apply (pop_append_inverse empty_heap (of_list [0; 1; 2; 3; 4]) (SVal 5) (SVal 9));
    reflexivity.
Defined.

(** ** How appends and pops change the labelling *)

Section Evolution.
Context {T : Type}.
Implicit Types (h : heap T) (s : slot T) (l : list (slot T))
  (pos : gmap addr (Z * Z)).

Lemma evolves_refl n pos h : evolves n pos h pos h.
Proof. split; [done|]. split; auto. Qed.

Lemma evolves_trans n pos1 h1 pos2 h2 pos3 h3 :
  evolves n pos1 h1 pos2 h2 -> evolves n pos2 h2 pos3 h3 ->
  evolves n pos1 h1 pos3 h3.
Proof.
  intros (L1 & P1 & W1) (L2 & P2 & W2). split; [lia|]. split.
  - intros b k i Hb. destruct (P2 b k i Hb) as [Hb2|[? ?]]; [|right; split; [lia|done]].
    by apply P1.
  - intros a Ha. destruct (W2 a ltac:(lia)) as [E2|(k & Hk)].
    + rewrite E2. by apply W1.
    + right. exists k. destruct (P1 a _ _ Hk) as [?|[? _]]; [done|lia].
Qed.

(** A fresh node is allocated and labelled, and a labelled node on the
    path is written. *)
Lemma evolves_install n pos h a ka (x y : node T) k i old :
  pos !! a = Some (ka, n / 4 ^ (ka + 1)) -> i * 4 ^ (k + 1) <= n ->
  evolves n pos h (<[length h := (k, i)]> (delete old pos)) (<[a := x]> (h ++ [y])).
Proof.
  intros Ha Hi. split; [rewrite length_insert, length_app; lia|]. split.
  - intros b k' i' [[<- [= <- <-]]|[_ [_ ?]%lookup_delete_Some]]%lookup_insert_Some.
    + right. split; [lia|done].
    + by left.
  - intros a' Ha'. destruct (decide (a' = a)) as [->|Hne]; [right; eauto|left].
    rewrite list_lookup_insert_ne by done. by rewrite lookup_app_l.
Qed.

Lemma evolves_alloc_label n pos h (y : node T) k i old :
  i * 4 ^ (k + 1) <= n ->
  evolves n pos h (<[length h := (k, i)]> (delete old pos)) (h ++ [y]).
Proof.
  intros Hi. split; [rewrite length_app; lia|]. split.
  - intros b k' i' [[<- [= <- <-]]|[_ [_ ?]%lookup_delete_Some]]%lookup_insert_Some.
    + right. split; [lia|done].
    + by left.
  - intros a' Ha'. left. by rewrite lookup_app_l.
Qed.

Lemma evolves_alloc n pos h (y : node T) : evolves n pos h pos (h ++ [y]).
Proof.
  split; [rewrite length_app; lia|]. split; [auto|].
  intros a Ha. left. by rewrite lookup_app_l.
Qed.

Lemma evolves_write n pos h a ka (x : node T) :
  pos !! a = Some (ka, n / 4 ^ (ka + 1)) -> evolves n pos h pos (<[a := x]> h).
Proof.
  intros Ha. split; [by rewrite length_insert|]. split; [auto|].
  intros a' Ha'. destruct (decide (a' = a)) as [->|Hne]; [right; eauto|left].
  by rewrite list_lookup_insert_ne.
Qed.

Lemma evolves_delete n pos h old : evolves n pos h (delete old pos) h.
Proof.
  split; [done|]. split; [|auto].
  intros b k i [_ ?]%lookup_delete_Some. by left.
Qed.

(** Where the nodes on the path are new, the old ones are left alone. *)
Lemma evolves_agree n pos h pos' h' lo :
  evolves n pos h pos' h' -> path_fresh lo pos n -> (lo <= length h)%nat ->
  agree lo h h'.
Proof.
  intros (L & P & W) Hpf Hlo. split; [|done].
  intros a Ha. destruct (W a ltac:(lia)) as [?|(k & Hk)]; [done|].
  apply Hpf in Hk. lia.
Qed.

Lemma evolves_no_right n pos h pos' h' :
  evolves n pos h pos' h' -> no_right pos n -> no_right pos' n.
Proof.
  intros (L & P & W) Hnr a k i Ha. destruct (P a k i Ha) as [?|[_ ?]]; [|done].
  by eapply Hnr.
Qed.

Lemma no_right_mono pos n m : n <= m -> no_right pos n -> no_right pos m.
Proof. intros Hle Hnr a k i Ha. specialize (Hnr a k i Ha). lia. Qed.

Lemma path_fresh_mono lo lo' pos n :
  (lo' <= lo)%nat -> path_fresh lo pos n -> path_fresh lo' pos n.
Proof. intros Hle Hpf a k Ha. specialize (Hpf a k Ha). lia. Qed.

(** After an append the path of the next index consists of nodes of the
    path appended to and of new nodes. *)
Lemma path_fresh_next n pos h pos' h' lo :
  evolves n pos h pos' h' -> no_right pos n -> path_fresh lo pos n ->
  (lo <= length h)%nat -> 0 <= n ->
  (forall a k i, pos' !! a = Some (k, i) -> 0 <= k) ->
  path_fresh lo pos' (n + 1).
Proof.
  intros (L & P & W) Hnr Hpf Hlo Hn Hk0 a k Ha.
  pose proof (Hk0 a k _ Ha) as Hk.
  destruct (P a k _ Ha) as [Hold|[? _]]; [|lia].
  apply (Hpf a k). rewrite Hold. do 2 f_equal.
  pose proof (Hnr a k _ Hold) as Hle.
  pose proof (pow4_pos (k + 1) ltac:(lia)) as Hpw.
  pose proof (div_bounds (n + 1) (k + 1) ltac:(lia)) as Hb.
  apply (Z.div_unique _ _ _ (n - (n + 1) / 4 ^ (k + 1) * 4 ^ (k + 1))); lia.
Qed.

End Evolution.

Section AppendEvolution.
Context {T : Type}.
Implicit Types (h : heap T) (s : slot T) (l : list (slot T))
  (pos : gmap addr (Z * Z)) (v w : @Vector T).

(** One level of the descent of [append], with what it does to the
    labelling. *)
Lemma append_reducer_ev mut lo h pos rt K l level a i :
  Inv lo h pos rt K l level ->
  1 <= level ->
  pos !! a = Some (level, i) ->
  i = len l / 4 ^ (level + 1) ->
  (lo <= length h)%nat ->
  exists b pos' h',
    append_reducer mut (SRef a) level (slot_ix (len l) level) h = (inr (SRef b), h') /\
    Inv lo h' pos' rt K l (level - 1) /\
    pos' !! b = Some (level - 1, len l / 4 ^ level) /\
    evolves (len l) pos h pos' h'.
Proof.
  intros HI Hlev Ha Hi Hlo.
  rewrite slot_ix_eq by lia. set (p := len l / 4 ^ level).
  set (ix := Z.to_nat (p mod 4)).
  destruct (inv_node _ _ _ _ _ _ _ HI a level i Ha)
    as (HlevK & Hi0 & _ & cs & Hcs & Hlen & _).
  assert (Hn0 : 0 <= len l) by (unfold len; lia).
  assert (Hr : 0 <= p mod 4 < 4) by (apply Z.mod_pos_bound; lia).
  assert (Hix : (ix < 4)%nat) by (unfold ix; lia).
  assert (Hla : (a < length h)%nat) by by eapply lookup_lt_Some.
  pose proof (digit_step (len l) level ltac:(lia)) as Hp. rewrite <- Hi in Hp.
  fold p in Hp.
  assert (Hple : p * 4 ^ (level - 1 + 1) <= len l).
  { replace (level - 1 + 1) with level by lia.
    pose proof (div_bounds (len l) level ltac:(lia)). unfold p. lia. }
  assert (Ha' : pos !! a = Some (level, len l / 4 ^ (level + 1))) by by rewrite <- Hi.
  destruct (Inv_child _ _ _ _ _ _ _ a level i cs ix HI Ha Hcs Hix) as (s0 & Hs0 & Hok0).
  replace (4 * i + Z.of_nat ix) with p in Hok0 by (unfold ix; lia).
  unfold append_reducer. erewrite bind_inr by by eapply get_child_eq.
  unfold slot_ok in Hok0. rewrite decide_False in Hok0 by lia.
  destruct Hok0 as [[-> _]|(b & -> & Hb)].
  - (* the slot is None: a new node *)
    erewrite bind_inr by reflexivity.
    assert (Hcs1 : (h ++ [mk_node []]) !! a = Some cs) by by rewrite lookup_app_l.
    rewrite (set_get_eq _ _ cs) by (done || lia).
    eexists (length h), _, _. split; [done|]. rewrite mk_node_nil.
    split; [|split; [by apply lookup_insert_eq|]].
    + eapply (Inv_install lo h pos rt K l level a i cs (length h)); eauto.
    + by eapply evolves_install.
  - (* the slot refers to the child on the path *)
    destruct (inv_node _ _ _ _ _ _ _ HI b _ _ Hb)
      as (_ & _ & _ & csb & Hcsb & Hlenb & _).
    destruct mut.
    + erewrite bind_inr by reflexivity.
      rewrite (set_get_eq _ _ cs) by (done || lia).
      rewrite (list_insert_id cs) by done. rewrite (list_insert_id h) by done.
      exists b, pos, h. split; [done|].
      destruct (Inv_descend lo h pos rt K l level a i cs b HI Hlev Ha Hcs Hi Hs0).
      split; [done|]. split; [done|]. apply evolves_refl.
    + erewrite bind_inr by by apply copy_node_eq.
      rewrite mk_node_full by lia.
      assert (Hcs1 : (h ++ [csb]) !! a = Some cs) by by rewrite lookup_app_l.
      rewrite (set_get_eq _ _ cs) by (done || lia).
      eexists (length h), _, _. split; [done|].
      split; [|split; [by apply lookup_insert_eq|]].
      * eapply (Inv_install lo h pos rt K l level a i cs b); eauto.
      * by eapply evolves_install.
Qed.

Lemma append_walk_ev mut lo rt K l d :
  0 <= d ->
  forall h pos a,
  Inv lo h pos rt K l d ->
  pos !! a = Some (d, len l / 4 ^ (d + 1)) ->
  (lo <= length h)%nat ->
  exists b pos' h',
    reduce_levels (len l) (append_reducer mut) (SRef a) (levels d) h
      = (inr (SRef b), h') /\
    Inv lo h' pos' rt K l 0 /\
    pos' !! b = Some (0, len l / 4) /\
    evolves (len l) pos h pos' h'.
Proof.
  intros Hd. pattern d. apply natlike_ind; [| |done]; clear d Hd.
  - intros h pos a HI Ha Hlo. exists a, pos, h. rewrite levels_0.
    split; [done|]. split; [done|]. split; [done|]. apply evolves_refl.
  - intros d Hd IH h pos a HI Ha Hlo.
    replace (Z.succ d) with (d + 1) in * by lia.
    rewrite levels_succ by done. simpl.
    destruct (append_reducer_ev mut lo h pos rt K l (d + 1) a _ HI ltac:(lia) Ha eq_refl Hlo)
      as (b & pos1 & h1 & Hrun & HI1 & Hb & Hev).
    erewrite bind_inr by done.
    replace (d + 1 - 1) with d in * by lia.
    destruct (IH h1 pos1 b HI1 Hb) as (b' & pos2 & h2 & Hrun2 & HI2 & Hb' & Hev2).
    { destruct Hev as (? & _). lia. }
    exists b', pos2, h2. split; [done|]. split; [done|]. split; [done|].
    by eapply evolves_trans.
Qed.

Lemma start_root_ev (mut : bool) n lo h pos rt K l lev :
  Inv lo h pos rt K l lev -> (lo <= length h)%nat -> 0 <= n ->
  exists rt1 pos1 h1,
    (if mut then @ret T (slot T) (SRef rt)
     else cs <- children (SRef rt);; a <- new_node cs;; ret (SRef a)) h
      = (inr (SRef rt1), h1) /\
    Inv lo h1 pos1 rt1 K l lev /\ evolves n pos h pos1 h1 /\
    (mut = false -> (length h <= rt1)%nat).
Proof.
  intros HI Hlo Hn. destruct mut.
  - exists rt, pos, h. split; [done|]. split; [done|].
    split; [apply evolves_refl|done].
  - destruct (inv_node _ _ _ _ _ _ _ HI rt K 0 (inv_root _ _ _ _ _ _ _ HI))
      as (_ & _ & _ & cs & Hcs & Hlen & _).
    erewrite bind_inr by by apply children_eq.
    eexists (length h), _, _. split; [done|]. rewrite mk_node_full by lia.
    split; [by apply Inv_root_copy|]. split; [|done].
    apply evolves_alloc_label. lia.
Qed.

Lemma overflow_ev lo h pos rt K l :
  Inv lo h pos rt K l K -> hgt K (len l) -> (lo <= length h)%nat ->
  exists rt1 pos1 K1 h1,
    (if is_power_of (len l) WIDTH
     then a <- new_node [SRef rt];; ret (SRef a) else @ret T (slot T) (SRef rt)) h
      = (inr (SRef rt1), h1) /\
    Inv lo h1 pos1 rt1 K1 l K1 /\ evolves (len l) pos h pos1 h1 /\
    hgt K1 (len l + 1) /\ len l < 4 ^ (K1 + 1) /\
    (if len l =? 0 then 0 else Z.log2 (len l) / Z.log2 WIDTH) = K1.
Proof.
  intros HI Hh Hlo.
  assert (Hn0 : 0 <= len l) by (unfold len; lia).
  pose proof Hh as (HK & Hhi & Hlow).
  pose proof (pow4_pos K HK). pose proof (pow4_succ K HK).
  pose proof (pow4_succ (K + 1) ltac:(lia)).
  destruct (is_power_of (len l) WIDTH) eqn:Hp.
  - pose proof (hgt_power _ _ Hh Hp) as Hn.
    eexists (length h), _, (K + 1), _. split; [done|].
    split; [by apply Inv_wrap|]. split.
    { rewrite <- (delete_id pos (length h)) at 2.
      - apply evolves_alloc_label. lia.
      - destruct (pos !! length h) as [q|] eqn:E; [|done].
        apply (Inv_lt _ _ _ _ _ _ _ _ _ HI) in E. lia. }
    split; [repeat split; lia|]. split; [lia|].
    destruct (Z.eqb_spec (len l) 0); [lia|].
    apply log4_unique; lia.
  - pose proof (hgt_not_power _ _ Hh Hn0 Hp) as Hn.
    exists rt, pos, K, h. split; [done|]. split; [done|].
    split; [apply evolves_refl|].
    split; [repeat split; lia|]. split; [done|].
    destruct (Z.eqb_spec (len l) 0) as [E|]; [|apply hgt_depth; [done|lia..]].
    destruct Hlow; lia.
Qed.

(** [append] on a trie built by appends, in either mode, with what it
    does to the labelling. *)
Lemma append_ev lo h pos rt K l v val :
  Inv lo h pos rt K l K -> root v = SRef rt -> size v = len l ->
  (lo <= length h)%nat -> hgt K (len l) ->
  exists w rt' K' pos' h',
    append v val h = (inr w, h') /\
    root w = SRef rt' /\ size w = len l + 1 /\ mutation w = mutation v /\
    Inv lo h' pos' rt' K' (l ++ [val]) K' /\ hgt K' (len l + 1) /\
    evolves (len l) pos h pos' h'.
Proof.
  intros HI Hroot Hsize Hlo Hh.
  assert (Hn0 : 0 <= len l) by (unfold len; lia).
  unfold append. rewrite Hroot, Hsize.
  destruct (start_root_ev (mutation v) (len l) lo h pos rt K l K HI Hlo Hn0)
    as (rt1 & pos1 & h1 & Hrun1 & HI1 & Hev1 & _).
  erewrite bind_inr by exact Hrun1.
  assert (Hl1 : (length h <= length h1)%nat) by (by destruct Hev1).
  destruct (overflow_ev lo h1 pos1 rt1 K l HI1 Hh ltac:(lia))
    as (rt2 & pos2 & K2 & h2 & Hrun2 & HI2 & Hev2 & Hh2 & Hlt2 & Hd2).
  erewrite bind_inr by exact Hrun2.
  assert (Hl2 : (length h1 <= length h2)%nat) by (by destruct Hev2).
  pose proof Hh2 as (HK2 & _).
  destruct (append_walk_ev (mutation v) lo rt2 K2 l K2 HK2 h2 pos2 rt2 HI2) as
    (b & pos3 & h3 & Hrun3 & HI3 & Hb & Hev3).
  { rewrite Z.div_small by lia. by apply HI2. }
  { lia. }
  assert (Hrn : reduce_node v (len l) (append_reducer (mutation v)) (SRef rt2) None h2
                = (inr (SRef b), h3)).
  { unfold reduce_node.
    erewrite bind_inr by (apply depth_eq; [lia|by rewrite Hsize]). done. }
  erewrite bind_inr by exact Hrn.
  assert (Hl3 : (length h2 <= length h3)%nat) by (by destruct Hev3).
  destruct (inv_node _ _ _ _ _ _ _ HI3 b 0 _ Hb) as (_ & _ & _ & cs & Hcs & Hlen & _).
  assert (Hr : 0 <= len l mod 4 < 4) by (apply Z.mod_pos_bound; lia).
  rewrite leaf_index_eq.
  erewrite bind_inr by (apply set_child_eq; [done|lia]).
  pose proof (Inv_leaf_write lo h3 pos3 rt2 K2 l b cs val HI3 Hb Hcs) as HI4.
  assert (Hev4 : evolves (len l) pos h pos3 (<[b:=<[Z.to_nat (len l mod 4):=val]> cs]> h3)).
  { eapply evolves_trans; [exact Hev1|]. eapply evolves_trans; [exact Hev2|].
    eapply evolves_trans; [exact Hev3|]. eapply (evolves_write _ _ _ b 0).
    by change (4 ^ (0 + 1)) with 4. }
  destruct (mutation v) eqn:Hm.
  - eexists _, rt2, K2, pos3, _. split; [done|]. cbn.
    split; [done|]. split; [done|]. split; [done|]. split; [done|]. split; [done|].
    done.
  - eexists _, rt2, K2, pos3, _. split; [done|]. cbn.
    split; [done|]. split; [done|]. split; [done|].
    split; [by apply Inv_alloc|]. split; [done|].
    eapply evolves_trans; [exact Hev4|]. apply evolves_alloc.
Qed.

End AppendEvolution.

Section PopEvolution.
Context {T : Type}.
Implicit Types (h : heap T) (s : slot T) (l : list (slot T))
  (pos : gmap addr (Z * Z)) (v w : @Vector T).

(** The descent of [pop] in persistent mode, with what it does to the
    labelling: every node it passes is a new copy. *)
Lemma pop_walk_ev lo rt K l lev key tk lix ls :
  0 <= tk < len l ->
  forall d0 h pos a prev,
  0 <= d0 ->
  (forall (j : nat) level, ls !! j = Some level ->
     slot_ix key level
       = Z.to_nat ((tk / 4 ^ (d0 + Z.of_nat (length ls) - Z.of_nat j)) mod 4) /\
     (level =? 1) && Nat.eqb lix 0 = false) ->
  Inv lo h pos rt K l lev -> (lo <= length h)%nat ->
  pos !! a = Some (d0 + Z.of_nat (length ls),
                   tk / 4 ^ (d0 + Z.of_nat (length ls) + 1)) ->
  exists prev' b pos' h',
    reduce_levels key (pop_reducer false lix) (prev, SRef a) ls h
      = (inr (prev', SRef b), h') /\
    Inv lo h' pos' rt K l lev /\ pos' !! b = Some (d0, tk / 4 ^ (d0 + 1)) /\
    evolves tk pos h pos' h' /\
    (forall c k, d0 <= k < d0 + Z.of_nat (length ls) ->
       pos' !! c = Some (k, tk / 4 ^ (k + 1)) -> (length h <= c)%nat).
Proof.
  intros Htk. induction ls as [|level ls IH]; intros d0 h pos a prev Hd0 Hdig HI Hlo Ha.
  - cbn [length] in Ha. exists prev, a, pos, h. split; [done|]. split; [done|].
    split; [|split; [apply evolves_refl|cbn [length]; intros; lia]].
    rewrite Ha. f_equal. f_equal; [lia|]. do 2 f_equal. lia.
  - cbn [length] in *. set (d := d0 + Z.of_nat (S (length ls))) in *.
    destruct (Hdig 0%nat level eq_refl) as [Hix Hnd].
    replace (d - Z.of_nat 0) with d in Hix by lia.
    destruct (inv_node _ _ _ _ _ _ _ HI a _ _ Ha) as (_ & _ & _ & cs & Hcs & _).
    destruct (Inv_copy_child lo h pos rt K l lev d a _ cs tk HI ltac:(lia) Htk Ha Hcs
                eq_refl Hlo) as (old & csb & Hold & Hcsb & Hlen & HI').
    cbn [reduce_levels]. rewrite Hix.
    erewrite bind_inr by by eapply pop_reducer_copy.
    assert (Hev1 : evolves tk pos h (<[length h := (d - 1, tk / 4 ^ d)]> (delete old pos))
              (<[a := <[Z.to_nat ((tk / 4 ^ d) mod 4) := SRef (length h)]> cs]>
                 (h ++ [csb]))).
    { eapply evolves_install; [exact Ha|].
      replace (d - 1 + 1) with d by lia.
      pose proof (div_bounds tk d ltac:(lia)). lia. }
    destruct (IH d0 (<[a := <[Z.to_nat ((tk / 4 ^ d) mod 4) := SRef (length h)]> cs]>
                       (h ++ [csb]))
                (<[length h := (d - 1, tk / 4 ^ d)]> (delete old pos))
                (length h) (SRef a) Hd0)
      as (prev' & b & pos' & h' & Hrun & HI'' & Hb & Hev2 & Hfr).
    + intros j lv Hj. destruct (Hdig (S j) lv Hj) as [E ?]. split; [|done].
      rewrite E. do 4 f_equal. unfold d. lia.
    + exact HI'.
    + rewrite length_insert, length_app. simpl. lia.
    + replace (d0 + Z.of_nat (length ls)) with (d - 1) by (unfold d; lia).
      replace (d - 1 + 1) with d by lia.
      rewrite lookup_insert_eq. done.
    + exists prev', b, pos', h'. split; [done|]. split; [done|]. split; [done|].
      split; [by eapply evolves_trans|].
      intros c k Hk Hc.
      destruct (decide (k < d0 + Z.of_nat (length ls))) as [Hlt|Hge].
      * specialize (Hfr c k ltac:(lia) Hc).
        rewrite length_insert, length_app in Hfr. lia.
      * assert (k = d - 1) as -> by (unfold d; lia).
        replace (d - 1 + 1) with d in Hc by lia.
        destruct Hev2 as (_ & P & _). destruct (P c _ _ Hc) as [Hc1|[Hc1 _]].
        -- assert (c = length h); [|lia].
           eapply (inv_inj _ _ _ _ _ _ _ HI'); [exact Hc1|].
           apply lookup_insert_eq.
        -- rewrite length_insert, length_app in Hc1. lia.
Qed.

(** The end of [pop], with the labelling. *)
Lemma pop_tail_ev h3 rt1 l (prev : slot T) :
  is_power_of (len l + 1) WIDTH = false ->
  exists w,
    (prev_leaf <- (if is_power_of (len l + 1) WIDTH
                   then get_child prev 0 else ret prev) ;;
     create (if len l + 1 =? WIDTH then prev_leaf else SRef rt1) (len l)) h3
      = (inr w, h3 ++ [mk_node []]) /\
    root w = SRef rt1 /\ size w = len l /\ mutation w = false.
Proof.
  intros Hp. rewrite Hp.
  destruct (Z.eqb_spec (len l + 1) WIDTH) as [E|E].
  { rewrite E in Hp. by vm_compute in Hp. }
  eexists. split; [reflexivity|]. done.
Qed.

(** [pop] in persistent mode with what it does to the labelling: the
    nodes on the path of the removed index are new copies. *)
Lemma pop_ev lo h pos rt K l e v :
  Inv lo h pos rt K (l ++ [e]) K -> root v = SRef rt -> size v = len l + 1 ->
  (lo <= length h)%nat -> mutation v = false ->
  depth v h = (inr K, h) ->
  is_power_of (len l + 1) WIDTH = false ->
  exists w rt' pos' h',
    pop v h = (inr w, h') /\
    root w = SRef rt' /\ size w = len l /\ mutation w = false /\
    Inv lo h' pos' rt' K l K /\ evolves (len l) pos h pos' h' /\
    path_fresh (length h) pos' (len l).
Proof.
  intros HI Hroot Hsize Hlo Hm Hd Hp.
  assert (Hn0 : 0 <= len l) by (unfold len; lia).
  destruct (depth_bounds v h K Hd) as (HK & Hup & Hdn). rewrite Hsize in Hup, Hdn.
  destruct (start_root_ev false (len l) lo h pos rt K _ K HI Hlo Hn0)
    as (rt1 & pos1 & h1 & Hrun1 & HI1 & Hev1 & Hrt1f).
  specialize (Hrt1f eq_refl).
  assert (Hl1 : (length h <= length h1)%nat) by (by destruct Hev1).
  assert (Hlo1 : (lo <= length h1)%nat) by lia.
  assert (Hd1 : depth v h1 = (inr K, h1)) by (by rewrite (depth_indep v h h1), Hd).
  assert (Hkey : 0 <= len l < len (l ++ [e])) by (rewrite len_app; lia).
  assert (Hr : 0 <= len l mod 4 < 4) by (apply Z.mod_pos_bound; lia).
  assert (Hrt1 : pos1 !! rt1 = Some (K, len l / 4 ^ (K + 1))).
  { rewrite Z.div_small by lia. by apply HI1. }
  (* the labelled nodes on the path in a later labelling are new *)
  assert (Hroot_fresh : forall pos' h' rt' lev' l',
            Inv lo h' pos' rt' K l' lev' -> pos' !! rt1 = Some (K, 0) ->
            forall c, pos' !! c = Some (K, len l / 4 ^ (K + 1)) -> (length h <= c)%nat).
  { intros pos' h' rt' lev' l' HI' Hr1 c Hc. rewrite Z.div_small in Hc by lia.
    assert (c = rt1) as -> by (eapply (inv_inj _ _ _ _ _ _ _ HI'); eauto). done. }
  unfold pop. rewrite Hm, Hroot.
  erewrite bind_inr by exact Hrun1. cbv zeta. rewrite Hsize.
  replace (len l + 1 - 1) with (len l) by lia.
  unfold reduce_node.
  destruct (decide (K = 0 \/ leaf_index (len l) <> 0%nat)) as [Hcase|Hcase].
  - (* the last element is cleared in its leaf *)
    destruct (pop_walk_ev lo rt1 K (l ++ [e]) K (len l) (len l) (leaf_index (len l))
                (levels K) Hkey 0 h1 pos1 rt1 (SRef rt1) ltac:(lia))
      as (prev' & b & pos2 & h2 & Hwalk & HI2 & Hb & Hev2 & Hfr2); [|done|done| |].
    + intros j level [-> Hj]%levels_lookup. rewrite levels_length. split.
      * rewrite slot_ix_eq by lia. do 4 f_equal. lia.
      * destruct Hcase as [->|Hne]; [simpl in Hj; lia|].
        apply andb_false_iff. right. by apply Nat.eqb_neq.
    + rewrite levels_length. rewrite Hrt1. f_equal. f_equal; [lia|].
      do 2 f_equal. lia.
    + erewrite (bind_inr (bind _ _)).
      2:{ erewrite bind_inr by exact Hd1. exact Hwalk. }
      cbn [fst snd is_none].
      destruct (inv_node _ _ _ _ _ _ _ HI2 b _ _ Hb) as (_ & _ & _ & cs & Hcs & Hlen & _).
      erewrite bind_inr.
      2:{ apply set_child_eq; [done|]. rewrite leaf_index_eq. lia. }
      rewrite leaf_index_eq. change (4 ^ (0 + 1)) with 4 in Hb.
      set (h3 := <[b := <[Z.to_nat (len l mod 4) := SNone]> cs]> h2).
      destruct (pop_tail_ev h3 rt1 l prev' Hp) as (w & Hrun & Hrw & Hsw & Hmw).
      exists w, rt1, pos2, (h3 ++ [mk_node []]).
      split; [exact Hrun|]. split; [done|]. split; [done|]. split; [done|].
      assert (HI3 : Inv lo h3 pos2 rt1 K l K) by (by eapply Inv_leaf_clear).
      split; [by apply Inv_alloc|]. split.
      * eapply evolves_trans; [exact Hev1|]. eapply evolves_trans; [exact Hev2|].
        eapply evolves_trans; [|apply evolves_alloc].
        eapply (evolves_write _ _ _ b 0). by change (4 ^ (0 + 1)) with 4.
      * intros c k Hc.
        destruct (inv_node _ _ _ _ _ _ _ HI3 c _ _ Hc) as (Hk & _).
        destruct (decide (k = K)) as [->|HkK].
        -- eapply (Hroot_fresh pos2 h3 rt1 K l HI3); [by apply HI3|done].
        -- rewrite levels_length in Hfr2.
           specialize (Hfr2 c k ltac:(lia) Hc). lia.
  - (* the last element is alone in its leaf, which is dropped *)
    assert (HK1 : 1 <= K) by (destruct (decide (K = 0)); [tauto|lia]).
    assert (Hlix : leaf_index (len l) = 0%nat).
    { destruct (decide (leaf_index (len l) = 0%nat)); [done|tauto]. }
    assert (Hmod : len l mod 4 = 0) by (rewrite leaf_index_eq in Hlix; lia).
    set (ls := take (Z.to_nat K - 1) (levels K)).
    assert (Hlsl : Z.of_nat (length ls) = K - 1).
    { unfold ls. rewrite length_take, levels_length. lia. }
    destruct (pop_walk_ev lo rt1 K (l ++ [e]) K (len l) (len l) (leaf_index (len l))
                ls Hkey 1 h1 pos1 rt1 (SRef rt1) ltac:(lia))
      as (prev' & b & pos2 & h2 & Hwalk & HI2 & Hb & Hev2 & Hfr2); [|done|done| |].
    + intros j level Hj. unfold ls in Hj.
      apply lookup_take_Some in Hj as [[-> Hj]%levels_lookup Hj'].
      rewrite Hlsl. split.
      * rewrite slot_ix_eq by lia. do 4 f_equal. lia.
      * apply andb_false_iff. left. apply Z.eqb_neq. lia.
    + rewrite Hlsl. rewrite Hrt1. f_equal. f_equal; [lia|].
      do 2 f_equal. lia.
    + change (4 ^ (1 + 1)) with (4 ^ 2) in Hb.
      destruct (inv_node _ _ _ _ _ _ _ HI2 b _ _ Hb) as (_ & _ & _ & cs & Hcs & Hlen & _).
      assert (Hl2 : (length h1 <= length h2)%nat) by (by destruct Hev2).
      destruct (Inv_drop_leaf lo h2 pos2 rt1 K l e K K b cs HI2 Hmod HK1 Hb Hcs)
        as (old & Hold & _).
      destruct (Inv_ref_child _ _ _ _ _ _ _ b _ _ cs _ old HI2 Hb Hcs Hold ltac:(lia))
        as (csb & Hcsb & Hcsblen & Hol).
      destruct (Inv_drop_leaf lo (h2 ++ [csb]) pos2 rt1 K l e K K b cs
                  (Inv_alloc _ _ _ _ _ _ _ csb HI2) Hmod HK1 Hb)
        as (old' & Hold' & HI3).
      { rewrite lookup_app_l; [done|]. by eapply lookup_lt_Some. }
      assert (old' = old) as -> by congruence.
      erewrite (bind_inr (bind _ _)).
      2:{ erewrite bind_inr by exact Hd1.
          rewrite (levels_snoc K HK1). fold ls. rewrite reduce_levels_app.
          erewrite bind_inr by exact Hwalk. cbn [reduce_levels].
          erewrite bind_inr; [reflexivity|].
          rewrite slot_ix_eq by lia. change (4 ^ 1) with 4.
          eapply pop_reducer_drop; [done..|]. by rewrite Hlix. }
      cbn [fst snd is_none].
      erewrite bind_inr by reflexivity.
      set (h3 := <[b := <[Z.to_nat ((len l / 4) mod 4) := SNone]> cs]> (h2 ++ [csb])) in *.
      destruct (pop_tail_ev h3 rt1 l (SRef b) Hp)
        as (w & Hrun & Hrw & Hsw & Hmw).
      exists w, rt1, (delete old pos2), (h3 ++ [mk_node []]).
      split; [exact Hrun|]. split; [done|]. split; [done|]. split; [done|].
      split; [by apply Inv_alloc|]. split.
      * eapply evolves_trans; [exact Hev1|]. eapply evolves_trans; [exact Hev2|].
        eapply evolves_trans; [apply (evolves_alloc _ _ _ csb)|].
        eapply evolves_trans; [|apply evolves_alloc].
        eapply evolves_trans; [|apply evolves_delete].
        eapply (evolves_write _ _ _ b 1). by change (4 ^ (1 + 1)) with (4 ^ 2).
      * intros c k Hc.
        destruct (inv_node _ _ _ _ _ _ _ HI3 c _ _ Hc) as (Hk & _).
        apply lookup_delete_Some in Hc as [Hne Hc].
        destruct (decide (k = K)) as [->|HkK].
        -- eapply (Hroot_fresh pos2 h2 rt1 K _ HI2); [by apply HI2|done].
        -- destruct (decide (k = 0)) as [->|Hk0].
           ++ exfalso. apply Hne. symmetry.
              apply (inv_inj _ _ _ _ _ _ _ HI2 c old (0, len l / 4 ^ (0 + 1)) Hc).
              rewrite Hol. do 2 f_equal.
              change (4 ^ (0 + 1)) with 4.
              pose proof (Z.div_mod (len l / 4) 4 ltac:(lia)) as Hdm.
              pose proof (Z.mod_pos_bound (len l / 4) 4 ltac:(lia)).
              change (4 ^ 2) with (4 * 4). rewrite <- Z.div_div by lia. lia.
           ++ specialize (Hfr2 c k ltac:(lia) Hc). lia.
Qed.

End PopEvolution.

Section ConcatEvolution.
Context {T : Type}.
Implicit Types (h : heap T) (s x : slot T) (l : list (slot T))
  (pos : gmap addr (Z * Z)) (v w : @Vector T).

Lemma frame_agree h h' : frame h h' -> agree (length h) h h'.
Proof.
  intros [k ->]. split; [|rewrite length_app; lia].
  intros a Ha. by rewrite lookup_app_l.
Qed.

Lemma Inv_heights lo h pos rt K l lev :
  Inv lo h pos rt K l lev -> forall a k i, pos !! a = Some (k, i) -> 0 <= k.
Proof.
  intros HI a k i Ha. destruct (inv_node _ _ _ _ _ _ _ HI a k i Ha) as (? & _). lia.
Qed.

Lemma Inv_path_fresh lo h pos rt K l lev n :
  Inv lo h pos rt K l lev -> path_fresh lo pos n.
Proof. intros HI a k Ha. exact (inv_lo _ _ _ _ _ _ _ HI a _ Ha). Qed.

(** The appending loop of the constructor, with the labelling: no node
    is ever created to the right of the next index. *)
Lemma append_all_ev lo vals :
  forall h pos rt K l v,
  Inv lo h pos rt K l K -> root v = SRef rt -> size v = len l ->
  (lo <= length h)%nat -> hgt K (len l) -> no_right pos (len l) ->
  exists w rt' K' pos' h',
    append_all v vals h = (inr w, h') /\
    root w = SRef rt' /\ size w = len (l ++ vals) /\ mutation w = mutation v /\
    Inv lo h' pos' rt' K' (l ++ vals) K' /\ hgt K' (len (l ++ vals)) /\
    no_right pos' (len (l ++ vals)) /\ agree lo h h'.
Proof.
  induction vals as [|val vals IH]; intros h pos rt K l v HI Hroot Hsize Hlo Hh Hnr.
  - exists v, rt, K, pos, h. rewrite app_nil_r. cbn [append_all].
    split; [done|]. split_and!; try done; apply agree_refl.
  - cbn [append_all].
    destruct (append_ev lo h pos rt K l v val HI Hroot Hsize Hlo Hh)
      as (w & rt1 & K1 & pos1 & h1 & Happ & Hr1 & Hs1 & Hm1 & HI1 & Hh1 & Hev1).
    erewrite bind_inr by exact Happ.
    pose proof (evolves_agree _ _ _ _ _ lo Hev1 (Inv_path_fresh _ _ _ _ _ _ _ _ HI) Hlo)
      as Hag1.
    rewrite <- (len_app l val) in Hh1, Hs1.
    destruct (IH h1 pos1 rt1 K1 (l ++ [val]) w HI1 Hr1 Hs1)
      as (w2 & rt2 & K2 & pos2 & h2 & Hrun2 & Hr2 & Hs2 & Hm2 & HI2 & Hh2 & Hnr2 & Hag2).
    { apply agree_length in Hag1. lia. }
    { done. }
    { rewrite len_app. eapply no_right_mono; [|by eapply evolves_no_right]. lia. }
    rewrite <- app_assoc in Hs2, HI2, Hh2, Hnr2. cbn [app] in Hs2, HI2, Hh2, Hnr2.
    exists w2, rt2, K2, pos2, h2. split; [done|]. split_and!; try done.
    + congruence.
    + by eapply agree_trans.
Qed.

(** The constructor, with the labelling of the trie it builds. *)
Lemma Vector_init_ev h vals :
  exists v rt K pos h',
    Vector_init vals h = (inr v, h') /\
    root v = SRef rt /\ size v = len vals /\ mutation v = false /\
    Inv (length h) h' pos rt K vals K /\ hgt K (len vals) /\
    no_right pos (len vals) /\ frame h h'.
Proof.
  unfold Vector_init. erewrite bind_inr by reflexivity.
  destruct (append_all_ev (length h) vals (h ++ [mk_node []])
              {[length h := (0, 0)]} (length h) 0 []
              (mutate (mkVector (SRef (length h)) 0 false None)))
    as (w & rt & K & pos & h' & Hrun & Hr & Hs & Hm & HI & Hh & Hnr & Hag).
  { rewrite mk_node_nil. apply Inv_empty. }
  { done. }
  { done. }
  { rewrite length_app. lia. }
  { apply hgt_0. }
  { intros a k i [_ [= <- <-]]%lookup_singleton_Some. unfold len. simpl. lia. }
  erewrite bind_inr by exact Hrun. cbn [app] in *.
  exists (mutate w), rt, K, pos, h'. split; [done|].
  split; [done|]. split; [done|]. split; [unfold mutate; cbn; by rewrite Hm|].
  split; [done|]. split; [done|]. split; [done|].
  apply agree_frame. eapply agree_trans; [|done]. by apply agree_alloc.
Qed.

(** The inner loop of [concat] on a base whose nodes on the path of the
    next index are new: the appends, in place, leave every node alone
    that existed in the store [hs] where [concat] started. *)
Lemma concat_one_ev lo los hs sub Ks ls keys :
  Repr los hs sub Ks ls -> hgt Ks (len ls) -> len ls < 4 ^ (Ks + 1) ->
  Forall (fun key => 0 <= key < len ls) keys ->
  forall h pos rt K l base sub',
  same_trie sub sub' ->
  Inv lo h pos rt K l K -> root base = SRef rt -> size base = len l ->
  (lo <= length h)%nat -> hgt K (len l) ->
  no_right pos (len l) -> path_fresh (length hs) pos (len l) ->
  agree (length hs) hs h ->
  exists base' rt' K' pos' h' sub'',
    concat_one base sub' keys h = (inr (base', sub''), h') /\
    root base' = SRef rt' /\
    size base' = len (l ++ map (fun key => default SNone (ls !! Z.to_nat key)) keys) /\
    mutation base' = mutation base /\
    Inv lo h' pos' rt' K'
      (l ++ map (fun key => default SNone (ls !! Z.to_nat key)) keys) K' /\
    hgt K' (len (l ++ map (fun key => default SNone (ls !! Z.to_nat key)) keys)) /\
    agree (length hs) hs h' /\ (lo <= length h')%nat /\ same_trie sub sub''.
Proof.
  intros HRs Hhs Hlts. induction 1 as [|key keys Hkey _ IH];
    intros h pos rt K l base sub' Hsame HI Hroot Hsize Hlo Hh Hnr Hpf Hag.
  - exists base, rt, K, pos, h, sub'. cbn [concat_one map]. rewrite app_nil_r.
    split; [done|]. split_and!; done.
  - cbn [concat_one map].
    assert (Hn0 : 0 <= len l) by (unfold len; lia).
    assert (HRs' : Repr los h sub' Ks ls).
    { eapply Repr_same_trie; [done|]. by eapply Repr_agree. }
    destruct (at_Repr los h sub' Ks ls key HRs' Hhs Hlts Hkey) as (e & lf & Hat & He).
    erewrite bind_inr by exact Hat. cbn [fst snd].
    destruct (append_ev lo h pos rt K l base e HI Hroot Hsize Hlo Hh)
      as (base1 & rt1 & K1 & pos1 & h1 & Happ & Hr1 & Hs1 & Hm1 & HI1 & Hh1 & Hev1).
    erewrite bind_inr by exact Happ.
    assert (Hlhs : (length hs <= length h)%nat) by (by destruct Hag).
    pose proof (evolves_agree _ _ _ _ _ _ Hev1 Hpf Hlhs) as Hag1.
    assert (Hl1 : (length h <= length h1)%nat) by (by destruct Hev1).
    rewrite <- (len_app l e) in Hh1, Hs1.
    destruct (IH h1 pos1 rt1 K1 (l ++ [e]) base1
                (mkVector (root sub') (size sub') (mutation sub') (Some lf)))
      as (base' & rt' & K' & pos' & h' & sub'' & Hrun & Hr' & Hs' & Hm' & HI' & Hh'
          & Hag' & Hlo' & Hsame').
    { destruct Hsame as (? & ? & ?). done. }
    { done. }
    { done. }
    { done. }
    { lia. }
    { done. }
    { rewrite len_app. eapply no_right_mono; [|by eapply evolves_no_right]. lia. }
    { rewrite len_app. eapply path_fresh_next; try done.
      by eapply Inv_heights. }
    { by eapply agree_trans. }
    rewrite He. cbn [default].
    rewrite <- app_assoc in Hs', HI', Hh'. cbn [app] in Hs', HI', Hh'.
    exists base', rt', K', pos', h', sub''. split; [done|]. split_and!; try done.
    congruence.
Qed.

End ConcatEvolution.

Section ConcatOperands.
Context {T : Type}.
Implicit Types (h : heap T) (s x : slot T) (l : list (slot T))
  (pos : gmap addr (Z * Z)) (v w : @Vector T).

(** [concat] of two vectors built by the constructor leaves both as
    they were.  For lists of elements [l1] and [l2], with the lengths of
    [l1], of [l1] plus one and of [l2] not exact powers of WIDTH, and
    [v = Vector(l1)], [sub = Vector(l2)]: [v.concat(sub)] returns a
    persistent vector of the size of both on which [at] returns the
    elements of [l1] and then those of [l2] (unless that size is an
    exact power of WIDTH, where every read raises); the appends in
    place to the copy of [v] write no node that existed before, and
    afterwards [v] still reads [l1] and [sub] still reads [l2]. *)
Theorem concat_leaves_operands h l1 l2 :
  Forall is_elem l1 -> Forall is_elem l2 ->
  is_power_of (len l1) WIDTH = false ->
  is_power_of (len l1 + 1) WIDTH = false ->
  is_power_of (len l2) WIDTH = false ->
  exists v h1 sub h2 r h3,
    Vector_init l1 h = (inr v, h1) /\
    Vector_init l2 h1 = (inr sub, h2) /\
    concat v [sub] h2 = (inr r, h3) /\
    size r = len l1 + len l2 /\ mutation r = false /\
    agree (length h2) h2 h3 /\
    (forall i, 0 <= i < len l1 + len l2 ->
       at_result r i h3 =
         if is_power_of (len l1 + len l2) WIDTH then inl AttributeError
         else inr (default SNone ((l1 ++ l2) !! Z.to_nat i))) /\
    (forall i, 0 <= i < len l1 ->
       at_result v i h3 = inr (default SNone (l1 !! Z.to_nat i))) /\
    (forall i, 0 <= i < len l2 ->
       at_result sub i h3 = inr (default SNone (l2 !! Z.to_nat i))).
Proof.
  intros Hel1 Hel2 Hp1 Hp1' Hp2.
  assert (Hn1 : 0 <= len l1) by (unfold len; lia).
  assert (Hn2 : 0 <= len l2) by (unfold len; lia).
  destruct (Vector_init_ev h l1)
    as (v & rt & K & pos & h1 & Hrunv & Hrv & Hszv & Hmv & HIv & Hhv & Hnrv & Hfv).
  destruct (Vector_init_Repr h1 l2)
    as (sub & Ks & h2 & Hruns & HRs & Hhs & Hms & Hszs & Hfs).
  pose proof (hgt_not_power _ _ Hhs Hn2 Hp2) as Hlts.
  pose proof (hgt_not_power _ _ Hhv Hn1 Hp1) as Hltv.
  pose proof (frame_length _ _ Hfv) as Hl01.
  pose proof (frame_length _ _ Hfs) as Hl12.
  (* the receiver in the store where concat starts *)
  pose proof (Inv_agree _ _ _ _ _ _ _ _ HIv (frame_agree _ _ Hfs)) as HIv2.
  assert (HRv2 : Repr (length h) h2 v K l1).
  { exists pos, rt. split; [done|]. split; [done|]. split; [done|]. lia. }
  (* the copy of the receiver *)
  destruct (append_ev (length h) h2 pos rt K l1 v SNone HIv2 Hrv Hszv ltac:(lia) Hhv)
    as (w & rta & Ka & posa & ha & Happ & Hra & Hsa & Hma & HIa & Hha & Heva).
  rewrite Hmv in Hma.
  assert (Hl2a : (length h2 <= length ha)%nat) by (by destruct Heva).
  pose proof (hgt_not_power _ _ Hha ltac:(lia) Hp1') as Hlta.
  assert (Hda : depth w ha = (inr Ka, ha)).
  { apply depth_eq; [lia|]. rewrite Hsa.
    destruct (Z.eqb_spec (len l1 + 1) 0); [lia|]. apply hgt_depth; [done|lia..]. }
  destruct (pop_ev (length h) ha posa rta Ka l1 SNone w HIa Hra Hsa ltac:(lia) Hma Hda Hp1')
    as (base & rtb & posb & hb & Hpop & Hrb & Hsb & Hmb & HIb & Hevb & Hpfb).
  assert (Hlab : (length ha <= length hb)%nat) by (by destruct Hevb).
  assert (Hcopy : copy v h2 = (inr base, hb)).
  { unfold copy. by erewrite bind_inr by exact Happ. }
  assert (Hag2b : agree (length h2) h2 hb).
  { apply frame_agree. pose proof (copy_frame v h2 Hmv) as Hfr. unfold wp in Hfr.
    rewrite Hcopy in Hfr. by destruct Hfr. }
  assert (Hhb : hgt Ka (len l1)).
  { destruct Hha as (HK' & Hhi & Hlow). split; [done|]. split; [lia|].
    destruct (decide (Ka = 0)) as [?|HK0]; [by left|right].
    destruct Hlow as [?|Hlow]; [done|].
    rewrite is_power_of_false in Hp1.
    specialize (Hp1 Ka ltac:(lia)). lia. }
  assert (Hnrb : no_right posb (len l1)).
  { eapply evolves_no_right; [exact Hevb|]. eapply evolves_no_right; [exact Heva|done]. }
  (* the appends in place *)
  destruct (concat_one_ev (length h) (length h1) h2 sub Ks l2 (range 0 (len l2))
              HRs Hhs Hlts) with (h := hb) (pos := posb) (rt := rtb) (K := Ka) (l := l1)
              (base := set_mutation base true) (sub' := sub)
    as (base' & rt' & K' & pos' & h3 & sub'' & Hrun & Hr' & Hs' & Hm' & HI' & Hh'
        & Hag' & Hlo' & Hsame').
  { apply Forall_forall. intros key Hk%range_in. lia. }
  { done. }
  { done. }
  { done. }
  { done. }
  { lia. }
  { done. }
  { done. }
  { eapply path_fresh_mono; [|exact Hpfb]. lia. }
  { done. }
  rewrite read_whole in Hs', HI', Hh'.
  assert (Hlen : len (l1 ++ l2) = len l1 + len l2).
  { unfold len. rewrite length_app. lia. }
  exists v, h1, sub, h2, (set_mutation base' false), h3.
  split; [done|]. split; [done|]. split.
  { unfold concat. rewrite Hmv. erewrite bind_inr by exact Hcopy.
    cbn [concat_all]. erewrite (bind_inr (bind _ _)); [reflexivity|].
    rewrite Hszs. by erewrite bind_inr by exact Hrun. }
  split; [cbn; by rewrite Hs'|]. split; [done|]. split; [done|].
  split; [|split].
  - intros i Hi. rewrite <- Hlen in Hi |- *.
    apply (at_result_Repr (length h) h3 _ K'); [|done| |done].
    + exists pos', rt'. done.
    + by apply Forall_app.
  - intros i Hi.
    apply (at_result_depth (length h) h3 v K l1 i); [by eapply Repr_agree| |done].
    apply depth_eq; [lia|]. rewrite Hszv.
    destruct (Z.eqb_spec (len l1) 0) as [E|E]; [|apply hgt_depth; [done|lia..]].
    destruct Hhv as (? & ? & [?|?]); lia.
  - intros i Hi.
    apply (at_result_depth (length h1) h3 sub Ks l2 i); [by eapply Repr_agree| |done].
    rewrite (depth_indep sub h2 h3). by rewrite (Repr_depth _ _ _ _ _ HRs Hhs Hlts).
Qed.

End ConcatOperands.

Lemma concat_leaves_operands_witness :
  exists v h1 sub h2 r h3,
    Vector_init (of_list [0; 1; 2; 3; 4]) empty_heap = (inr v, h1) /\
    Vector_init (of_list [5; 6; 7]) h1 = (inr sub, h2) /\
    concat v [sub] h2 = (inr r, h3) /\
    size r = 8 /\ mutation r = false /\
    agree (length h2) h2 h3 /\
    (forall i, 0 <= i < 8 ->
       at_result r i h3
       = inr (default SNone (of_list [0; 1; 2; 3; 4; 5; 6; 7] !! Z.to_nat i))) /\
    (forall i, 0 <= i < 5 ->
       at_result v i h3 = inr (default SNone (of_list [0; 1; 2; 3; 4] !! Z.to_nat i))) /\
    (forall i, 0 <= i < 3 ->
       at_result sub i h3 = inr (default SNone (of_list [5; 6; 7] !! Z.to_nat i))).
Proof.
  apply (concat_leaves_operands empty_heap (of_list [0; 1; 2; 3; 4]) (of_list [5; 6; 7]));
    try reflexivity; repeat constructor.
Defined.
